(** * PypeIt datacube core: a shallow embedding of [pypeit/core/datacube.py]

    The functions below follow the Python source statement by statement.
    Conventions used throughout:

    - a NumPy [float64] array is a [list Q]; every number is an exact
      rational, so IEEE rounding, overflow and the values [nan]/[inf] are
      not represented as numbers;
    - a Python exception (a NumPy reduction over an empty array, an
      out-of-range index, [int()] of a non-finite value, [msgs.error]) and a
      non-finite result of a division are both rendered as [None];
    - a 3-D array of shape [(nx, ny, nz)] is its C-order flattening, the
      voxel [(i, j, k)] living at position [(i * ny + j) * nz + k];
    - array equality is point-wise [Qeq]. *)

From Stdlib Require Import QArith Qround Qminmax Qabs ZArith List Bool Lia Lqa.
From Stdlib Require Import Permutation Setoid Morphisms.
Import ListNotations.
Local Open Scope Q_scope.

Notation "x <- e ;; k" :=
  (match e with Some x => k | None => None end)
  (at level 61, e at next level, right associativity).
Notation "' p <- e ;; k" :=
  (match e with Some p => k | None => None end)
  (at level 61, p pattern, e at next level, right associativity).

(** ** NumPy and Python primitives used by the module *)

Module Np.

(** [a < b] on floats, as a boolean. *)
Definition Qltb (a b : Q) : bool := negb (Qle_bool b a).

(** [np.sum] of a 1-D array. *)
Fixpoint sum (l : list Q) : Q :=
  match l with
  | [] => 0
  | x :: t => x + sum t
  end.

(** [np.min] / [np.max]: a reduction with no identity, which raises
    [ValueError] on a zero-size array. *)
Fixpoint min (l : list Q) : option Q :=
  match l with
  | [] => None
  | x :: t => match min t with
              | None => Some x
              | Some m => Some (Qmin x m)
              end
  end.

Fixpoint max (l : list Q) : option Q :=
  match l with
  | [] => None
  | x :: t => match max t with
              | None => Some x
              | Some m => Some (Qmax x m)
              end
  end.

(** True division of floats.  A zero divisor yields [inf] or [nan] (or
    [ZeroDivisionError] for Python scalars): no finite value. *)
Definition divide (a b : Q) : option Q :=
  if Qeq_bool b 0 then None else Some (a / b).


(** Python's [int(x)] on a finite float: truncation toward zero. *)
Definition int (q : Q) : Z :=
  if Qle_bool 0 q then Qfloor q else Qceiling q.


(** [np.arange(n)] for an integer [n], as floats. *)
Definition arange (n : Z) : list Q :=
  map (fun k => inject_Z (Z.of_nat k)) (seq 0 (Z.to_nat n)).

(** [np.arange(start, stop, step)] for floats: [ceil((stop - start) / step)]
    values [start + k * step]. *)
Definition arange3 (start stop step : Q) : list Q :=
  map (fun k => start + inject_Z (Z.of_nat k) * step)
      (seq 0 (Z.to_nat (Qceiling ((stop - start) / step)))).

(** [np.arange(all_wave.size)]. *)
Definition indices {A} (l : list A) : list nat := seq 0 (length l).

(** [np.where(mask)[0]] for a mask computed element-wise by [p]. *)
Definition where_ {A} (p : A -> bool) (l : list A) : list nat :=
  map fst (filter (fun ix => p (snd ix)) (combine (seq 0 (length l)) l)).

(** Fancy indexing [a[idx]]: [IndexError] when an index is out of range. *)
Fixpoint take {A} (a : list A) (idx : list nat) : option (list A) :=
  match idx with
  | [] => Some []
  | i :: t => x <- nth_error a i ;; r <- take a t ;; Some (x :: r)
  end.

End Np.

(** Point-wise equality of float arrays. *)
Definition arr_eq : list Q -> list Q -> Prop := Forall2 Qeq.
Infix "=~" := arr_eq (at level 70, no associativity).

(** ** [get_whitelight_pixels] (lines 430-454) *)

Definition overlap_warning : nat := 452%nat.

(** The result is the index tuple [ww], [wavediff], and the list of source
    lines whose [msgs.warn] fired. *)
Definition get_whitelight_pixels (all_wave : list Q) (min_wl max_wl : Q)
  : option (list nat * Q * list nat) :=
  hi <- Np.max all_wave ;;
  lo <- Np.min all_wave ;;
  let wavediff := hi - lo in
  if Np.Qltb min_wl max_wl then
    let ww := Np.where_ (fun w => Np.Qltb min_wl w && Np.Qltb w max_wl) all_wave in
    let wavediff := max_wl - min_wl in
    Some (ww, wavediff, [])
  else
    let ww := Np.indices all_wave in
    Some (ww, wavediff, [overlap_warning]).

(** ** [wcs_bounds], [generate_WCS] and [create_wcs] (lines 711-860) *)

Definition or_else (given : option Q) (dflt : option Q) : option Q :=
  match given with
  | Some v => Some v
  | None => dflt
  end.

Definition wcs_bounds (all_ra all_dec all_wave : list Q)
    (ra_min ra_max dec_min dec_max wave_min wave_max : option Q)
  : option (Q * Q * Q * Q * Q * Q) :=
  _ra_min <- or_else ra_min (Np.min all_ra) ;;
  _ra_max <- or_else ra_max (Np.max all_ra) ;;
  _dec_min <- or_else dec_min (Np.min all_dec) ;;
  _dec_max <- or_else dec_max (Np.max all_dec) ;;
  _wav_min <- or_else wave_min (Np.min all_wave) ;;
  _wav_max <- or_else wave_max (Np.max all_wave) ;;
  Some (_ra_min, _ra_max, _dec_min, _dec_max, _wav_min, _wav_max).

(** The fields of the [astropy.wcs.WCS] object that [generate_WCS] sets from
    its arguments; [crpix] is the constant [[0, 0, 0]]. *)
Record WCS := {
  crval : Q * Q * Q;
  crpix : Q * Q * Q;
  cdelt : Q * Q * Q
}.


(** What [load_imageWCS(reference)] hands back and [create_wcs] reads: the
    image shape and the celestial [crval]/[cdelt] of its WCS. *)
Record reference_image := {
  ref_shape : Z * Z;
  ref_crval : Q * Q;
  ref_cdelt : Q * Q
}.

(** [np.arange(1 + num) - 0.5]. *)
Definition bin_edges (num : Z) : list Q :=
  map (fun e => e - (1 # 2)) (Np.arange (1 + num)).

Definition voxedges : Type := list Q * list Q * list Q.

Section CreateWcs.

(** [cosd d] stands for [np.cos(d * np.pi / 180.0)]. *)
Variable cosd : Q -> Q.


End CreateWcs.

(** ** [make_whitelight_fromcube] (lines 496-539) *)

(** A 3-D [numpy.ndarray]: its shape and its C-order data. *)
Record cube := {
  nx : nat;
  ny : nat;
  nz : nat;
  voxels : list Q
}.

(** [a[lo:hi]] for [lo <= hi]. *)
Definition slice {A} (lo hi : nat) (a : list A) : list A :=
  firstn (hi - lo) (skipn lo a).

(** [cube[i, j, :]]. *)
Definition spectrum (c : cube) (i j : nat) : list Q :=
  slice ((i * ny c + j) * nz c) ((i * ny c + j) * nz c + nz c) (voxels c).

(** [np.sum(s != 0.0)]. *)
Definition count_nonzero (s : list Q) : nat :=
  length (filter (fun v => negb (Qeq_bool v 0)) s).

Fixpoint mapM {A B} (f : A -> option B) (l : list A) : option (list B) :=
  match l with
  | [] => Some []
  | a :: t => b <- f a ;; r <- mapM f t ;; Some (b :: r)
  end.

(** The wavelength cut of lines 520-534: the pair [(wmin, wmax)] of the slice
    [cube[:, :, wmin:wmax]], or [None] when no cut is requested. *)
Definition wavelength_cut (c : cube) (wave : option (list Q))
    (wavemin wavemax : option Q) : option (option (nat * nat)) :=
  match wavemin, wavemax with
  | None, None => Some None
  | _, _ =>
      wave <- wave ;;
      if negb (length wave =? nz c)%nat then None else
      wavemin <- or_else wavemin (Np.min wave) ;;
      wavemax <- or_else wavemax (Np.max wave) ;;
      let ww := Np.where_ (fun w => Qle_bool wavemin w && Qle_bool w wavemax) wave in
      wmin <- hd_error ww ;;
      wlast <- hd_error (rev ww) ;;
      Some (Some (wmin, (wlast + 1)%nat))
  end.

(** [cutcube[i, j, :]]. *)
Definition cut_spectrum (c : cube) (cut : option (nat * nat)) (i j : nat) : list Q :=
  match cut with
  | None => spectrum c i j
  | Some (wmin, wmax) => slice wmin wmax (spectrum c i j)
  end.

(** Lines 536-538 for one spaxel. *)
Definition collapse_spaxel (s : list Q) : option Q :=
  let nrmval := count_nonzero s in
  let nrmval := if (nrmval =? 0)%nat then 1%nat else nrmval in
  Np.divide (Np.sum s) (inject_Z (Z.of_nat nrmval)).

Definition make_whitelight_fromcube (c : cube) (wave : option (list Q))
    (wavemin wavemax : option Q) : option (list (list Q)) :=
  cut <- wavelength_cut c wave wavemin wavemax ;;
  mapM (fun i => mapM (fun j => collapse_spaxel (cut_spectrum c cut i j))
                      (seq 0 (ny c)))
       (seq 0 (nx c)).

(** ** Collaborators outside the module *)

(** Modelled from the spec: [utils.inverse] ([pypeit/utils.py] is not part of
    the sources).  The safe inverse is the reciprocal, with the inverse of
    exactly zero defined as zero. *)
Definition inverse (a : Q) : Q :=
  if Qeq_bool a 0 then 0 else 1 / a.

(** [fast_histogram.histogramdd(sample, bins, range, weights)]: regular bins,
    a sample counted when [lo <= x < hi] holds on every axis, its bin on an
    axis being [int((x - lo) * (1 / (hi - lo)) * nbins)].  The call raises
    [ValueError] for a non-positive bin count, an empty range, or weights
    whose length differs from the sample's. *)
Definition bin_index (lo hi : Q) (nb : nat) (x : Q) : option nat :=
  if Qle_bool lo x && Np.Qltb x hi
  then Some (Z.to_nat (Np.int ((x - lo) * (1 / (hi - lo)) * inject_Z (Z.of_nat nb))))
  else None.

Definition axis_range : Type := Q * Q.

Definition voxel_index (bins : nat * nat * nat)
    (rng : axis_range * axis_range * axis_range) (p : Q * Q * Q) : option nat :=
  let '(bx, by_, bz) := bins in
  let '(rx, ry, rz) := rng in
  let '(x, y, z) := p in
  ix <- bin_index (fst rx) (snd rx) bx x ;;
  iy <- bin_index (fst ry) (snd ry) by_ y ;;
  iz <- bin_index (fst rz) (snd rz) bz z ;;
  Some ((ix * by_ + iy) * bz + iz)%nat.

(** [count[i] += w]. *)
Fixpoint add_at (i : nat) (w : Q) (a : list Q) : list Q :=
  match a, i with
  | [], _ => []
  | x :: t, O => (x + w) :: t
  | x :: t, S i' => x :: add_at i' w t
  end.

Definition histogram_step (bins : nat * nat * nat)
    (rng : axis_range * axis_range * axis_range)
    (h : list Q) (sw : (Q * Q * Q) * Q) : list Q :=
  match voxel_index bins rng (fst sw) with
  | Some i => add_at i (snd sw) h
  | None => h
  end.

Definition valid_range (r : axis_range) : bool := Np.Qltb (fst r) (snd r).

Definition size3 (bins : nat * nat * nat) : nat :=
  let '(bx, by_, bz) := bins in (bx * by_ * bz)%nat.

Definition histogramdd (sample : list (Q * Q * Q)) (bins : nat * nat * nat)
    (rng : axis_range * axis_range * axis_range) (weights : list Q)
  : option (list Q) :=
  let '(bx, by_, bz) := bins in
  let '(rx, ry, rz) := rng in
  if (bx =? 0)%nat || (by_ =? 0)%nat || (bz =? 0)%nat then None
  else if negb (valid_range rx && valid_range ry && valid_range rz) then None
  else if negb (length sample =? length weights)%nat then None
  else Some (fold_left (histogram_step bins rng) (combine sample weights)
                       (repeat 0 (size3 bins))).

(** One exposure as [subpixellate] sees it: [_slits[fr].spat_id], and the
    chain of lines 1471-1500 that takes the pixels [this_sl] of slit number
    [sl] and the flattened sub-pixel offsets [(spat_x, spec_y)] through
    [_tilts[fr]], the two linear interpolants, [_all_dar[fr].correction],
    [_astrom_trans[fr].transform] and [output_wcs.wcs_world2pix] to one voxel
    coordinate per sub-pixel, pixel-major; [None] when one of them raises. *)
Record frame := {
  spat_id : list Z;
  vox_coord : nat -> list nat -> list (Q * Q) -> option (list (Q * Q * Q))
}.

(** The arguments [tilts, slits, astrom_trans, all_dar]: all four single
    objects, or all four lists of one length. *)
Inductive collaborators :=
  | Single (f : frame)
  | Several (fs : list frame).

(** ** [subpixellate] (lines 1329-1515), with [debug=False] *)

(** Element-wise [a * b], [a + b] of equally shaped arrays. *)
Definition mul (a b : list Q) : list Q :=
  map (fun p => fst p * snd p) (combine a b).

Definition add (a b : list Q) : list Q :=
  map (fun p => fst p + snd p) (combine a b).

(** [np.repeat(a, k)]. *)
Definition np_repeat (a : list Q) (k : nat) : list Q :=
  flat_map (fun x => repeat x k) a.

(** Lines 1452-1453: [np.arange(0.5/n, 1, 1/n) - 0.5]. *)
Definition subpixel_offsets (n : Z) : option (list Q) :=
  start <- Np.divide (1 # 2) (inject_Z n) ;;
  step <- Np.divide 1 (inject_Z n) ;;
  Some (map (fun o => o - (1 # 2)) (Np.arange3 start 1 step)).

(** Line 1454, flattened: [spat_x, spec_y = np.meshgrid(spat_offs, spec_offs)]
    has one row per spectral offset. *)
Definition meshgrid (spat_offs spec_offs : list Q) : list (Q * Q) :=
  flat_map (fun sy => map (fun sx => (sx, sy)) spat_offs) spec_offs.

(** The three running cubes [flxcube, varcube, normcube]. *)
Definition accumulators : Type := list Q * list Q * list Q.

(** Line 1470: [np.where((all_spatid == spatid) & (all_idx == fr))]. *)
Definition select_slit (all_spatid all_idx : list Z) (spatid : Z) (fr : nat)
  : option (list nat) :=
  if negb (length all_spatid =? length all_idx)%nat then None
  else Some (Np.where_ (fun p => Z.eqb (fst p) spatid && Z.eqb (snd p) (Z.of_nat fr))
                       (combine all_spatid all_idx)).

(** The weight arrays handed to the three [histogramdd] calls of lines
    1502-1504 for the pixels [this_sl]. *)
Definition slit_weights (all_sci all_var all_wght_subpix : list Q)
    (this_sl : list nat) (num_subpixels : Z) : option (list Q * list Q * list Q) :=
  sci <- Np.take all_sci this_sl ;;
  var <- Np.take all_var this_sl ;;
  wgt <- Np.take all_wght_subpix this_sl ;;
  if (num_subpixels <? 0)%Z then None else
  let reps := Z.to_nat num_subpixels in
  Some (np_repeat (mul sci wgt) reps,
        np_repeat (mul var (map (fun w => w ^ 2) wgt)) reps,
        np_repeat wgt reps).

Section Subpixellate.

Variables all_sci all_ivar all_wghts : list Q.
Variable all_spatid : list Z.
Variable bins : voxedges.
Variables spec_subpixel spat_subpixel : Z.

(** Lines 1446-1447. *)
Definition outshape : nat * nat * nat :=
  let '(b0, b1, b2) := bins in
  ((length b0 - 1)%nat, (length b1 - 1)%nat, (length b2 - 1)%nat).

Definition edge_range (b : list Q) : option axis_range :=
  lo <- hd_error b ;; hi <- hd_error (rev b) ;; Some (lo, hi).

Definition binrng : option (axis_range * axis_range * axis_range) :=
  let '(b0, b1, b2) := bins in
  r0 <- edge_range b0 ;; r1 <- edge_range b1 ;; r2 <- edge_range b2 ;;
  Some (r0, r1, r2).

(** Lines 1452-1458. *)
Definition num_subpixels : Z := (spec_subpixel * spat_subpixel)%Z.

Definition subgrid : option (list (Q * Q)) :=
  spec_offs <- subpixel_offsets spec_subpixel ;;
  spat_offs <- subpixel_offsets spat_subpixel ;;
  Some (meshgrid spat_offs spec_offs).

Definition area : option Q := Np.divide 1 (inject_Z num_subpixels).

Definition all_wght_subpix (area : Q) : list Q := map (fun w => w * area) all_wghts.

Definition all_var : list Q := map inverse all_ivar.

(** One pass of the loop body, lines 1470-1504, for slit number [sl] (with
    identifier [spatid]) of exposure number [fr]: the three histograms that
    are added to the running cubes. *)
Definition slit_histograms (all_idx : list Z)
    (rng : axis_range * axis_range * axis_range) (grid : list (Q * Q)) (area : Q)
    (it : nat * frame * nat * Z) : option accumulators :=
  let '(fr, this, sl, spatid) := it in
  this_sl <- select_slit all_spatid all_idx spatid fr ;;
  coord <- vox_coord this sl this_sl grid ;;
  '(wf, wv, wn) <- slit_weights all_sci all_var (all_wght_subpix area)
                                this_sl num_subpixels ;;
  hf <- histogramdd coord outshape rng wf ;;
  hv <- histogramdd coord outshape rng wv ;;
  hn <- histogramdd coord outshape rng wn ;;
  Some (hf, hv, hn).

Definition loop_body (all_idx : list Z)
    (rng : axis_range * axis_range * axis_range) (grid : list (Q * Q)) (area : Q)
    (st : option accumulators) (it : nat * frame * nat * Z) : option accumulators :=
  '(flxcube, varcube, normcube) <- st ;;
  '(hf, hv, hn) <- slit_histograms all_idx rng grid area it ;;
  Some (add flxcube hf, add varcube hv, add normcube hn).

(** The iterations of the two nested loops of lines 1460-1465, in order. *)
Definition frame_slit_pairs (frames : list frame) : list (nat * frame * nat * Z) :=
  flat_map (fun ff =>
              map (fun ss => (fst ff, snd ff, fst ss, snd ss))
                  (combine (seq 0 (length (spat_id (snd ff)))) (spat_id (snd ff))))
           (combine (seq 0 (length frames)) frames).

(** Lines 1419-1444: the per-exposure lists and [all_idx]. *)
Definition frame_setup (args : collaborators) (all_idx : option (list Z))
  : option (list frame * list Z) :=
  match args with
  | Several fs =>
      match all_idx with
      | None => if (length fs =? 1)%nat
                then Some (fs, repeat 0%Z (length all_sci))
                else None
      | Some idx => Some (fs, idx)
      end
  | Single f => Some ([f], repeat 0%Z (length all_sci))
  end.

(** Lines 1446-1506: the running cubes after the iterations [order]. *)
Definition accumulate_in (order : list (nat * frame * nat * Z)) (all_idx : list Z)
  : option accumulators :=
  rng <- binrng ;;
  grid <- subgrid ;;
  area <- area ;;
  let zeros := repeat 0 (size3 outshape) in
  fold_left (loop_body all_idx rng grid area) order (Some (zeros, zeros, zeros)).

Definition accumulate (args : collaborators) (all_idx : option (list Z))
  : option accumulators :=
  '(frames, all_idx) <- frame_setup args all_idx ;;
  accumulate_in (frame_slit_pairs frames) all_idx.

(** Lines 1507-1515. *)
Definition finalize (acc : accumulators) : list Q * list Q * list Z :=
  let '(flxcube, varcube, normcube) := acc in
  let nc_inverse := map inverse normcube in
  let flxcube := mul flxcube nc_inverse in
  let varcube := mul varcube (map (fun v => v ^ 2) nc_inverse) in
  let bpmcube := map (fun v => if Qeq_bool v 0 then 1%Z else 0%Z) normcube in
  (flxcube, varcube, bpmcube).


Definition subpixellate (args : collaborators) (all_idx : option (list Z))
  : option (list Q * list Q * list Z) :=
  option_map finalize (accumulate args all_idx).

End Subpixellate.

(** ** The quantities the properties are stated with *)

(** The weight one sub-pixel inherits from a parent pixel of weight [w]. *)
Definition subpixel_weight (w : Q) (n m : Z) : Q := w / inject_Z (n * m).

(** A voxel coordinate lies inside the declared bin range. *)
Definition in_bin_range (rng : axis_range * axis_range * axis_range)
    (p : Q * Q * Q) : bool :=
  let '(rx, ry, rz) := rng in
  let '(x, y, z) := p in
  (Qle_bool (fst rx) x && Np.Qltb x (snd rx)) &&
  (Qle_bool (fst ry) y && Np.Qltb y (snd ry)) &&
  (Qle_bool (fst rz) z && Np.Qltb z (snd rz)).

(** The total weight of the sub-pixels of [coord] that lie inside the range,
    each carrying the weight listed for it in [wts]. *)
Definition inbounds_weight (rng : axis_range * axis_range * axis_range)
    (coord : list (Q * Q * Q)) (wts : list Q) : Q :=
  Np.sum (map snd (filter (fun sw => in_bin_range rng (fst sw)) (combine coord wts))).

(** The pixels and voxel coordinates of one loop iteration. *)
Definition slit_subpixels (all_spatid all_idx : list Z) (grid : list (Q * Q))
    (it : nat * frame * nat * Z) : option (list nat * list (Q * Q * Q)) :=
  let '(fr, this, sl, spatid) := it in
  this_sl <- select_slit all_spatid all_idx spatid fr ;;
  coord <- vox_coord this sl this_sl grid ;;
  Some (this_sl, coord).

(** In-range weight of one loop iteration, every sub-pixel of pixel [i]
    weighing [all_wghts[i] / (spec_subpixel * spat_subpixel)]. *)
Definition slit_inbounds_weight (all_wghts : list Q) (all_spatid all_idx : list Z)
    (n m : Z) (rng : axis_range * axis_range * axis_range) (grid : list (Q * Q))
    (it : nat * frame * nat * Z) : Q :=
  match slit_subpixels all_spatid all_idx grid it with
  | Some (this_sl, coord) =>
      inbounds_weight rng coord
        (np_repeat (map (fun i => subpixel_weight (nth i all_wghts 0) n m) this_sl)
                   (Z.to_nat (n * m)))
  | None => 0
  end.

(** Every sub-pixel generated in the iterations [order] is inside the range. *)
Definition all_inside (all_spatid all_idx : list Z)
    (rng : axis_range * axis_range * axis_range) (grid : list (Q * Q))
    (order : list (nat * frame * nat * Z)) : Prop :=
  forall it this_sl coord, In it order ->
    slit_subpixels all_spatid all_idx grid it = Some (this_sl, coord) ->
    forall p, In p coord -> in_bin_range rng p = true.





Definition ybins_of (r : WCS * voxedges * option reference_image) : list Q :=
  snd (fst (snd (fst r))).



(** The offset of sub-pixel number [k] out of [n] along one axis. *)
Definition offset_formula (k : nat) (n : Z) : Q :=
  (inject_Z (Z.of_nat k) + (1 # 2)) / inject_Z n - (1 # 2).

(** The bin counts and ranges [histogramdd] accepts. *)
Definition bins_ok (bins : nat * nat * nat)
    (rng : axis_range * axis_range * axis_range) : Prop :=
  let '(bx, by_, bz) := bins in
  let '(rx, ry, rz) := rng in
  (0 < bx)%nat /\ (0 < by_)%nat /\ (0 < bz)%nat /\
  fst rx < snd rx /\ fst ry < snd ry /\ fst rz < snd rz.

(** A single exposure with one slit (identifier 7) whose transformation
    chain sends the sub-pixel with spectral offset [o] of pixel [i] to the
    voxel coordinate [(0, 0, i + o)]. *)
Definition ramp_frame : frame :=
  {| spat_id := [7%Z];
     vox_coord := fun _ this_sl grid =>
       Some (flat_map (fun i => map (fun g => (0, 0, inject_Z (Z.of_nat i) + snd g)) grid)
                      this_sl) |}.

(** * Further functions of the module *)

(** ** [get_whitelight_range] (lines 457-493) *)

(** [wl_range] is the two-element list of optional user values; the result
    is [wlrng] and the source lines whose [msgs.warn] fired. *)
Definition get_whitelight_range (wavemin wavemax : Q) (wl_range : option Q * option Q)
  : (Q * Q) * list nat :=
  let '(lo, warn_lo) :=
    match fst wl_range with
    | Some v => (v, if Np.Qltb v wavemin then [482%nat] else [])
    | None => (wavemin, [])
    end in
  let '(hi, warn_hi) :=
    match snd wl_range with
    | Some v => (v, if Np.Qltb wavemax v then [488%nat] else [])
    | None => (wavemax, [])
    end in
  ((lo, hi), warn_lo ++ warn_hi).

(** ** [align_user_offsets] (lines 564-607) *)

(** [a[all_idx == ff] += delta]: the boolean mask must have the length of [a]. *)
Definition masked_add (a : list Q) (all_idx : list Z) (ff : nat) (delta : Q)
  : option (list Q) :=
  if negb (length a =? length all_idx)%nat then None
  else Some (map (fun xi => if Z.eqb (snd xi) (Z.of_nat ff) then fst xi + delta else fst xi)
                 (combine a all_idx)).

(** One pass of the loop of lines 601-606. *)
Definition align_step (all_idx : list Z) (ref_shift_ra ref_shift_dec ra_offset dec_offset : list Q)
    (st : option (list Q * list Q)) (ff : nat) : option (list Q * list Q) :=
  '(all_ra, all_dec) <- st ;;
  sra <- nth_error ref_shift_ra ff ;;
  ora <- nth_error ra_offset ff ;;
  all_ra <- masked_add all_ra all_idx ff (sra + ora / 3600) ;;
  sdec <- nth_error ref_shift_dec ff ;;
  odec <- nth_error dec_offset ff ;;
  all_dec <- masked_add all_dec all_idx ff (sdec + odec / 3600) ;;
  Some (all_ra, all_dec).

Definition align_user_offsets (all_ra all_dec : list Q) (all_idx : list Z)
    (ifu_ra ifu_dec ra_offset dec_offset : list Q) : option (list Q * list Q) :=
  ra0 <- hd_error ifu_ra ;;
  let ref_shift_ra := map (fun r => ra0 - r) ifu_ra in
  dec0 <- hd_error ifu_dec ;;
  let ref_shift_dec := map (fun d => dec0 - d) ifu_dec in
  let numfiles := length ra_offset in
  fold_left (align_step all_idx ref_shift_ra ref_shift_dec ra_offset dec_offset)
            (seq 0 numfiles) (Some (all_ra, all_dec)).

(** ** [set_voxel_sampling] (lines 610-662) *)

(** [np.abs((x - x0) / x0) > tol] for floats: a zero [x0] makes the ratio
    [nan] (never greater) when [x = x0] and infinite (greater) otherwise. *)
Definition ratio_exceeds (tol x0 x : Q) : bool :=
  if Qeq_bool x0 0 then negb (Qeq_bool (x - x0) 0)
  else Np.Qltb tol (Qabs ((x - x0) / x0)).

(** [np.any(np.abs((a - a[0]) / a[0]) > tol)]; [a[0]] raises on an empty array. *)
Definition inconsistent (tol : Q) (a : list Q) : option bool :=
  x0 <- hd_error a ;; Some (existsb (ratio_exceeds tol x0) a).

(** [spatscale] has one row [(pixel scale, slicer scale)] per frame.  The
    result is [(_dspat, _dwv)] and the source lines whose [msgs.warn] fired. *)
Definition set_voxel_sampling (spatscale : list (Q * Q)) (specscale : list Q)
    (dspat dwv : option Q) : option (Q * Q * list nat) :=
  bad_pix <- inconsistent (1 # 10000) (map fst spatscale) ;;
  bad_slicer <- inconsistent (1 # 10000) (map snd spatscale) ;;
  bad_wave <- inconsistent (1 # 100) specscale ;;
  _dspat <- or_else dspat (Np.max (flat_map (fun s => [fst s; snd s]) spatscale)) ;;
  _dwv <- or_else dwv (Np.max specscale) ;;
  Some (_dspat, _dwv,
        (if bad_pix then [640%nat] else []) ++
        (if bad_slicer then [646%nat] else []) ++
        (if bad_wave then [652%nat] else [])).

(** A voxel coordinate is counted in voxel number [j] of the flattened cube. *)
Definition lands_in (bins : nat * nat * nat)
    (rng : axis_range * axis_range * axis_range) (j : nat) (p : Q * Q * Q) : bool :=
  match voxel_index bins rng p with
  | Some i => (i =? j)%nat
  | None => false
  end.

(** The total weight of the sub-pixels of [coord] counted in voxel [j]. *)
Definition voxel_weight (bins : nat * nat * nat)
    (rng : axis_range * axis_range * axis_range) (j : nat)
    (coord : list (Q * Q * Q)) (wts : list Q) : Q :=
  Np.sum (map snd (filter (fun sw => lands_in bins rng j (fst sw)) (combine coord wts))).

(** The sub-pixels of one loop iteration with the three weights lines
    1502-1504 give each of them. *)
Definition slit_contributions (all_sci all_ivar all_wghts : list Q)
    (all_spatid all_idx : list Z) (n m : Z) (grid : list (Q * Q)) (area : Q)
    (it : nat * frame * nat * Z)
  : option (list (Q * Q * Q) * (list Q * list Q * list Q)) :=
  '(this_sl, coord) <- slit_subpixels all_spatid all_idx grid it ;;
  w <- slit_weights all_sci (all_var all_ivar) (all_wght_subpix all_wghts area)
                    this_sl (num_subpixels n m) ;;
  Some (coord, w).

(** What one loop iteration adds to voxel [j] of the flux, variance and
    normalisation cubes. *)
Definition slit_voxel_sums (all_sci all_ivar all_wghts : list Q)
    (all_spatid all_idx : list Z) (bins : voxedges) (n m : Z)
    (rng : axis_range * axis_range * axis_range) (grid : list (Q * Q)) (area : Q)
    (j : nat) (it : nat * frame * nat * Z) : Q * Q * Q :=
  match slit_contributions all_sci all_ivar all_wghts all_spatid all_idx n m grid area it with
  | Some (coord, (wf, wv, wn)) =>
      (voxel_weight (outshape bins) rng j coord wf,
       voxel_weight (outshape bins) rng j coord wv,
       voxel_weight (outshape bins) rng j coord wn)
  | None => (0, 0, 0)
  end.

(** Some sub-pixel generated in the iterations [order] is counted in voxel [j]. *)
Definition voxel_hit (all_spatid all_idx : list Z) (bins : voxedges)
    (rng : axis_range * axis_range * axis_range) (grid : list (Q * Q))
    (order : list (nat * frame * nat * Z)) (j : nat) : Prop :=
  exists it this_sl coord p,
    In it order /\ slit_subpixels all_spatid all_idx grid it = Some (this_sl, coord) /\
    In p coord /\ lands_in (outshape bins) rng j p = true.

(** ** [make_good_skymask] (lines 352-384) *)

(** [np.unique] of an integer array: its distinct values, in increasing order. *)
Fixpoint insert_unique (x : Z) (l : list Z) : list Z :=
  match l with
  | [] => [x]
  | y :: t => if (x <? y)%Z then x :: y :: t
              else if (x =? y)%Z then y :: t
              else y :: insert_unique x t
  end.

Definition unique (l : list Z) : list Z := fold_right insert_unique [] l.

(** [np.max] of an index array; it raises on an empty one. *)
Definition max_index (l : list nat) : option nat :=
  match l with
  | [] => None
  | x :: t => Some (fold_left Nat.max t x)
  end.

(** [a[i] = v]. *)
Fixpoint set_at {A} (i : nat) (v : A) (a : list A) : list A :=
  match a, i with
  | [], _ => []
  | _ :: t, O => v :: t
  | x :: t, S i' => x :: set_at i' v t
  end.

(** [a[idx] = vals] for an index array and as many values. *)
Fixpoint assign {A} (a : list A) (idx : list nat) (vals : list A) : list A :=
  match idx, vals with
  | i :: ti, v :: tv => assign (set_at i v a) ti tv
  | _, _ => a
  end.

(** [slitimg] and [tilts] are two images of one shape [(nspec, nspat)], held
    in C order: pixel [(r, c)] is element [r * nspat + c].  One pass of the
    loop of lines 374-383 for the slit with identifier [s]. *)
Definition skymask_slit (nspec nspat : nat) (slitimg : list Z) (tilts : list Q)
    (gpm : list bool) (s : Z) : option (list bool) :=
  let ww := Np.where_ (fun p => Z.eqb (fst p) s && negb (Qeq_bool (snd p) 0))
                      (combine slitimg tilts) in
  let ww0 := map (fun f => (f / nspat)%nat) ww in
  let ww1 := map (fun f => (f mod nspat)%nat) ww in
  let wb := Np.where_ (fun r => (r =? 0)%nat) ww0 in
  top <- max_index ww0 ;;
  let wt := Np.where_ (fun r => (r =? top)%nat) ww0 in
  cb <- Np.take ww1 wb ;;
  tb <- Np.take tilts cb ;;
  maxtlt <- Np.max tb ;;
  ct <- Np.take ww1 wt ;;
  tt <- Np.take tilts (map (fun c => ((nspec - 1) * nspat + c)%nat) ct) ;;
  mintlt <- Np.min tt ;;
  tw <- Np.take tilts ww ;;
  Some (assign gpm ww (map (fun t => Qle_bool maxtlt t && Qle_bool t mintlt) tw)).

(** Images whose sizes do not fit the shape are rejected, as element-wise
    operations on arrays of different shapes are. *)
Definition make_good_skymask (nspec nspat : nat) (slitimg : list Z) (tilts : list Q)
  : option (list bool) :=
  if negb ((length slitimg =? nspec * nspat)%nat && (length tilts =? nspec * nspat)%nat)
  then None
  else
    let gpm := repeat false (nspec * nspat) in
    let unq := unique (filter (fun s => (0 <? s)%Z) slitimg) in
    fold_left (fun acc s => gpm <- acc ;; skymask_slit nspec nspat slitimg tilts gpm s)
              unq (Some gpm).

(** Pixel [f] belongs to slit [s] and has a non-zero tilt. *)
Definition slit_pixel (slitimg : list Z) (tilts : list Q) (s : Z) (f : nat) : Prop :=
  exists t, nth_error slitimg f = Some s /\ nth_error tilts f = Some t /\ ~ t == 0.

(** Array [a] is array [b] with every element multiplied by [k]. *)
Definition scaled (k : Q) (a b : list Q) : Prop :=
  Forall2 (fun x y => x == k * y) a b.


(** ** [LBTMODSSpectrograph.check_frame_type] ([lbt_modsproc.py], lines 154-195) *)

From Stdlib Require String.
Import String.StringSyntax.
Local Open Scope string_scope.

(** One row of the metadata table [fitstbl], with the columns the method
    compares with string constants. *)
Record table_row := {
  idname : String.string;
  ra : String.string;
  dispname : String.string;
  decker : String.string
}.

(** [ftype in [...]]. *)
Definition one_of (ftype : String.string) (names : list String.string) : bool :=
  existsb (String.eqb ftype) names.

(** The line of the final [msgs.warn]. *)
Definition unknown_type_warning : nat := 194%nat.

Section CheckFrameType.

(** [framematch.check_frame_exptime(fitstbl['exptime'], exprng)] is not part
    of the sources: [good_exp r] is the flag it holds for row [r]. *)
Variable good_exp : table_row -> bool.

Definition check_frame_type (ftype : String.string) (fitstbl : list table_row)
  : list bool * list nat :=
  if one_of ftype ["science"] then
    (map (fun r => good_exp r && String.eqb (idname r) "OBJECT"
                   && negb (String.eqb (ra r) "none")
                   && negb (String.eqb (dispname r) "Flat")) fitstbl, [])
  else if one_of ftype ["standard"] then
    (map (fun r => good_exp r && String.eqb (idname r) "STD"
                   && negb (String.eqb (ra r) "none")
                   && negb (String.eqb (dispname r) "Flat")) fitstbl, [])
  else if String.eqb ftype "bias" then
    (map (fun r => good_exp r && String.eqb (idname r) "BIAS") fitstbl, [])
  else if one_of ftype ["trace"; "illumflat"] then
    (map (fun r => good_exp r && String.eqb (idname r) "FLAT"
                   && negb (String.eqb (decker r) "Imaging")
                   && negb (String.eqb (dispname r) "Flat")) fitstbl, [])
  else if one_of ftype ["slitless_pixflat"] then
    (map (fun r => good_exp r && String.eqb (idname r) "FLAT"
                   && String.eqb (decker r) "Imaging"
                   && negb (String.eqb (dispname r) "Flat")) fitstbl, [])
  else if one_of ftype ["pinhole"; "dark"] then
    (repeat false (length fitstbl), [])
  else if one_of ftype ["arc"; "tilt"] then
    (map (fun r => good_exp r && String.eqb (idname r) "COMP"
                   && negb (String.eqb (dispname r) "Flat")) fitstbl, [])
  else (repeat false (length fitstbl), [unknown_type_warning]).

End CheckFrameType.

(** The frame types that [check_frame_type] tells apart by the columns of a
    row. *)
Definition typed_frames : list String.string :=
  ["science"; "standard"; "bias"; "trace"; "slitless_pixflat"; "arc"].

Local Close Scope string_scope.

(** ** [compute_weights_frompix] (lines 863-974): the white-light grid *)

Section WhitelightGrid.

Variable cosd : Q -> Q.


End WhitelightGrid.

(** ** [LBTMODSSpectrograph.get_rawimage] ([lbt_modsproc.py], lines 197-292) *)






(** * Properties *)

(** ** Arithmetic of the primitives *)

Lemma Qltb_lt (a b : Q) : Np.Qltb a b = true <-> a < b.
Proof.
  unfold Np.Qltb. rewrite negb_true_iff. split; intro H.
  - apply Qnot_le_lt. intro L. apply Qle_bool_iff in L. congruence.
  - destruct (Qle_bool b a) eqn:E; trivial.
    apply Qle_bool_iff in E. exfalso. exact (Qlt_not_le _ _ H E).
Qed.

Lemma Qltb_ge (a b : Q) : Np.Qltb a b = false <-> b <= a.
Proof.
  unfold Np.Qltb. rewrite negb_false_iff. apply Qle_bool_iff.
Qed.

Lemma Qeq_bool_false (a b : Q) : Qeq_bool a b = false <-> ~ a == b.
Proof.
  split; intro H.
  - intro E. apply Qeq_bool_iff in E. congruence.
  - destruct (Qeq_bool a b) eqn:E; trivial. apply Qeq_bool_iff in E. contradiction.
Qed.

Lemma divide_some (a b : Q) : ~ b == 0 -> Np.divide a b = Some (a / b).
Proof.
  intro H. unfold Np.divide. apply Qeq_bool_false in H. now rewrite H.
Qed.

Lemma divide_some_inv (a b q : Q) : Np.divide a b = Some q -> ~ b == 0 /\ q = a / b.
Proof.
  unfold Np.divide. destruct (Qeq_bool b 0) eqn:E; [discriminate|].
  intro H. inversion H. split; trivial. now apply Qeq_bool_false.
Qed.

Lemma Qfloor_unique (q : Q) (z : Z) :
  inject_Z z <= q -> q < inject_Z (z + 1) -> Qfloor q = z.
Proof.
  intros Hlo Hhi.
  pose proof (Qfloor_le q) as F1. pose proof (Qlt_floor q) as F2.
  assert (A : (Qfloor q < z + 1)%Z).
  { rewrite Zlt_Qlt. eapply Qle_lt_trans; eassumption. }
  assert (B : (z < Qfloor q + 1)%Z).
  { rewrite Zlt_Qlt. eapply Qle_lt_trans; eassumption. }
  lia.
Qed.

Lemma int_nonneg (q : Q) : 0 <= q -> Np.int q = Qfloor q.
Proof.
  intro H. unfold Np.int. apply Qle_bool_iff in H. now rewrite H.
Qed.


(** ** Reductions and index selection *)

Lemma max_some (l : list Q) : l <> [] -> exists m, Np.max l = Some m.
Proof.
  destruct l as [|x t]; [congruence|]. intros _. simpl.
  destruct (Np.max t); eauto.
Qed.

Lemma min_some (l : list Q) : l <> [] -> exists m, Np.min l = Some m.
Proof.
  destruct l as [|x t]; [congruence|]. intros _. simpl.
  destruct (Np.min t); eauto.
Qed.

Lemma max_upper (l : list Q) (m : Q) :
  Np.max l = Some m -> In m l /\ forall x, In x l -> x <= m.
Proof.
  revert m. induction l as [|a t IH]; simpl; intros m H; [discriminate|].
  destruct (Np.max t) as [m'|] eqn:E.
  - inversion H; subst m. destruct (IH m' eq_refl) as [Hin Hub]. split.
    + unfold Qmax, GenericMinMax.gmax. destruct (a ?= m'); auto.
    + intros x [<-|Hx]; [apply Q.le_max_l|].
      eapply Qle_trans; [apply Hub, Hx|apply Q.le_max_r].
  - inversion H; subst m. destruct t; [|simpl in E; destruct (Np.max t); discriminate].
    split; [auto|]. intros x [<-|[]]. apply Qle_refl.
Qed.

Lemma min_lower (l : list Q) (m : Q) :
  Np.min l = Some m -> In m l /\ forall x, In x l -> m <= x.
Proof.
  revert m. induction l as [|a t IH]; simpl; intros m H; [discriminate|].
  destruct (Np.min t) as [m'|] eqn:E.
  - inversion H; subst m. destruct (IH m' eq_refl) as [Hin Hlb]. split.
    + unfold Qmin, GenericMinMax.gmin. destruct (a ?= m'); auto.
    + intros x [<-|Hx]; [apply Q.le_min_l|].
      eapply Qle_trans; [apply Q.le_min_r|apply Hlb, Hx].
  - inversion H; subst m. destruct t; [|simpl in E; destruct (Np.min t); discriminate].
    split; [auto|]. intros x [<-|[]]. apply Qle_refl.
Qed.

Lemma where_from {A} (p : A -> bool) (l : list A) (s i : nat) :
  In i (map fst (filter (fun ix => p (snd ix)) (combine (seq s (length l)) l))) <->
  exists x, (s <= i)%nat /\ nth_error l (i - s) = Some x /\ p x = true.
Proof.
  revert s. induction l as [|a t IH]; intro s; simpl.
  - split; [tauto|]. intros (x & _ & H & _). destruct (i - s)%nat; discriminate.
  - destruct (p a) eqn:Pa; simpl; rewrite IH; split.
    + intros [<-|(x & Hs & Hn & Hp)].
      * exists a. rewrite Nat.sub_diag. auto.
      * exists x. split; [lia|]. split; trivial.
        replace (i - s)%nat with (S (i - S s)) by lia. exact Hn.
    + intros (x & Hs & Hn & Hp).
      destruct (Nat.eq_dec s i) as [->|Ne]; [now left|right].
      exists x. split; [lia|]. split; trivial.
      replace (i - s)%nat with (S (i - S s)) in Hn by lia. exact Hn.
    + intros (x & Hs & Hn & Hp). exists x. split; [lia|]. split; trivial.
      replace (i - s)%nat with (S (i - S s)) by lia. exact Hn.
    + intros (x & Hs & Hn & Hp).
      destruct (Nat.eq_dec s i) as [->|Ne].
      * rewrite Nat.sub_diag in Hn. simpl in Hn. inversion Hn; subst. congruence.
      * exists x. split; [lia|]. split; trivial.
        replace (i - s)%nat with (S (i - S s)) in Hn by lia. exact Hn.
Qed.

Lemma where_spec {A} (p : A -> bool) (l : list A) (i : nat) :
  In i (Np.where_ p l) <-> exists x, nth_error l i = Some x /\ p x = true.
Proof.
  unfold Np.where_. rewrite where_from. rewrite Nat.sub_0_r. split.
  - intros (x & _ & H). eauto.
  - intros (x & H). exists x. split; [lia|exact H].
Qed.

(** ** [get_whitelight_pixels] *)

(** C8, as amended: for every non-empty wavelength array,
    [get_whitelight_pixels] returns without error; when [min_wl < max_wl] it
    returns exactly the indices of the pixels with [min_wl < wavelength <
    max_wl] and [wavediff = max_wl - min_wl], with no warning; otherwise it
    emits the overlap warning and returns all the indices and
    [wavediff = max(all_wave) - min(all_wave)]. *)
Theorem get_whitelight_pixels_fallback (all_wave : list Q) (min_wl max_wl : Q) :
  all_wave <> [] ->
  exists lo hi,
    Np.min all_wave = Some lo /\ Np.max all_wave = Some hi /\
    (forall w, In w all_wave -> lo <= w /\ w <= hi) /\
    (min_wl < max_wl ->
       exists ww,
         get_whitelight_pixels all_wave min_wl max_wl = Some (ww, max_wl - min_wl, []) /\
         forall i, In i ww <->
                   exists w, nth_error all_wave i = Some w /\ min_wl < w /\ w < max_wl) /\
    (max_wl <= min_wl ->
       get_whitelight_pixels all_wave min_wl max_wl =
       Some (seq 0 (length all_wave), hi - lo, [overlap_warning])).
Proof.
  intro Hne.
  destruct (min_some all_wave Hne) as [lo Hlo].
  destruct (max_some all_wave Hne) as [hi Hhi].
  exists lo, hi. repeat split; trivial.
  - now apply (proj2 (min_lower _ _ Hlo)).
  - now apply (proj2 (max_upper _ _ Hhi)).
  - intro Hlt. unfold get_whitelight_pixels. rewrite Hhi, Hlo.
    apply Qltb_lt in Hlt. rewrite Hlt. eexists. split; [reflexivity|].
    intro i. rewrite where_spec. split.
    + intros (w & Hn & Hp). apply andb_true_iff in Hp. destruct Hp as [P1 P2].
      exists w. rewrite <- !Qltb_lt. auto.
    + intros (w & Hn & P1 & P2). exists w. split; trivial.
      apply andb_true_iff. rewrite !Qltb_lt. auto.
  - intro Hge. unfold get_whitelight_pixels. rewrite Hhi, Hlo.
    apply Qltb_ge in Hge. rewrite Hge. reflexivity.
Qed.

Lemma get_whitelight_pixels_fallback_witness :
  get_whitelight_pixels [4000; 5200; 4600; 7000] 6000 4500 =
  Some ([0; 1; 2; 3]%nat, 7000 - 4000, [overlap_warning]).
Proof.
  destruct (get_whitelight_pixels_fallback [4000; 5200; 4600; 7000] 6000 4500)
    as (lo & hi & Hlo & Hhi & _ & _ & H).
  - discriminate.
  - vm_compute in Hlo, Hhi. inversion Hlo. inversion Hhi. subst lo hi.
    apply H. vm_compute. discriminate.
Defined.

(** C8, the claim as stated fails on an empty wavelength array: line 447
    reduces [all_wave] with [np.max] and [np.min] before either branch is
    taken, which raises for a zero-size array whatever the bounds are. *)
Lemma get_whitelight_pixels_empty_raises :
  get_whitelight_pixels [] 4000 5000 = None /\
  get_whitelight_pixels [] 5000 4000 = None.
Proof. split; reflexivity. Qed.

(** ** [create_wcs] *)

Lemma bin_edges_length (num : Z) : length (bin_edges num) = Z.to_nat (1 + num).
Proof.
  unfold bin_edges, Np.arange. now rewrite !length_map, length_seq.
Qed.


Lemma quotient_nonneg (a b : Q) : 0 <= a -> 0 < b -> 0 <= a / b.
Proof.
  intros Ha Hb. unfold Qdiv. apply Qmult_le_0_compat; trivial.
  apply Qlt_le_weak, Qinv_lt_0_compat, Hb.
Qed.

Lemma Qfloor_nonneg (q : Q) : 0 <= q -> (0 <= Qfloor q)%Z.
Proof.
  intro H. change 0%Z with (Qfloor 0). now apply Qfloor_resp_le.
Qed.






(** ** The sub-pixel grid *)

Lemma inject_Z_pos (n : Z) : (1 <= n)%Z -> 0 < inject_Z n.
Proof.
  intro H. change 0 with (inject_Z 0). rewrite <- Zlt_Qlt. lia.
Qed.

Lemma inject_Z_nonzero (n : Z) : n <> 0%Z -> ~ inject_Z n == 0.
Proof.
  intros H E. apply H. unfold Qeq in E. simpl in E. lia.
Qed.

Lemma subpixel_count (n : Z) : (1 <= n)%Z ->
  Qceiling ((1 - (1 # 2) / inject_Z n) / (1 / inject_Z n)) = n.
Proof.
  intro H. pose proof (inject_Z_pos n H) as Hp.
  assert (E : (1 - (1 # 2) / inject_Z n) / (1 / inject_Z n) == inject_Z n - (1 # 2)).
  { field. intro Z0. rewrite Z0 in Hp. discriminate. }
  rewrite E. unfold Qceiling.
  rewrite (Qfloor_unique (- (inject_Z n - (1 # 2))) (- n)%Z); [lia| |].
  - rewrite inject_Z_opp. lra.
  - rewrite inject_Z_plus, inject_Z_opp. change (inject_Z 1) with 1. lra.
Qed.

Lemma offset_formula_inside (k : nat) (n : Z) :
  (k < Z.to_nat n)%nat -> - (1 # 2) < offset_formula k n /\ offset_formula k n < 1 # 2.
Proof.
  intro Hk. unfold offset_formula.
  assert (Hn : (1 <= n)%Z) by lia.
  pose proof (inject_Z_pos n Hn) as Hp.
  assert (Hk0 : 0 <= inject_Z (Z.of_nat k)).
  { change 0 with (inject_Z 0). rewrite <- Zle_Qle. lia. }
  assert (Hk1 : inject_Z (Z.of_nat k) + 1 <= inject_Z n).
  { change 1 with (inject_Z 1). rewrite <- inject_Z_plus, <- Zle_Qle. lia. }
  assert (A : 0 < (inject_Z (Z.of_nat k) + (1 # 2)) / inject_Z n).
  { apply Qlt_shift_div_l; trivial. lra. }
  assert (B : (inject_Z (Z.of_nat k) + (1 # 2)) / inject_Z n < 1).
  { apply Qlt_shift_div_r; trivial. lra. }
  split; lra.
Qed.

Lemma nth_map_in {A B} (f : A -> B) (l : list A) (k : nat) (d : B) (d' : A) :
  (k < length l)%nat -> nth k (map f l) d = f (nth k l d').
Proof.
  revert k. induction l as [|a t IH]; simpl; intros k H; [lia|].
  destruct k; trivial. apply IH. lia.
Qed.

Lemma subpixel_offsets_regular (n : Z) : (1 <= n)%Z ->
  exists offs,
    subpixel_offsets n = Some offs /\ length offs = Z.to_nat n /\
    forall k, (k < Z.to_nat n)%nat -> nth k offs 0 == offset_formula k n.
Proof.
  intro H. pose proof (inject_Z_pos n H) as Hp.
  assert (Hz : ~ inject_Z n == 0) by (intro Z0; rewrite Z0 in Hp; discriminate).
  unfold subpixel_offsets. rewrite !(divide_some _ _ Hz).
  eexists. split; [reflexivity|]. unfold Np.arange3.
  rewrite subpixel_count by assumption. split.
  - now rewrite !length_map, length_seq.
  - intros k Hk.
    rewrite (nth_map_in _ _ _ _ 0) by now rewrite length_map, length_seq.
    rewrite (nth_map_in _ _ _ _ 0%nat) by now rewrite length_seq.
    rewrite seq_nth by assumption. simpl Nat.add.
    unfold offset_formula. field. exact Hz.
Qed.

Lemma meshgrid_length (spat spec : list Q) :
  length (meshgrid spat spec) = (length spec * length spat)%nat.
Proof.
  unfold meshgrid. induction spec as [|s t IH]; simpl; trivial.
  now rewrite length_app, length_map, IH.
Qed.

Lemma meshgrid_nth (spat spec : list Q) (i j : nat) :
  (i < length spec)%nat -> (j < length spat)%nat ->
  nth (i * length spat + j) (meshgrid spat spec) (0, 0) = (nth j spat 0, nth i spec 0).
Proof.
  unfold meshgrid. revert i. induction spec as [|s t IH]; simpl; intros i Hi Hj; [lia|].
  destruct i as [|i]; simpl.
  - rewrite app_nth1 by now rewrite length_map.
    now rewrite (nth_map_in _ _ _ _ 0).
  - rewrite app_nth2 by (rewrite length_map; lia).
    rewrite length_map.
    replace (length spat + i * length spat + j - length spat)%nat
      with (i * length spat + j)%nat by lia.
    apply IH; [lia|assumption].
Qed.

(** C6: for sub-pixel factors [n >= 1] and [m >= 1] the spectral offsets are
    [(k + 0.5)/n - 0.5] for [k = 0..n-1] and the spatial ones
    [(k + 0.5)/m - 0.5] for [k = 0..m-1], all strictly between -0.5 and +0.5;
    the grid handed to the transformations holds the [n * m] pairs of them,
    one row per spectral offset; and for a factor of one the single offset
    is zero. *)
Theorem subpixel_grid_regular (n m : Z) :
  (1 <= n)%Z -> (1 <= m)%Z ->
  exists spec_offs spat_offs grid,
    subpixel_offsets n = Some spec_offs /\
    subpixel_offsets m = Some spat_offs /\
    subgrid n m = Some grid /\
    length spec_offs = Z.to_nat n /\ length spat_offs = Z.to_nat m /\
    length grid = Z.to_nat (n * m) /\
    (forall k, (k < Z.to_nat n)%nat ->
       nth k spec_offs 0 == (inject_Z (Z.of_nat k) + (1 # 2)) / inject_Z n - (1 # 2) /\
       - (1 # 2) < nth k spec_offs 0 /\ nth k spec_offs 0 < 1 # 2) /\
    (forall k, (k < Z.to_nat m)%nat ->
       nth k spat_offs 0 == (inject_Z (Z.of_nat k) + (1 # 2)) / inject_Z m - (1 # 2) /\
       - (1 # 2) < nth k spat_offs 0 /\ nth k spat_offs 0 < 1 # 2) /\
    (forall i j, (i < Z.to_nat n)%nat -> (j < Z.to_nat m)%nat ->
       nth (i * Z.to_nat m + j) grid (0, 0) = (nth j spat_offs 0, nth i spec_offs 0)) /\
    (n = 1%Z -> spec_offs =~ [0]) /\ (m = 1%Z -> spat_offs =~ [0]).
Proof.
  intros Hn Hm.
  destruct (subpixel_offsets_regular n Hn) as (spec_offs & Es & Ls & Fs).
  destruct (subpixel_offsets_regular m Hm) as (spat_offs & Et & Lt & Ft).
  exists spec_offs, spat_offs, (meshgrid spat_offs spec_offs).
  assert (One : forall d offs, d = 1%Z -> length offs = Z.to_nat d ->
                (forall k, (k < Z.to_nat d)%nat -> nth k offs 0 == offset_formula k d) ->
                offs =~ [0]).
  { intros d offs -> L F. destruct offs as [|o [|o' t]]; try discriminate.
    constructor; [|constructor]. rewrite (F 0%nat) by (simpl; lia). reflexivity. }
  repeat match goal with |- _ /\ _ => split end; trivial.
  - unfold subgrid. now rewrite Es, Et.
  - rewrite meshgrid_length, Ls, Lt. lia.
  - intros k H. rewrite (Fs k H). split; [reflexivity|].
    apply offset_formula_inside, H.
  - intros k H. rewrite (Ft k H). split; [reflexivity|].
    apply offset_formula_inside, H.
  - intros i j Hi Hj. rewrite <- Lt. apply meshgrid_nth; [rewrite Ls|rewrite Lt]; assumption.
  - intro E. eapply One; eauto.
  - intro E. eapply One; eauto.
Qed.

Lemma subpixel_grid_regular_witness :
  option_map (@length (Q * Q)) (subgrid 5 5) = Some 25%nat.
Proof.
  destruct (subpixel_grid_regular 5 5 ltac:(lia) ltac:(lia))
    as (spec_offs & spat_offs & grid & _ & _ & Eg & _ & _ & Lg & _).
  rewrite Eg. simpl. apply f_equal. exact Lg.
Defined.

(** ** [make_whitelight_fromcube] *)

Lemma mapM_map {A B} (f : A -> option B) (g : A -> B) (l : list A) :
  (forall a, In a l -> f a = Some (g a)) -> mapM f l = Some (map g l).
Proof.
  induction l as [|a t IH]; simpl; intro H; trivial.
  rewrite (H a) by auto. rewrite IH by auto. reflexivity.
Qed.

Lemma collapse_spaxel_value (s : list Q) :
  collapse_spaxel s =
  Some (Np.sum s / inject_Z (Z.of_nat (if (count_nonzero s =? 0)%nat
                                        then 1%nat else count_nonzero s))).
Proof.
  unfold collapse_spaxel. apply divide_some.
  destruct (count_nonzero s =? 0)%nat eqn:E.
  - discriminate.
  - apply Nat.eqb_neq in E. apply inject_Z_nonzero. lia.
Qed.

Lemma sum_all_equal (s : list Q) (v : Q) :
  Forall (fun x => x == v) s -> Np.sum s == inject_Z (Z.of_nat (length s)) * v.
Proof.
  induction 1 as [|x t Hx _ IH].
  - simpl. ring.
  - cbn [Np.sum length]. rewrite IH, Hx, Nat2Z.inj_succ.
    unfold Z.succ. rewrite inject_Z_plus. change (inject_Z 1) with 1. ring.
Qed.

Lemma count_nonzero_all_zero (s : list Q) :
  Forall (fun x => x == 0) s -> count_nonzero s = 0%nat.
Proof.
  unfold count_nonzero. induction 1 as [|x t Hx _ IH]; simpl; trivial.
  apply Qeq_bool_iff in Hx. rewrite Hx. exact IH.
Qed.

Lemma count_nonzero_all_equal (s : list Q) (v : Q) :
  ~ v == 0 -> Forall (fun x => x == v) s -> count_nonzero s = length s.
Proof.
  intros Hv. unfold count_nonzero. induction 1 as [|x t Hx _ IH]; simpl; trivial.
  assert (E : Qeq_bool x 0 = false).
  { apply Qeq_bool_false. intro Z0. apply Hv. rewrite <- Hx. exact Z0. }
  rewrite E. simpl. now rewrite IH.
Qed.

Lemma slice_length {A} (lo hi : nat) (a : list A) :
  (lo <= hi)%nat -> (hi <= length a)%nat -> length (slice lo hi a) = (hi - lo)%nat.
Proof.
  intros H1 H2. unfold slice. rewrite length_firstn, length_skipn. lia.
Qed.

Lemma slice_Forall {A} (P : A -> Prop) (lo hi : nat) (a : list A) :
  Forall P a -> Forall P (slice lo hi a).
Proof.
  intro H. unfold slice. rewrite <- (firstn_skipn lo a) in H.
  apply Forall_app in H. destruct H as [_ H].
  rewrite <- (firstn_skipn (hi - lo) (skipn lo a)) in H.
  apply Forall_app in H. tauto.
Qed.

Lemma spaxel_offset_bound (a b c i j : nat) :
  (i < a)%nat -> (j < b)%nat -> ((i * b + j) * c + c <= a * b * c)%nat.
Proof.
  intros Hi Hj.
  assert (H : (i * b + j + 1 <= a * b)%nat) by nia.
  nia.
Qed.

Lemma whitelight_entries (c : cube) (wave : option (list Q))
    (wavemin wavemax : option Q) (cut : option (nat * nat)) :
  wavelength_cut c wave wavemin wavemax = Some cut ->
  exists img,
    make_whitelight_fromcube c wave wavemin wavemax = Some img /\
    length img = nx c /\
    forall i j, (i < nx c)%nat -> (j < ny c)%nat ->
      length (nth i img []) = ny c /\
      collapse_spaxel (cut_spectrum c cut i j) = Some (nth j (nth i img []) 0).
Proof.
  intro Hcut. unfold make_whitelight_fromcube. rewrite Hcut.
  set (val := fun s : list Q =>
         Np.sum s / inject_Z (Z.of_nat (if (count_nonzero s =? 0)%nat
                                        then 1%nat else count_nonzero s))).
  exists (map (fun i => map (fun j => val (cut_spectrum c cut i j)) (seq 0 (ny c)))
              (seq 0 (nx c))).
  split; [|split].
  - apply mapM_map. intros i _. apply mapM_map. intros j _.
    apply collapse_spaxel_value.
  - now rewrite length_map, length_seq.
  - intros i j Hi Hj.
    rewrite (nth_map_in _ _ _ _ 0%nat) by now rewrite length_seq.
    rewrite seq_nth by assumption. simpl Nat.add. split.
    + now rewrite length_map, length_seq.
    + rewrite (nth_map_in _ _ _ _ 0%nat) by now rewrite length_seq.
      rewrite seq_nth by assumption. simpl Nat.add.
      apply collapse_spaxel_value.
Qed.

(** C9: with no wavelength cut, [make_whitelight_fromcube] returns an
    [nx] by [ny] image; a spaxel with at least one non-zero wavelength entry
    gets the sum of its values along the wavelength axis divided by the count
    of its non-zero entries; and if every voxel of a cube with at least one
    wavelength slice equals one non-zero constant, every entry of the image
    equals that constant. *)
Theorem whitelight_collapse (c : cube) :
  exists img,
    make_whitelight_fromcube c None None None = Some img /\
    length img = nx c /\
    (forall i j, (i < nx c)%nat -> (j < ny c)%nat ->
       length (nth i img []) = ny c /\
       (count_nonzero (spectrum c i j) <> 0%nat ->
        nth j (nth i img []) 0 ==
        Np.sum (spectrum c i j) / inject_Z (Z.of_nat (count_nonzero (spectrum c i j))))) /\
    (forall cval, ~ cval == 0 -> (1 <= nz c)%nat ->
       length (voxels c) = (nx c * ny c * nz c)%nat ->
       Forall (fun v => v == cval) (voxels c) ->
       forall i j, (i < nx c)%nat -> (j < ny c)%nat -> nth j (nth i img []) 0 == cval).
Proof.
  destruct (whitelight_entries c None None None None eq_refl) as (img & Himg & Hlen & Hent).
  exists img. split; [exact Himg|]. split; [exact Hlen|]. split.
  - intros i j Hi Hj. destruct (Hent i j Hi Hj) as [Hrow Hval]. split; [exact Hrow|].
    intro Hcnt. simpl in Hval. rewrite collapse_spaxel_value in Hval.
    apply Nat.eqb_neq in Hcnt. rewrite Hcnt in Hval.
    inversion Hval as [E]. reflexivity.
  - intros cval Hc Hz Hshape Hall i j Hi Hj.
    destruct (Hent i j Hi Hj) as [_ Hval]. simpl in Hval.
    rewrite collapse_spaxel_value in Hval. inversion Hval as [E]. clear Hval E.
    assert (Hs : Forall (fun v => v == cval) (spectrum c i j))
      by (apply slice_Forall, Hall).
    assert (Hl : length (spectrum c i j) = nz c).
    { unfold spectrum. rewrite slice_length; [lia|lia|].
      rewrite Hshape. now apply spaxel_offset_bound. }
    rewrite (count_nonzero_all_equal _ cval Hc Hs), Hl.
    destruct (nz c =? 0)%nat eqn:E0; [apply Nat.eqb_eq in E0; lia|].
    rewrite (sum_all_equal _ cval Hs), Hl.
    field. apply inject_Z_nonzero. lia.
Qed.

(** C10: whenever the optional wavelength cut itself succeeds,
    [make_whitelight_fromcube] returns a finite [nx] by [ny] image (no
    division fails), and a spaxel whose values along the cut wavelength axis
    are all exactly zero gets exactly zero. *)
Theorem whitelight_empty_spaxel (c : cube) (wave : option (list Q))
    (wavemin wavemax : option Q) (cut : option (nat * nat)) :
  wavelength_cut c wave wavemin wavemax = Some cut ->
  exists img,
    make_whitelight_fromcube c wave wavemin wavemax = Some img /\
    length img = nx c /\
    forall i j, (i < nx c)%nat -> (j < ny c)%nat ->
      length (nth i img []) = ny c /\
      (Forall (fun v => v == 0) (cut_spectrum c cut i j) -> nth j (nth i img []) 0 == 0).
Proof.
  intro Hcut.
  destruct (whitelight_entries c wave wavemin wavemax cut Hcut) as (img & Himg & Hlen & Hent).
  exists img. split; [exact Himg|]. split; [exact Hlen|].
  intros i j Hi Hj. destruct (Hent i j Hi Hj) as [Hrow Hval]. split; [exact Hrow|].
  intro Hzero. rewrite collapse_spaxel_value in Hval.
  rewrite (count_nonzero_all_zero _ Hzero) in Hval. simpl in Hval.
  inversion Hval as [E]. rewrite (sum_all_equal _ 0 Hzero). field.
Qed.

Lemma whitelight_empty_spaxel_witness :
  exists img,
    make_whitelight_fromcube
      {| nx := 2; ny := 1; nz := 3; voxels := [0; 0; 7; 5; 0; 0] |}
      (Some [4000; 5000; 6000]) None (Some 5500) = Some img /\
    nth 0 (nth 0 img []) 0 == 0.
Proof.
  destruct (whitelight_empty_spaxel
              {| nx := 2; ny := 1; nz := 3; voxels := [0; 0; 7; 5; 0; 0] |}
              (Some [4000; 5000; 6000]) None (Some 5500) (Some (0, 2)%nat) eq_refl)
    as (img & Himg & _ & Hent).
  exists img. split; [exact Himg|].
  apply (Hent 0%nat 0%nat); simpl; try lia.
  repeat constructor.
Defined.

(** ** Arrays up to point-wise equality *)


Lemma arr_eq_sym (a b : list Q) : a =~ b -> b =~ a.
Proof. induction 1; constructor; [symmetry|]; assumption. Qed.


Lemma arr_eq_length (a b : list Q) : a =~ b -> length a = length b.
Proof. apply Forall2_length. Qed.

Lemma arr_eq_nth (a b : list Q) (i : nat) : a =~ b -> nth i a 0 == nth i b 0.
Proof.
  intro H. revert i. induction H; intro i; destruct i; simpl; try reflexivity; auto.
Qed.

Lemma sum_arr_eq (a b : list Q) : a =~ b -> Np.sum a == Np.sum b.
Proof.
  induction 1 as [|x y s t Hxy _ IH]; simpl; [reflexivity|]. now rewrite Hxy, IH.
Qed.

Lemma sum_app (a b : list Q) : Np.sum (a ++ b) == Np.sum a + Np.sum b.
Proof.
  induction a as [|x t IH]; simpl; [ring|]. rewrite IH. ring.
Qed.

Lemma sum_repeat (v : Q) (k : nat) : Np.sum (repeat v k) == inject_Z (Z.of_nat k) * v.
Proof.
  rewrite (sum_all_equal (repeat v k) v).
  - now rewrite repeat_length.
  - apply Forall_forall. intros x Hx. apply repeat_spec in Hx. subst. reflexivity.
Qed.

Lemma add_length (a b : list Q) : length (add a b) = Nat.min (length a) (length b).
Proof. unfold add. now rewrite length_map, length_combine. Qed.

Lemma sum_add (a b : list Q) :
  length a = length b -> Np.sum (add a b) == Np.sum a + Np.sum b.
Proof.
  revert b. induction a as [|x t IH]; intros [|y u] H; try discriminate.
  - simpl. ring.
  - injection H as H. cbn. fold (add t u). rewrite (IH u H). ring.
Qed.



Lemma mul_nth (a b : list Q) (i : nat) :
  length a = length b -> nth i (mul a b) 0 == nth i a 0 * nth i b 0.
Proof.
  revert b i. induction a as [|x t IH]; intros [|y u] i H; try discriminate.
  - destruct i; simpl; ring.
  - injection H as H. destruct i; cbn; [reflexivity|]. apply (IH u i H).
Qed.

Lemma mul_length (a b : list Q) : length (mul a b) = Nat.min (length a) (length b).
Proof. unfold mul. now rewrite length_map, length_combine. Qed.


(** ** The histogram *)

Lemma add_at_length (i : nat) (w : Q) (a : list Q) : length (add_at i w a) = length a.
Proof.
  revert i. induction a as [|x t IH]; intros [|i]; simpl; auto.
Qed.

Lemma sum_add_at (i : nat) (w : Q) (a : list Q) :
  (i < length a)%nat -> Np.sum (add_at i w a) == Np.sum a + w.
Proof.
  revert i. induction a as [|x t IH]; intros [|i] H; simpl in *; try lia.
  - ring.
  - rewrite IH by lia. ring.
Qed.

Lemma bin_index_inside (lo hi : Q) (nb : nat) (x : Q) :
  bin_index lo hi nb x <> None <-> (Qle_bool lo x && Np.Qltb x hi = true).
Proof.
  unfold bin_index. destruct (Qle_bool lo x && Np.Qltb x hi); split; congruence.
Qed.

Lemma bin_index_bound (lo hi : Q) (nb : nat) (x : Q) (i : nat) :
  lo < hi -> (0 < nb)%nat -> bin_index lo hi nb x = Some i -> (i < nb)%nat.
Proof.
  intros Hr Hn. unfold bin_index.
  destruct (Qle_bool lo x && Np.Qltb x hi) eqn:E; [|discriminate].
  apply andb_true_iff in E. destruct E as [E1 E2].
  apply Qle_bool_iff in E1. apply Qltb_lt in E2.
  intro H. inversion H as [Hi]. clear H Hi.
  set (N := inject_Z (Z.of_nat nb)).
  assert (HN : 0 < N).
  { unfold N. change 0 with (inject_Z 0). rewrite <- Zlt_Qlt. lia. }
  assert (Hd : 0 < hi - lo) by lra.
  assert (F0 : 0 <= (x - lo) * (1 / (hi - lo))).
  { apply Qmult_le_0_compat; [lra|]. apply quotient_nonneg; [lra|exact Hd]. }
  assert (F1 : (x - lo) * (1 / (hi - lo)) < 1).
  { setoid_replace ((x - lo) * (1 / (hi - lo))) with ((x - lo) / (hi - lo))
      by (unfold Qdiv; ring).
    apply Qlt_shift_div_r; [exact Hd|lra]. }
  set (t := (x - lo) * (1 / (hi - lo))) in *.
  assert (T0 : 0 <= t * N) by (apply Qmult_le_0_compat; [exact F0|lra]).
  assert (T1 : t * N < N).
  { setoid_replace N with (1 * N) at 2 by ring.
    apply Qmult_lt_compat_r; assumption. }
  rewrite int_nonneg by exact T0.
  pose proof (Qfloor_le (t * N)) as FL.
  assert (Z0 : (0 <= Qfloor (t * N))%Z).
  { change 0%Z with (Qfloor 0). apply Qfloor_resp_le, T0. }
  assert (Z1 : (Qfloor (t * N) < Z.of_nat nb)%Z).
  { rewrite Zlt_Qlt. fold N. eapply Qle_lt_trans; eassumption. }
  lia.
Qed.

Lemma voxel_index_inside (bins : nat * nat * nat)
    (rng : axis_range * axis_range * axis_range) (p : Q * Q * Q) :
  in_bin_range rng p = true <-> exists i, voxel_index bins rng p = Some i.
Proof.
  destruct bins as [[bx by_] bz], rng as [[rx ry] rz], p as [[x y] z].
  unfold in_bin_range, voxel_index, bin_index.
  destruct (Qle_bool (fst rx) x && Np.Qltb x (snd rx));
    destruct (Qle_bool (fst ry) y && Np.Qltb y (snd ry));
    destruct (Qle_bool (fst rz) z && Np.Qltb z (snd rz)); simpl;
    split; try discriminate; eauto; intros [i H]; discriminate.
Qed.

Lemma voxel_index_bound (bins : nat * nat * nat)
    (rng : axis_range * axis_range * axis_range) (p : Q * Q * Q) (i : nat) :
  bins_ok bins rng -> voxel_index bins rng p = Some i -> (i < size3 bins)%nat.
Proof.
  destruct bins as [[bx by_] bz], rng as [[rx ry] rz], p as [[x y] z].
  intros (Bx & By & Bz & Rx & Ry & Rz). unfold voxel_index.
  destruct (bin_index (fst rx) (snd rx) bx x) as [ix|] eqn:Ex; [|discriminate].
  destruct (bin_index (fst ry) (snd ry) by_ y) as [iy|] eqn:Ey; [|discriminate].
  destruct (bin_index (fst rz) (snd rz) bz z) as [iz|] eqn:Ez; [|discriminate].
  intro H. inversion H. subst i. clear H.
  apply bin_index_bound in Ex; trivial.
  apply bin_index_bound in Ey; trivial.
  apply bin_index_bound in Ez; trivial.
  unfold size3.
  pose proof (spaxel_offset_bound bx by_ bz ix iy Ex Ey). lia.
Qed.

Lemma histogram_fold (bins : nat * nat * nat)
    (rng : axis_range * axis_range * axis_range) (l : list (Q * Q * Q * Q)) (h : list Q) :
  bins_ok bins rng -> length h = size3 bins ->
  length (fold_left (histogram_step bins rng) l h) = size3 bins /\
  Np.sum (fold_left (histogram_step bins rng) l h) ==
  Np.sum h + Np.sum (map snd (filter (fun sw => in_bin_range rng (fst sw)) l)).
Proof.
  intro Hok. revert h. induction l as [|sw t IH]; intros h Hh; simpl.
  - split; [exact Hh|ring].
  - unfold histogram_step at 2 4.
    destruct (voxel_index bins rng (fst sw)) as [i|] eqn:E.
    + assert (Hin : in_bin_range rng (fst sw) = true)
        by (apply (voxel_index_inside bins); eauto).
      rewrite Hin. simpl.
      destruct (IH (add_at i (snd sw) h)) as [L S];
        [now rewrite add_at_length|].
      split; [exact L|]. rewrite S, sum_add_at; [ring|].
      rewrite Hh. eapply voxel_index_bound; eassumption.
    + assert (Hout : in_bin_range rng (fst sw) = false).
      { destruct (in_bin_range rng (fst sw)) eqn:F; trivial.
        apply (voxel_index_inside bins) in F. destruct F as [i F]. congruence. }
      rewrite Hout. apply IH, Hh.
Qed.

Lemma histogramdd_inv (coord : list (Q * Q * Q)) (bins : nat * nat * nat)
    (rng : axis_range * axis_range * axis_range) (wts h : list Q) :
  histogramdd coord bins rng wts = Some h ->
  bins_ok bins rng /\ length coord = length wts /\
  h = fold_left (histogram_step bins rng) (combine coord wts) (repeat 0 (size3 bins)).
Proof.
  unfold histogramdd, bins_ok.
  destruct bins as [[bx by_] bz], rng as [[rx ry] rz].
  destruct ((bx =? 0)%nat || (by_ =? 0)%nat || (bz =? 0)%nat) eqn:E1; [discriminate|].
  destruct (negb (valid_range rx && valid_range ry && valid_range rz)) eqn:E2; [discriminate|].
  destruct (negb (length coord =? length wts)%nat) eqn:E3; [discriminate|].
  intro H. inversion H. clear H.
  apply orb_false_iff in E1. destruct E1 as [E1 Bz].
  apply orb_false_iff in E1. destruct E1 as [Bx By].
  apply Nat.eqb_neq in Bx, By, Bz.
  apply negb_false_iff in E2. apply andb_true_iff in E2. destruct E2 as [E2 Rz].
  apply andb_true_iff in E2. destruct E2 as [Rx Ry].
  unfold valid_range in Rx, Ry, Rz. apply Qltb_lt in Rx, Ry, Rz.
  apply negb_false_iff, Nat.eqb_eq in E3.
  repeat split; trivial; lia.
Qed.

Lemma histogramdd_sum (coord : list (Q * Q * Q)) (bins : nat * nat * nat)
    (rng : axis_range * axis_range * axis_range) (wts h : list Q) :
  histogramdd coord bins rng wts = Some h ->
  length h = size3 bins /\ length coord = length wts /\
  Np.sum h == inbounds_weight rng coord wts.
Proof.
  intro H. apply histogramdd_inv in H. destruct H as (Hok & Hlen & ->).
  destruct (histogram_fold bins rng (combine coord wts) (repeat 0 (size3 bins)) Hok)
    as [L S]; [apply repeat_length|].
  repeat split; trivial. rewrite S, sum_repeat. unfold inbounds_weight. ring.
Qed.

Lemma inbounds_weight_proper (rng : axis_range * axis_range * axis_range)
    (coord : list (Q * Q * Q)) (w w' : list Q) :
  w =~ w' -> inbounds_weight rng coord w == inbounds_weight rng coord w'.
Proof.
  unfold inbounds_weight. intro H. revert coord.
  induction H as [|x y s t Hxy _ IH]; intros [|p coord]; simpl; try reflexivity.
  destruct (in_bin_range rng p); simpl; [rewrite Hxy|]; rewrite IH; reflexivity.
Qed.

Lemma inbounds_weight_all (rng : axis_range * axis_range * axis_range)
    (coord : list (Q * Q * Q)) (w : list Q) :
  length coord = length w -> (forall p, In p coord -> in_bin_range rng p = true) ->
  inbounds_weight rng coord w == Np.sum w.
Proof.
  unfold inbounds_weight. revert w.
  induction coord as [|p coord IH]; intros [|x w] L H; try discriminate; simpl.
  - reflexivity.
  - rewrite (H p) by (simpl; auto). simpl. rewrite IH; [reflexivity|simpl in L; lia|].
    intros q Hq. apply H. simpl. auto.
Qed.

(** ** The weights of one slit *)

Lemma take_map {A B} (f : A -> B) (a : list A) (idx : list nat) (r : list B) (d : A) :
  Np.take (map f a) idx = Some r ->
  r = map (fun i => f (nth i a d)) idx /\ Forall (fun i => (i < length a)%nat) idx.
Proof.
  revert r. induction idx as [|i t IH]; simpl; intros r H.
  - inversion H. split; [reflexivity|constructor].
  - destruct (nth_error (map f a) i) as [x|] eqn:E; [|discriminate].
    destruct (Np.take (map f a) t) as [r'|]; [|discriminate].
    inversion H. subst r. destruct (IH r' eq_refl) as [-> F].
    assert (Hi : (i < length a)%nat).
    { rewrite <- (length_map f). apply nth_error_Some. congruence. }
    split; [|constructor; assumption].
    f_equal. rewrite nth_error_map in E.
    rewrite (nth_error_nth' a d Hi) in E. simpl in E. congruence.
Qed.

Lemma take_id {A} (a : list A) (idx : list nat) (r : list A) (d : A) :
  Np.take a idx = Some r ->
  r = map (fun i => nth i a d) idx /\ Forall (fun i => (i < length a)%nat) idx.
Proof.
  intro H. rewrite <- (map_id a) in H. apply (take_map (fun x => x) a idx r d) in H.
  exact H.
Qed.

Lemma take_total {A} (a : list A) (idx : list nat) (d : A) :
  Forall (fun i => (i < length a)%nat) idx ->
  Np.take a idx = Some (map (fun i => nth i a d) idx).
Proof.
  induction 1 as [|i t Hi _ IH]; simpl; trivial.
  rewrite (nth_error_nth' a d Hi), IH. reflexivity.
Qed.

Lemma np_repeat_length (a : list Q) (k : nat) : length (np_repeat a k) = (length a * k)%nat.
Proof.
  unfold np_repeat. induction a as [|x t IH]; simpl; trivial.
  now rewrite length_app, repeat_length, IH.
Qed.


Lemma np_repeat_proper (a b : list Q) (k : nat) : a =~ b -> np_repeat a k =~ np_repeat b k.
Proof.
  unfold np_repeat. induction 1 as [|x y s t Hxy _ IH]; simpl; [constructor|].
  apply Forall2_app; [|exact IH].
  clear IH. induction k; simpl; constructor; assumption.
Qed.

Lemma sum_np_repeat (a : list Q) (k : nat) :
  Np.sum (np_repeat a k) == inject_Z (Z.of_nat k) * Np.sum a.
Proof.
  unfold np_repeat. induction a as [|x t IH]; simpl; [ring|].
  rewrite sum_app, sum_repeat, IH. ring.
Qed.

Lemma area_value (n m : Z) (a : Q) :
  area n m = Some a -> (n * m <> 0)%Z /\ a = 1 / inject_Z (n * m).
Proof.
  unfold area, num_subpixels. intro H. apply divide_some_inv in H.
  destruct H as [H ->]. split; trivial. intro E. apply H. now rewrite E.
Qed.

Lemma slit_weights_inv (sci var wsub : list Q) (this_sl : list nat) (num : Z)
    (wf wv wn : list Q) :
  slit_weights sci var wsub this_sl num = Some (wf, wv, wn) ->
  exists s v w,
    Np.take sci this_sl = Some s /\ Np.take var this_sl = Some v /\
    Np.take wsub this_sl = Some w /\ (0 <= num)%Z /\
    wf = np_repeat (mul s w) (Z.to_nat num) /\
    wv = np_repeat (mul v (map (fun x => x ^ 2) w)) (Z.to_nat num) /\
    wn = np_repeat w (Z.to_nat num).
Proof.
  unfold slit_weights.
  destruct (Np.take sci this_sl) as [s|]; [|discriminate].
  destruct (Np.take var this_sl) as [v|]; [|discriminate].
  destruct (Np.take wsub this_sl) as [w|]; [|discriminate].
  destruct (num <? 0)%Z eqn:E; [discriminate|].
  intro H. inversion H. apply Z.ltb_ge in E.
  exists s, v, w. repeat split; trivial.
Qed.



(** ** Accumulation over the slits *)

Lemma sum_map_scale (g : nat -> Q) (c : Q) (l : list nat) :
  Np.sum (map (fun i => g i * c) l) == c * Np.sum (map g l).
Proof.
  induction l as [|i t IH]; simpl; [ring|]. rewrite IH. ring.
Qed.



Lemma sum_flat_map {A} (f : A -> list nat) (g : nat -> Q) (l : list A) :
  Np.sum (map g (flat_map f l)) == Np.sum (map (fun a => Np.sum (map g (f a))) l).
Proof.
  induction l as [|a t IH]; simpl; [reflexivity|].
  now rewrite map_app, sum_app, IH.
Qed.

Section Accumulation.

Variables all_sci all_ivar all_wghts : list Q.
Variable all_spatid : list Z.
Variable bins : voxedges.
Variables n m : Z.
Variable all_idx : list Z.
Variable rng : axis_range * axis_range * axis_range.
Variable grid : list (Q * Q).
Variable a : Q.

Hypothesis area_ok : area n m = Some a.

Let sz := size3 (outshape bins).
Let histograms := slit_histograms all_sci all_ivar all_wghts all_spatid bins n m all_idx rng grid a.
Let body := loop_body all_sci all_ivar all_wghts all_spatid bins n m all_idx rng grid a.
Let expected := slit_inbounds_weight all_wghts all_spatid all_idx n m rng grid.
Let selected (it : nat * frame * nat * Z) : list nat :=
  match select_slit all_spatid all_idx (snd it) (fst (fst (fst it))) with
  | Some this_sl => this_sl
  | None => []
  end.

Lemma slit_histograms_sum (it : nat * frame * nat * Z) (hf hv hn : list Q) :
  histograms it = Some (hf, hv, hn) ->
  length hf = sz /\ length hv = sz /\ length hn = sz /\
  Np.sum hn == expected it /\
  exists coord,
    slit_subpixels all_spatid all_idx grid it = Some (selected it, coord) /\
    ((forall p, In p coord -> in_bin_range rng p = true) ->
     Np.sum hn == Np.sum (map (fun i => nth i all_wghts 0) (selected it))).
Proof.
  destruct (area_value n m a area_ok) as [Hnm Ea].
  destruct it as [[[fr this] sl] spatid].
  unfold histograms, slit_histograms, expected, slit_inbounds_weight, slit_subpixels,
    selected. simpl fst. simpl snd.
  destruct (select_slit all_spatid all_idx spatid fr) as [this_sl|]; [|discriminate].
  destruct (vox_coord this sl this_sl grid) as [coord|]; [|discriminate].
  destruct (slit_weights _ _ _ _ _) as [[[wf wv] wn]|] eqn:Ew; [|discriminate].
  destruct (histogramdd coord (outshape bins) rng wf) as [hf'|] eqn:Ef; [|discriminate].
  destruct (histogramdd coord (outshape bins) rng wv) as [hv'|] eqn:Ev; [|discriminate].
  destruct (histogramdd coord (outshape bins) rng wn) as [hn'|] eqn:En; [|discriminate].
  intro H. inversion H. subst hf' hv' hn'. clear H.
  apply histogramdd_sum in Ef, Ev, En.
  destruct Ef as (Lf & _ & _), Ev as (Lv & _ & _), En as (Ln & Lc & Sn).
  apply slit_weights_inv in Ew.
  destruct Ew as (s & v & w & _ & _ & Tw & Hnum & _ & _ & ->).
  apply (take_map (fun x => x * a) all_wghts this_sl w 0) in Tw.
  destruct Tw as [-> _].
  assert (Hz : ~ inject_Z (n * m) == 0) by (apply inject_Z_nonzero; exact Hnm).
  assert (Ww : forall l, map (fun i => nth i all_wghts 0 * a) l =~
                         map (fun i => subpixel_weight (nth i all_wghts 0) n m) l).
  { induction l; simpl; constructor; trivial.
    unfold subpixel_weight. rewrite Ea. unfold Qdiv. ring. }
  repeat split; trivial.
  - rewrite Sn. apply inbounds_weight_proper, np_repeat_proper, Ww.
  - exists coord. split; [reflexivity|]. intro Hall.
    rewrite Sn, inbounds_weight_all by assumption.
    rewrite sum_np_repeat, sum_map_scale, Ea.
    unfold num_subpixels in *. rewrite Z2Nat.id by exact Hnum.
    field. exact Hz.
Qed.

Lemma loop_none (order : list (nat * frame * nat * Z)) : fold_left body order None = None.
Proof. induction order; simpl; trivial. Qed.

Lemma loop_sum (order : list (nat * frame * nat * Z)) (st acc : accumulators) :
  length (fst (fst st)) = sz -> length (snd (fst st)) = sz -> length (snd st) = sz ->
  fold_left body order (Some st) = Some acc ->
  length (fst (fst acc)) = sz /\ length (snd (fst acc)) = sz /\ length (snd acc) = sz /\
  Np.sum (snd acc) == Np.sum (snd st) + Np.sum (map expected order) /\
  (all_inside all_spatid all_idx rng grid order ->
   Np.sum (snd acc) ==
   Np.sum (snd st) + Np.sum (map (fun i => nth i all_wghts 0) (flat_map selected order))).
Proof.
  revert st. induction order as [|it t IH]; intros [[F V] N] LF LV LN H.
  - simpl in *. inversion H. subst acc. simpl. repeat split; trivial; intros; ring.
  - change (fold_left body t (body (Some (F, V, N)) it) = Some acc) in H.
    cbn [fst snd] in LF, LV, LN.
    assert (Eb : body (Some (F, V, N)) it =
                 match histograms it with
                 | Some (hf, hv, hn) => Some (add F hf, add V hv, add N hn)
                 | None => None
                 end) by reflexivity.
    rewrite Eb in H. clear Eb.
    destruct (histograms it) as [[[hf hv] hn]|] eqn:Eh;
      [|rewrite loop_none in H; discriminate].
    destruct (slit_histograms_sum it hf hv hn Eh) as (Lf & Lv & Ln & Sn & coord & Hc & Sall).
    apply IH in H; cbn [fst snd]; try (rewrite add_length; lia).
    destruct H as (A1 & A2 & A3 & S & Sin). cbn [fst snd] in S, Sin.
    cbn [fst snd map flat_map Np.sum].
    repeat split; trivial.
    + rewrite S, sum_add by lia. rewrite Sn. ring.
    + intro Hall. rewrite map_app, sum_app.
      rewrite Sin, sum_add by (try lia; intros it' sl' c' Hin; apply Hall; right; exact Hin).
      rewrite Sall; [ring|].
      intros p Hp. apply (Hall it (selected it) coord); [left; reflexivity|exact Hc|exact Hp].
Qed.

End Accumulation.

Lemma accumulate_in_inv (all_sci all_ivar all_wghts : list Q) (all_spatid : list Z)
    (bins : voxedges) (n m : Z) (order : list (nat * frame * nat * Z))
    (all_idx : list Z) (acc : accumulators) :
  accumulate_in all_sci all_ivar all_wghts all_spatid bins n m order all_idx = Some acc ->
  exists rng grid a,
    binrng bins = Some rng /\ subgrid n m = Some grid /\ area n m = Some a /\
    fold_left (loop_body all_sci all_ivar all_wghts all_spatid bins n m all_idx rng grid a)
              order
              (Some (repeat 0 (size3 (outshape bins)), repeat 0 (size3 (outshape bins)),
                     repeat 0 (size3 (outshape bins)))) = Some acc.
Proof.
  unfold accumulate_in.
  destruct (binrng bins) as [rng|]; [|discriminate].
  destruct (subgrid n m) as [grid|]; [|discriminate].
  destruct (area n m) as [a|]; [|discriminate].
  intro H. exists rng, grid, a. auto.
Qed.

Lemma accumulate_in_shape (all_sci all_ivar all_wghts : list Q) (all_spatid : list Z)
    (bins : voxedges) (n m : Z) (order : list (nat * frame * nat * Z))
    (all_idx : list Z) (F V N : list Q) :
  accumulate_in all_sci all_ivar all_wghts all_spatid bins n m order all_idx
    = Some (F, V, N) ->
  length F = size3 (outshape bins) /\ length V = size3 (outshape bins) /\
  length N = size3 (outshape bins).
Proof.
  intro H. apply accumulate_in_inv in H. destruct H as (rng & grid & a & _ & _ & Ha & H).
  apply (loop_sum all_sci all_ivar all_wghts all_spatid bins n m all_idx rng grid a Ha) in H;
    simpl; try apply repeat_length.
  simpl in H. tauto.
Qed.

Lemma accumulate_inv (all_sci all_ivar all_wghts : list Q) (all_spatid : list Z)
    (bins : voxedges) (n m : Z) (args : collaborators) (all_idx : option (list Z))
    (acc : accumulators) :
  accumulate all_sci all_ivar all_wghts all_spatid bins n m args all_idx = Some acc ->
  exists frames idx,
    frame_setup all_sci args all_idx = Some (frames, idx) /\
    accumulate_in all_sci all_ivar all_wghts all_spatid bins n m
                  (frame_slit_pairs frames) idx = Some acc.
Proof.
  unfold accumulate.
  destruct (frame_setup all_sci args all_idx) as [[frames idx]|]; [|discriminate].
  intro H. exists frames, idx. auto.
Qed.



(** ** Finalisation *)

Lemma inverse_zero : inverse 0 == 0.
Proof. reflexivity. Qed.

Lemma inverse_of_zero (a : Q) : a == 0 -> inverse a == 0.
Proof.
  intro H. unfold inverse. apply Qeq_bool_iff in H. rewrite H. reflexivity.
Qed.


Lemma finalize_entries (F V N : list Q) :
  length F = length N -> length V = length N ->
  let '(flx, var, bpm) := finalize (F, V, N) in
  length flx = length N /\ length var = length N /\ length bpm = length N /\
  forall i, (i < length N)%nat ->
    nth i flx 0 == nth i F 0 * inverse (nth i N 0) /\
    nth i var 0 == nth i V 0 * inverse (nth i N 0) ^ 2 /\
    nth i bpm 0%Z = (if Qeq_bool (nth i N 0) 0 then 1%Z else 0%Z).
Proof.
  intros LF LV. unfold finalize.
  repeat split.
  - rewrite mul_length, length_map. lia.
  - rewrite mul_length, !length_map. lia.
  - now rewrite length_map.
  - rewrite mul_nth by now rewrite length_map.
    now rewrite (nth_map_in _ _ _ _ 0).
  - rewrite mul_nth by now rewrite !length_map.
    rewrite (nth_map_in _ _ _ _ 0) by now rewrite length_map.
    now rewrite (nth_map_in _ _ _ _ 0).
  - now rewrite (nth_map_in _ _ _ _ 0).
Qed.

(** C3: whenever the accumulation completes with the cubes [(F, V, N)],
    [subpixellate] returns; its flux is [F * inverse(N)] and its variance
    [V * inverse(N)^2] element-wise, with [inverse(0) = 0], so both are zero
    where the normalisation is zero; and its bad-pixel mask is 1 exactly at
    the voxels whose normalisation is zero, and 0 elsewhere. *)
Theorem finalization_safe_inverse (all_sci all_ivar all_wghts : list Q)
    (all_spatid : list Z) (bins : voxedges) (n m : Z) (args : collaborators)
    (all_idx : option (list Z)) (F V N : list Q) :
  accumulate all_sci all_ivar all_wghts all_spatid bins n m args all_idx = Some (F, V, N) ->
  exists flx var bpm,
    subpixellate all_sci all_ivar all_wghts all_spatid bins n m args all_idx
      = Some (flx, var, bpm) /\
    length flx = length N /\ length var = length N /\ length bpm = length N /\
    inverse 0 == 0 /\
    forall i, (i < length N)%nat ->
      nth i flx 0 == nth i F 0 * inverse (nth i N 0) /\
      nth i var 0 == nth i V 0 * inverse (nth i N 0) ^ 2 /\
      (nth i bpm 0%Z = 1%Z <-> nth i N 0 == 0) /\
      (nth i bpm 0%Z = 0%Z <-> ~ nth i N 0 == 0) /\
      (nth i N 0 == 0 -> nth i flx 0 == 0 /\ nth i var 0 == 0).
Proof.
  intro H. unfold subpixellate. rewrite H. cbn [option_map].
  apply accumulate_inv in H. destruct H as (frames & idx & _ & H).
  apply accumulate_in_shape in H. destruct H as (LF & LV & LN).
  pose proof (finalize_entries F V N) as E.
  destruct (finalize (F, V, N)) as [[flx var] bpm].
  destruct E as (L1 & L2 & L3 & E); try lia.
  exists flx, var, bpm. repeat split; trivial;
    destruct (E i H) as (E1 & E2 & E3).
  - exact E1.
  - exact E2.
  - rewrite E3. destruct (Qeq_bool (nth i N 0) 0) eqn:B; [|discriminate].
    intros _. now apply Qeq_bool_iff.
  - intro Z0. rewrite E3. apply Qeq_bool_iff in Z0. now rewrite Z0.
  - rewrite E3. destruct (Qeq_bool (nth i N 0) 0) eqn:B; [discriminate|].
    intros _. now apply Qeq_bool_false.
  - intro NZ. rewrite E3. apply Qeq_bool_false in NZ. now rewrite NZ.
  - rewrite E1, (inverse_of_zero _ H0). ring.
  - rewrite E2, (inverse_of_zero _ H0). ring.
Qed.

Lemma finalization_safe_inverse_witness :
  subpixellate [10; 20] [4; 1] [3; 1] [7%Z; 7%Z]
               (bin_edges 1, bin_edges 1, bin_edges 3) 1 1 (Single ramp_frame) None
  <> None.
Proof.
  destruct (accumulate [10; 20] [4; 1] [3; 1] [7%Z; 7%Z]
              (bin_edges 1, bin_edges 1, bin_edges 3) 1 1 (Single ramp_frame) None)
    as [[[F V] N]|] eqn:E; [|vm_compute in E; discriminate].
  destruct (finalization_safe_inverse _ _ _ _ _ _ _ _ _ F V N E)
    as (flx & var & bpm & Hres & _).
  rewrite Hres. discriminate.
Defined.

(** ** Order of the iterations *)





Section Order.

Variables all_sci all_ivar all_wghts : list Q.
Variable all_spatid : list Z.
Variable bins : voxedges.
Variables n m : Z.
Variable all_idx : list Z.
Variable rng : axis_range * axis_range * axis_range.
Variable grid : list (Q * Q).
Variable a : Q.

Let body := loop_body all_sci all_ivar all_wghts all_spatid bins n m all_idx rng grid a.



Lemma body_none (it : nat * frame * nat * Z) : body None it = None.
Proof. reflexivity. Qed.





End Order.








(** ** When the accumulation completes *)

Lemma select_slit_inside (all_spatid all_idx : list Z) (spatid : Z) (fr : nat) :
  length all_spatid = length all_idx ->
  exists this_sl,
    select_slit all_spatid all_idx spatid fr = Some this_sl /\
    Forall (fun i => (i < length all_spatid)%nat) this_sl.
Proof.
  intro L. unfold select_slit. rewrite L, Nat.eqb_refl. simpl.
  eexists. split; [reflexivity|].
  apply Forall_forall. intros i Hi. apply where_spec in Hi.
  destruct Hi as (x & Hx & _).
  assert (H : nth_error (combine all_spatid all_idx) i <> None) by congruence.
  apply nth_error_Some in H. rewrite length_combine in H. lia.
Qed.

Lemma histogramdd_total (coord : list (Q * Q * Q)) (bins : nat * nat * nat)
    (rng : axis_range * axis_range * axis_range) (wts : list Q) :
  bins_ok bins rng -> length coord = length wts ->
  exists h, histogramdd coord bins rng wts = Some h.
Proof.
  destruct bins as [[bx by_] bz], rng as [[rx ry] rz].
  intros (Bx & By & Bz & Rx & Ry & Rz) L. unfold histogramdd.
  destruct bx; [lia|]. destruct by_; [lia|]. destruct bz; [lia|]. simpl.
  unfold valid_range. apply Qltb_lt in Rx, Ry, Rz. rewrite Rx, Ry, Rz. simpl.
  rewrite L, Nat.eqb_refl. simpl. eauto.
Qed.

Lemma slit_weights_total (sci var wsub : list Q) (this_sl : list nat) (num : Z) :
  Forall (fun i => (i < length sci)%nat) this_sl ->
  length var = length sci -> length wsub = length sci -> (0 <= num)%Z ->
  exists wf wv wn,
    slit_weights sci var wsub this_sl num = Some (wf, wv, wn) /\
    length wf = (length this_sl * Z.to_nat num)%nat /\
    length wv = (length this_sl * Z.to_nat num)%nat /\
    length wn = (length this_sl * Z.to_nat num)%nat.
Proof.
  intros Hsel Lv Lw Hnum. unfold slit_weights.
  rewrite (take_total sci this_sl 0) by exact Hsel.
  rewrite (take_total var this_sl 0) by now rewrite Lv.
  rewrite (take_total wsub this_sl 0) by now rewrite Lw.
  destruct (num <? 0)%Z eqn:E; [apply Z.ltb_lt in E; lia|].
  do 3 eexists. split; [reflexivity|].
  rewrite !np_repeat_length, !mul_length, !length_map. repeat split; lia.
Qed.

(** The accumulation loop completes when the bin edges delimit at least one
    bin per axis with an increasing range, both sub-pixel factors are at
    least one, the pixel arrays have one length, and the transformation chain
    of every iteration yields one voxel coordinate per sub-pixel. *)
Lemma accumulate_in_total (all_sci all_ivar all_wghts : list Q) (all_spatid : list Z)
    (bins : voxedges) (n m : Z) (order : list (nat * frame * nat * Z))
    (all_idx : list Z) (rng : axis_range * axis_range * axis_range) :
  binrng bins = Some rng -> bins_ok (outshape bins) rng ->
  (1 <= n)%Z -> (1 <= m)%Z ->
  length all_ivar = length all_sci -> length all_wghts = length all_sci ->
  length all_spatid = length all_sci -> length all_idx = length all_sci ->
  (forall fr this sl spatid this_sl grid,
     In (fr, this, sl, spatid) order ->
     select_slit all_spatid all_idx spatid fr = Some this_sl ->
     subgrid n m = Some grid ->
     exists coord, vox_coord this sl this_sl grid = Some coord /\
                   length coord = (length this_sl * Z.to_nat (n * m))%nat) ->
  exists acc,
    accumulate_in all_sci all_ivar all_wghts all_spatid bins n m order all_idx = Some acc.
Proof.
  intros Hr Hok Hn Hm Li Lw Ls Lx Hchain.
  destruct (subpixel_offsets_regular n Hn) as (spec_offs & Es & _).
  destruct (subpixel_offsets_regular m Hm) as (spat_offs & Et & _).
  assert (Hg : subgrid n m = Some (meshgrid spat_offs spec_offs))
    by (unfold subgrid; now rewrite Es, Et).
  set (grid := meshgrid spat_offs spec_offs) in *.
  assert (Hnm : (1 <= n * m)%Z) by nia.
  unfold accumulate_in. rewrite Hr, Hg.
  unfold area, num_subpixels.
  rewrite divide_some by (apply inject_Z_nonzero; lia).
  set (a := 1 / inject_Z (n * m)).
  generalize (repeat 0 (size3 (outshape bins))) at 1 as F.
  generalize (repeat 0 (size3 (outshape bins))) at 1 as V.
  generalize (repeat 0 (size3 (outshape bins))) as N.
  induction order as [|it t IH]; intros N V F; [simpl; eauto|].
  destruct it as [[[fr this] sl] spatid].
  destruct (select_slit_inside all_spatid all_idx spatid fr) as (this_sl & Hsel & Hin);
    [lia|].
  destruct (Hchain fr this sl spatid this_sl grid (or_introl eq_refl) Hsel Hg)
    as (coord & Hc & Lc).
  destruct (slit_weights_total all_sci (all_var all_ivar) (all_wght_subpix all_wghts a)
              this_sl (n * m)) as (wf & wv & wn & Hw & Lf & Lv & Ln).
  { now rewrite <- Ls. }
  { unfold all_var. now rewrite length_map. }
  { unfold all_wght_subpix. now rewrite length_map. }
  { lia. }
  destruct (histogramdd_total coord (outshape bins) rng wf Hok) as [hf Hf]; [lia|].
  destruct (histogramdd_total coord (outshape bins) rng wv Hok) as [hv Hv]; [lia|].
  destruct (histogramdd_total coord (outshape bins) rng wn Hok) as [hn Hn']; [lia|].
  assert (Eb : loop_body all_sci all_ivar all_wghts all_spatid bins n m all_idx rng grid a
                 (Some (F, V, N)) (fr, this, sl, spatid)
               = Some (add F hf, add V hv, add N hn)).
  { unfold loop_body, slit_histograms, num_subpixels.
    rewrite Hsel, Hc, Hw, Hf, Hv, Hn'. reflexivity. }
  cbn [fold_left]. rewrite Eb.
  apply IH. intros fr' this' sl' spatid' sel' grid' Hin'. apply Hchain. now right.
Qed.

(** * Further properties *)

(** ** [get_whitelight_range] *)

(** X1: [get_whitelight_range] returns the user's values where they are
    given and the automatic ones elsewhere, and it warns exactly when the
    returned range reaches outside the automatic range
    [[wavemin, wavemax]]; with [wl_range = [None, None]] it returns the
    automatic range without a warning. *)
Theorem whitelight_range_warning (wavemin wavemax : Q) (wl_range : option Q * option Q) :
  let r := get_whitelight_range wavemin wavemax wl_range in
  (forall v, fst wl_range = Some v -> fst (fst r) = v) /\
  (forall v, snd wl_range = Some v -> snd (fst r) = v) /\
  (fst wl_range = None -> fst (fst r) = wavemin) /\
  (snd wl_range = None -> snd (fst r) = wavemax) /\
  (snd r = [] <-> wavemin <= fst (fst r) /\ snd (fst r) <= wavemax).
Proof.
  destruct wl_range as [[lo|] [hi|]]; unfold get_whitelight_range; simpl;
    repeat match goal with
           | |- context [Np.Qltb ?a ?b] =>
               let E := fresh "E" in
               destruct (Np.Qltb a b) eqn:E;
               [apply Qltb_lt in E|apply Qltb_ge in E]
           end; simpl;
    repeat split; try congruence; try discriminate; try apply Qle_refl;
    try (intros v H; inversion H; reflexivity);
    try (intros [H1 H2]; exfalso; lra); try lra; auto.
Qed.

(** ** [align_user_offsets] *)

Lemma masked_add_inv (a : list Q) (all_idx : list Z) (ff : nat) (delta : Q) (a' : list Q) :
  masked_add a all_idx ff delta = Some a' ->
  length a = length all_idx /\ length a' = length a /\
  forall k, (k < length a)%nat ->
    nth k a' 0 = if Z.eqb (nth k all_idx 0%Z) (Z.of_nat ff)
                 then nth k a 0 + delta else nth k a 0.
Proof.
  unfold masked_add. destruct (length a =? length all_idx)%nat eqn:E; [|discriminate].
  apply Nat.eqb_eq in E. simpl. intro H. inversion H. clear H.
  split; [exact E|]. split.
  - rewrite length_map, length_combine. lia.
  - intros k Hk.
    rewrite (nth_map_in _ _ _ _ (0, 0%Z)) by (rewrite length_combine; lia).
    rewrite combine_nth by exact E. reflexivity.
Qed.

Lemma masked_add_total (a : list Q) (all_idx : list Z) (ff : nat) (delta : Q) :
  length a = length all_idx -> exists a', masked_add a all_idx ff delta = Some a'.
Proof.
  intro E. unfold masked_add. rewrite E, Nat.eqb_refl. simpl. eauto.
Qed.

Section Align.

Variable all_idx : list Z.
Variables ref_shift_ra ref_shift_dec ra_offset dec_offset : list Q.

Let step := align_step all_idx ref_shift_ra ref_shift_dec ra_offset dec_offset.
Let dra (f : nat) : Q := nth f ref_shift_ra 0 + nth f ra_offset 0 / 3600.
Let ddec (f : nat) : Q := nth f ref_shift_dec 0 + nth f dec_offset 0 / 3600.

(** The frame number [f] of a pixel lies among the frames [j .. j + n - 1]. *)
Let within (j n : nat) (f : Z) : Prop := (Z.of_nat j <= f < Z.of_nat (j + n))%Z.

Lemma align_none (l : list nat) : fold_left step l None = None.
Proof. induction l; simpl; trivial. Qed.

Lemma align_step_inv (ra dec ra' dec' : list Q) (ff : nat) :
  step (Some (ra, dec)) ff = Some (ra', dec') ->
  (ff < length ref_shift_ra)%nat /\ (ff < length ra_offset)%nat /\
  (ff < length ref_shift_dec)%nat /\ (ff < length dec_offset)%nat /\
  masked_add ra all_idx ff (dra ff) = Some ra' /\
  masked_add dec all_idx ff (ddec ff) = Some dec'.
Proof.
  unfold step, align_step, dra, ddec.
  destruct (nth_error ref_shift_ra ff) as [sra|] eqn:E1; [|discriminate].
  destruct (nth_error ra_offset ff) as [ora|] eqn:E2; [|discriminate].
  destruct (masked_add ra all_idx ff (sra + ora / 3600)) as [ra1|] eqn:E3; [|discriminate].
  destruct (nth_error ref_shift_dec ff) as [sdec|] eqn:E4; [|discriminate].
  destruct (nth_error dec_offset ff) as [odec|] eqn:E5; [|discriminate].
  destruct (masked_add dec all_idx ff (sdec + odec / 3600)) as [dec1|] eqn:E6; [|discriminate].
  intro H. inversion H. subst ra1 dec1. clear H.
  rewrite (nth_error_nth _ _ 0 E1), (nth_error_nth _ _ 0 E2),
          (nth_error_nth _ _ 0 E4), (nth_error_nth _ _ 0 E5).
  repeat split; trivial; apply nth_error_Some; congruence.
Qed.

Lemma align_loop (n j : nat) (ra dec ra' dec' : list Q) :
  fold_left step (seq j n) (Some (ra, dec)) = Some (ra', dec') ->
  length ra' = length ra /\ length dec' = length dec /\
  ((0 < n)%nat -> length ra = length all_idx /\ length dec = length all_idx) /\
  ((j + n <= length ref_shift_ra)%nat /\ (j + n <= length ra_offset)%nat /\
   (j + n <= length ref_shift_dec)%nat /\ (j + n <= length dec_offset)%nat \/ n = 0%nat) /\
  (forall k, (k < length ra)%nat ->
     let f := nth k all_idx 0%Z in
     (within j n f -> nth k ra' 0 = nth k ra 0 + dra (Z.to_nat f)) /\
     (~ within j n f -> nth k ra' 0 = nth k ra 0)) /\
  (forall k, (k < length dec)%nat ->
     let f := nth k all_idx 0%Z in
     (within j n f -> nth k dec' 0 = nth k dec 0 + ddec (Z.to_nat f)) /\
     (~ within j n f -> nth k dec' 0 = nth k dec 0)).
Proof.
  revert j ra dec. induction n as [|n IH]; intros j ra dec H.
  - simpl in H. inversion H. subst ra' dec'. unfold within.
    repeat split; trivial; try lia; try (right; reflexivity); intros; lia.
  - cbn [seq fold_left] in H.
    destruct (step (Some (ra, dec)) j) as [[ra1 dec1]|] eqn:Es;
      [|rewrite align_none in H; discriminate].
    apply align_step_inv in Es.
    destruct Es as (B1 & B2 & B3 & B4 & Mr & Md).
    apply masked_add_inv in Mr, Md.
    destruct Mr as (Lr & Lr1 & Nr), Md as (Ld & Ld1 & Nd).
    apply IH in H. destruct H as (L1 & L2 & _ & Hb & Hr & Hd).
    split; [lia|]. split; [lia|]. split; [intros _; split; assumption|]. split.
    { left. destruct Hb as [(C1 & C2 & C3 & C4)|E0]; lia. }
    unfold within in *. split.
    + intros k Hk. cbv zeta. set (f := nth k all_idx 0%Z).
      specialize (Hr k ltac:(lia)). cbv zeta in Hr. fold f in Hr.
      destruct Hr as [Hin Hout]. rewrite (Nr k Hk) in Hin, Hout. fold f in Hin, Hout.
      destruct (Z.eqb f (Z.of_nat j)) eqn:Ef.
      * apply Z.eqb_eq in Ef. split; intro W.
        -- rewrite Hout by lia. rewrite Ef, Nat2Z.id. reflexivity.
        -- lia.
      * apply Z.eqb_neq in Ef. split; intro W.
        -- apply Hin. lia.
        -- apply Hout. lia.
    + intros k Hk. cbv zeta. set (f := nth k all_idx 0%Z).
      specialize (Hd k ltac:(lia)). cbv zeta in Hd. fold f in Hd.
      destruct Hd as [Hin Hout]. rewrite (Nd k Hk) in Hin, Hout. fold f in Hin, Hout.
      destruct (Z.eqb f (Z.of_nat j)) eqn:Ef.
      * apply Z.eqb_eq in Ef. split; intro W.
        -- rewrite Hout by lia. rewrite Ef, Nat2Z.id. reflexivity.
        -- lia.
      * apply Z.eqb_neq in Ef. split; intro W.
        -- apply Hin. lia.
        -- apply Hout. lia.
Qed.

Lemma align_loop_total (n j : nat) (ra dec : list Q) :
  (j + n <= length ref_shift_ra)%nat -> (j + n <= length ra_offset)%nat ->
  (j + n <= length ref_shift_dec)%nat -> (j + n <= length dec_offset)%nat ->
  length ra = length all_idx -> length dec = length all_idx ->
  exists r, fold_left step (seq j n) (Some (ra, dec)) = Some r.
Proof.
  revert j ra dec. induction n as [|n IH]; intros j ra dec B1 B2 B3 B4 Lr Ld.
  - simpl. eauto.
  - cbn [seq fold_left].
    destruct (masked_add_total ra all_idx j (dra j) Lr) as [ra1 Mr].
    destruct (masked_add_total dec all_idx j (ddec j) Ld) as [dec1 Md].
    assert (Es : step (Some (ra, dec)) j = Some (ra1, dec1)).
    { unfold step, align_step.
      rewrite (nth_error_nth' ref_shift_ra 0) by lia.
      rewrite (nth_error_nth' ra_offset 0) by lia.
      fold (dra j). rewrite Mr.
      rewrite (nth_error_nth' ref_shift_dec 0) by lia.
      rewrite (nth_error_nth' dec_offset 0) by lia.
      fold (ddec j). rewrite Md. reflexivity. }
    rewrite Es. apply masked_add_inv in Mr, Md.
    apply IH; lia.
Qed.

End Align.

Lemma hd_error_nth {A} (l : list A) (x d : A) : hd_error l = Some x -> nth 0 l d = x.
Proof. destruct l; simpl; congruence. Qed.

(** X2: when [align_user_offsets] returns, both arrays keep their length;
    a pixel of frame [f] (a frame with a user offset) is moved by the shift
    of the IFU centre of frame [f] onto that of the first frame plus the user
    offset of frame [f] converted from arcseconds to degrees, once; a pixel
    whose frame number has no user offset is left as it is. *)
Theorem align_user_offsets_shift (all_ra all_dec : list Q) (all_idx : list Z)
    (ifu_ra ifu_dec ra_offset dec_offset new_ra new_dec : list Q) :
  align_user_offsets all_ra all_dec all_idx ifu_ra ifu_dec ra_offset dec_offset
    = Some (new_ra, new_dec) ->
  length new_ra = length all_ra /\ length new_dec = length all_dec /\
  forall k,
    let f := nth k all_idx 0%Z in
    let framed := (0 <= f < Z.of_nat (length ra_offset))%Z in
    ((k < length all_ra)%nat ->
     (framed -> nth k new_ra 0 ==
                nth k all_ra 0 + (nth 0 ifu_ra 0 - nth (Z.to_nat f) ifu_ra 0)
                + nth (Z.to_nat f) ra_offset 0 / 3600) /\
     (~ framed -> nth k new_ra 0 = nth k all_ra 0)) /\
    ((k < length all_dec)%nat ->
     (framed -> nth k new_dec 0 ==
                nth k all_dec 0 + (nth 0 ifu_dec 0 - nth (Z.to_nat f) ifu_dec 0)
                + nth (Z.to_nat f) dec_offset 0 / 3600) /\
     (~ framed -> nth k new_dec 0 = nth k all_dec 0)).
Proof.
  unfold align_user_offsets.
  destruct (hd_error ifu_ra) as [ra0|] eqn:Hr0; [|discriminate].
  destruct (hd_error ifu_dec) as [dec0|] eqn:Hd0; [|discriminate].
  intro H. apply align_loop in H.
  destruct H as (L1 & L2 & _ & Hb & Hr & Hd).
  split; [exact L1|]. split; [exact L2|].
  intros k. cbv zeta. set (f := nth k all_idx 0%Z).
  set (framed := (0 <= f < Z.of_nat (length ra_offset))%Z).
  rewrite !length_map in Hb. simpl in Hb.
  assert (Hf : framed -> (Z.to_nat f < length ifu_ra)%nat /\
                         (Z.to_nat f < length ifu_dec)%nat).
  { unfold framed. intro W. destruct Hb as [(C1 & C2 & C3 & C4)|E0]; lia. }
  split; intro Hk.
  - destruct (Hr k Hk) as [Hin Hout]. fold f in Hin, Hout. split; intro W.
    + rewrite Hin by (simpl; exact W).
      rewrite (nth_map_in _ _ _ _ 0) by apply Hf, W.
      rewrite (hd_error_nth _ _ 0 Hr0). ring.
    + apply Hout. simpl. exact W.
  - destruct (Hd k Hk) as [Hin Hout]. fold f in Hin, Hout. split; intro W.
    + rewrite Hin by (simpl; exact W).
      rewrite (nth_map_in _ _ _ _ 0) by apply Hf, W.
      rewrite (hd_error_nth _ _ 0 Hd0). ring.
    + apply Hout. simpl. exact W.
Qed.

Lemma align_user_offsets_shift_witness :
  exists new_ra new_dec,
    align_user_offsets [10; 20; 30] [1; 2; 3] [0%Z; 1%Z; 5%Z]
                       [100; 101] [50; 48] [3600; 7200] [0; 3600]
      = Some (new_ra, new_dec) /\
    nth 1 new_ra 0 == 21 /\ nth 1 new_dec 0 == 5 /\ nth 2 new_ra 0 = 30.
Proof.
  destruct (align_user_offsets [10; 20; 30] [1; 2; 3] [0%Z; 1%Z; 5%Z]
              [100; 101] [50; 48] [3600; 7200] [0; 3600])
    as [[new_ra new_dec]|] eqn:E; [|vm_compute in E; discriminate].
  exists new_ra, new_dec. split; [reflexivity|].
  destruct (align_user_offsets_shift _ _ _ _ _ _ _ _ _ E) as (_ & _ & H).
  destruct (H 1%nat) as [[Hra _] [Hdec _]]; simpl; try lia.
  destruct (H 2%nat) as [[_ Hout] _]; simpl; try lia.
  split; [|split].
  - rewrite Hra by (simpl; lia). reflexivity.
  - rewrite Hdec by (simpl; lia). reflexivity.
  - apply Hout. simpl. lia.
Defined.

(** X3: [align_user_offsets] returns exactly when both IFU coordinate lists
    are non-empty and, if there is at least one user offset, every frame with
    an RA offset also has IFU coordinates and a Dec offset and the pixel
    arrays have the length of the frame-index array; otherwise it raises. *)
Theorem align_user_offsets_defined (all_ra all_dec : list Q) (all_idx : list Z)
    (ifu_ra ifu_dec ra_offset dec_offset : list Q) :
  align_user_offsets all_ra all_dec all_idx ifu_ra ifu_dec ra_offset dec_offset <> None <->
  ifu_ra <> [] /\ ifu_dec <> [] /\
  (ra_offset = [] \/
   (length ra_offset <= length ifu_ra)%nat /\ (length ra_offset <= length ifu_dec)%nat /\
   (length ra_offset <= length dec_offset)%nat /\
   length all_ra = length all_idx /\ length all_dec = length all_idx).
Proof.
  unfold align_user_offsets. split.
  - destruct (hd_error ifu_ra) as [ra0|] eqn:Hr0; [|congruence].
    destruct (hd_error ifu_dec) as [dec0|] eqn:Hd0; [|congruence].
    intro H.
    destruct (fold_left _ _ _) as [[ra' dec']|] eqn:E; [|congruence].
    apply align_loop in E. destruct E as (_ & _ & Hl & Hb & _).
    rewrite !length_map in Hb. simpl in Hb.
    split; [intro Z0; subst; discriminate|]. split; [intro Z0; subst; discriminate|].
    destruct ra_offset as [|o t]; [now left|right].
    destruct Hb as [(C1 & C2 & C3 & C4)|E0]; [|discriminate].
    destruct Hl as [La Ld]; [simpl; lia|]. tauto.
  - intros (Hr & Hd & Hc).
    destruct ifu_ra as [|ra0 tr]; [congruence|].
    destruct ifu_dec as [|dec0 td]; [congruence|].
    cbn [hd_error].
    destruct Hc as [->|(C1 & C2 & C3 & La & Ld)]; [simpl; discriminate|].
    assert (Hres : exists r,
               fold_left (align_step all_idx (map (fun r => ra0 - r) (ra0 :: tr))
                                     (map (fun d => dec0 - d) (dec0 :: td))
                                     ra_offset dec_offset)
                         (seq 0 (length ra_offset)) (Some (all_ra, all_dec)) = Some r).
    { apply align_loop_total; rewrite ?length_map; cbn [length] in *; lia. }
    destruct Hres as [r Hres]. rewrite Hres. discriminate.
Qed.

(** ** [set_voxel_sampling] *)

Lemma Qabs_zero_iff (x : Q) : Qabs x <= 0 <-> x == 0.
Proof.
  split; intro H.
  - revert H. apply Qabs_case; intros; lra.
  - rewrite H. discriminate.
Qed.

Lemma Qabs_div (a b : Q) : ~ b == 0 -> Qabs (a / b) == Qabs a / Qabs b.
Proof.
  intro Hb. unfold Qdiv. rewrite Qabs_Qmult, Qabs_Qinv. reflexivity.
Qed.

Lemma Qabs_pos (b : Q) : ~ b == 0 -> 0 < Qabs b.
Proof.
  intro Hb. destruct (Qlt_le_dec 0 (Qabs b)) as [H|H]; trivial.
  apply Qabs_zero_iff in H. contradiction.
Qed.

Lemma ratio_exceeds_true (tol x0 x : Q) :
  0 <= tol -> (ratio_exceeds tol x0 x = true <-> tol * Qabs x0 < Qabs (x - x0)).
Proof.
  intro Ht. unfold ratio_exceeds. destruct (Qeq_bool x0 0) eqn:E0.
  - apply Qeq_bool_iff in E0. rewrite negb_true_iff, Qeq_bool_false.
    assert (Z0 : tol * Qabs x0 == 0) by (rewrite E0; simpl; ring).
    rewrite Z0. split; intro H.
    + apply Qabs_pos, H.
    + intro E. rewrite E in H. discriminate.
  - apply Qeq_bool_false in E0. pose proof (Qabs_pos x0 E0) as Hp.
    rewrite Qltb_lt, (Qabs_div _ _ E0). split; intro H.
    + apply (Qmult_lt_r _ _ (Qabs x0) Hp) in H.
      setoid_replace (Qabs (x - x0) / Qabs x0 * Qabs x0) with (Qabs (x - x0)) in H;
        [exact H|].
      field. intro Z0. rewrite Z0 in Hp. discriminate.
    + apply Qlt_shift_div_l; assumption.
Qed.

Lemma inconsistent_spec (tol : Q) (a : list Q) (b : bool) :
  0 <= tol -> inconsistent tol a = Some b ->
  exists x0, hd_error a = Some x0 /\
    (b = true <-> exists x, In x a /\ tol * Qabs x0 < Qabs (x - x0)).
Proof.
  intros Ht. unfold inconsistent. destruct (hd_error a) as [x0|]; [|discriminate].
  intro H. inversion H. exists x0. split; trivial.
  rewrite existsb_exists. split; intros (x & Hx & Hr); exists x; split; trivial;
    now apply (ratio_exceeds_true tol x0 x Ht).
Qed.

Lemma max_of_nonempty_rows (spatscale : list (Q * Q)) :
  spatscale <> [] -> flat_map (fun s => [fst s; snd s]) spatscale <> [].
Proof. destruct spatscale; simpl; congruence. Qed.

(** X4: [set_voxel_sampling] returns exactly when it is given at least one
    frame's spatial scales and one spectral scale.  A sampling the caller
    supplies is returned as it is; a missing spatial sampling is replaced by
    the largest of all native pixel and slicer scales, and a missing
    spectral sampling by the largest native spectral scale, so neither is
    finer than any frame's own sampling. *)
Theorem voxel_sampling_choice (spatscale : list (Q * Q)) (specscale : list Q)
    (dspat dwv : option Q) :
  (set_voxel_sampling spatscale specscale dspat dwv <> None <->
   spatscale <> [] /\ specscale <> []) /\
  forall d w warns,
    set_voxel_sampling spatscale specscale dspat dwv = Some (d, w, warns) ->
    (forall v, dspat = Some v -> d = v) /\
    (forall v, dwv = Some v -> w = v) /\
    (dspat = None ->
     (exists s, In s spatscale /\ (d = fst s \/ d = snd s)) /\
     forall s, In s spatscale -> fst s <= d /\ snd s <= d) /\
    (dwv = None -> In w specscale /\ forall x, In x specscale -> x <= w).
Proof.
  unfold set_voxel_sampling, inconsistent. split.
  - split.
    + intro H. split; intro E; subst; simpl in H; try congruence.
      destruct (hd_error (map fst spatscale)); [|congruence].
      destruct (hd_error (map snd spatscale)); congruence.
    + intros [Hs Hw].
      destruct spatscale as [|s0 ts]; [congruence|].
      destruct specscale as [|w0 tw]; [congruence|]. cbn [map hd_error].
      destruct (max_some (flat_map (fun s => [fst s; snd s]) (s0 :: ts))) as [m Hm];
        [simpl; congruence|].
      destruct (max_some (w0 :: tw)) as [mw Hmw]; [congruence|].
      rewrite Hm, Hmw. destruct dspat, dwv; simpl; discriminate.
  - intros d w warns.
    destruct (hd_error (map fst spatscale)); [|discriminate].
    destruct (hd_error (map snd spatscale)); [|discriminate].
    destruct (hd_error specscale); [|discriminate].
    destruct (or_else dspat _) as [d'|] eqn:Ed; [|discriminate].
    destruct (or_else dwv _) as [w'|] eqn:Ew; [|discriminate].
    intro H. inversion H. subst d' w'. clear H.
    repeat match goal with |- _ /\ _ => split end.
    + intros v ->. simpl in Ed. congruence.
    + intros v ->. simpl in Ew. congruence.
    + intros ->. simpl in Ed. apply max_upper in Ed. destruct Ed as [Hin Hub]. split.
      * apply in_flat_map in Hin. destruct Hin as (s & Hs & Hd).
        exists s. split; trivial. simpl in Hd. intuition.
      * intros s Hs. split; apply Hub, in_flat_map; exists s; simpl; auto.
    + intros ->. simpl in Ew. apply max_upper in Ew. exact Ew.
Qed.

(** X5: when [set_voxel_sampling] returns, each of its three warnings is
    emitted exactly when some frame's pixel scale (slicer scale, wavelength
    sampling) differs from that of the first frame by more than the
    tolerance 1e-4 (1e-4, 1e-2) times the first frame's value in absolute
    value; identical frames therefore give no warning. *)
Theorem voxel_sampling_warnings (spatscale : list (Q * Q)) (specscale : list Q)
    (dspat dwv : option Q) (d w : Q) (warns : list nat) :
  set_voxel_sampling spatscale specscale dspat dwv = Some (d, w, warns) ->
  exists p0 s0 w0,
    hd_error spatscale = Some (p0, s0) /\ hd_error specscale = Some w0 /\
    (In 640%nat warns <->
     exists s, In s spatscale /\ (1 # 10000) * Qabs p0 < Qabs (fst s - p0)) /\
    (In 646%nat warns <->
     exists s, In s spatscale /\ (1 # 10000) * Qabs s0 < Qabs (snd s - s0)) /\
    (In 652%nat warns <->
     exists x, In x specscale /\ (1 # 100) * Qabs w0 < Qabs (x - w0)) /\
    ((forall s, In s spatscale -> fst s == p0 /\ snd s == s0) ->
     (forall x, In x specscale -> x == w0) -> warns = []).
Proof.
  unfold set_voxel_sampling.
  destruct (inconsistent (1 # 10000) (map fst spatscale)) as [b1|] eqn:E1; [|discriminate].
  destruct (inconsistent (1 # 10000) (map snd spatscale)) as [b2|] eqn:E2; [|discriminate].
  destruct (inconsistent (1 # 100) specscale) as [b3|] eqn:E3; [|discriminate].
  destruct (or_else dspat _) as [d'|]; [|discriminate].
  destruct (or_else dwv _) as [w'|]; [|discriminate].
  intro H. inversion H. clear H.
  apply inconsistent_spec in E1, E2, E3; try discriminate.
  destruct E1 as (p0 & Hp & B1), E2 as (s0 & Hs & B2), E3 as (w0 & Hw & B3).
  exists p0, s0, w0.
  assert (Hrow : hd_error spatscale = Some (p0, s0)).
  { destruct spatscale as [|[p s] t]; simpl in *; congruence. }
  assert (A1 : b1 = true <->
               exists s, In s spatscale /\ (1 # 10000) * Qabs p0 < Qabs (fst s - p0)).
  { rewrite B1. split.
    - intros (x & Hx & Hr). apply in_map_iff in Hx. destruct Hx as (s & <- & Hin). eauto.
    - intros (s & Hin & Hr). exists (fst s). split; [apply in_map, Hin|exact Hr]. }
  assert (A2 : b2 = true <->
               exists s, In s spatscale /\ (1 # 10000) * Qabs s0 < Qabs (snd s - s0)).
  { rewrite B2. split.
    - intros (x & Hx & Hr). apply in_map_iff in Hx. destruct Hx as (s & <- & Hin). eauto.
    - intros (s & Hin & Hr). exists (snd s). split; [apply in_map, Hin|exact Hr]. }
  split; [exact Hrow|]. split; [exact Hw|].
  split; [|split; [|split]].
  - rewrite <- A1. destruct b1, b2, b3; simpl; intuition (try discriminate; try lia).
  - rewrite <- A2. destruct b1, b2, b3; simpl; intuition (try discriminate; try lia).
  - rewrite <- B3. destruct b1, b2, b3; simpl; intuition (try discriminate; try lia).
  - intros Hsame Wsame.
    assert (N1 : b1 = false).
    { destruct b1; trivial. destruct (proj1 A1 eq_refl) as (s & Hin & Hr).
      destruct (Hsame s Hin) as [E _]. rewrite E in Hr.
      setoid_replace (p0 - p0) with 0 in Hr by ring. simpl in Hr.
      pose proof (Qabs_nonneg p0). exfalso. lra. }
    assert (N2 : b2 = false).
    { destruct b2; trivial. destruct (proj1 A2 eq_refl) as (s & Hin & Hr).
      destruct (Hsame s Hin) as [_ E]. rewrite E in Hr.
      setoid_replace (s0 - s0) with 0 in Hr by ring. simpl in Hr.
      pose proof (Qabs_nonneg s0). exfalso. lra. }
    assert (N3 : b3 = false).
    { destruct b3; trivial. destruct (proj1 B3 eq_refl) as (x & Hin & Hr).
      rewrite (Wsame x Hin) in Hr.
      setoid_replace (w0 - w0) with 0 in Hr by ring. simpl in Hr.
      pose proof (Qabs_nonneg w0). exfalso. lra. }
    subst. reflexivity.
Qed.

Lemma voxel_sampling_warnings_witness :
  exists d w warns,
    set_voxel_sampling [(1 # 1000, 3 # 1000); (1 # 1000, 3 # 1000)] [1 # 2; 11 # 20]
                       None None = Some (d, w, warns) /\
    In 652%nat warns /\ ~ In 640%nat warns.
Proof.
  destruct (set_voxel_sampling [(1 # 1000, 3 # 1000); (1 # 1000, 3 # 1000)] [1 # 2; 11 # 20]
              None None) as [[[d w] warns]|] eqn:E; [|vm_compute in E; discriminate].
  exists d, w, warns. split; [reflexivity|].
  destruct (voxel_sampling_warnings _ _ _ _ _ _ _ E)
    as (p0 & s0 & w0 & Hp & Hw & W1 & _ & W3 & _).
  inversion Hp. inversion Hw. subst p0 s0 w0. split.
  - apply W3. exists (11 # 20). split; [simpl; auto|reflexivity].
  - intro H. apply W1 in H. destruct H as (s & Hin & Hr).
    simpl in Hin. destruct Hin as [<-|[<-|[]]]; vm_compute in Hr; discriminate.
Defined.

(** ** The content of one voxel *)

Lemma nth_add_at (i j : nat) (w : Q) (a : list Q) :
  (i < length a)%nat ->
  nth j (add_at i w a) 0 == nth j a 0 + (if (i =? j)%nat then w else 0).
Proof.
  revert i j. induction a as [|x t IH]; intros i j Hi; simpl in Hi; [lia|].
  destruct i as [|i], j as [|j]; simpl; try ring.
  apply IH. lia.
Qed.

Lemma nth_add (a b : list Q) (j : nat) :
  length a = length b -> nth j (add a b) 0 == nth j a 0 + nth j b 0.
Proof.
  revert b j. induction a as [|x t IH]; intros [|y u] j H; try discriminate.
  - destruct j; simpl; ring.
  - injection H as H. destruct j; cbn; [reflexivity|]. apply (IH u j H).
Qed.

Lemma histogram_fold_voxel (bins : nat * nat * nat)
    (rng : axis_range * axis_range * axis_range) (l : list (Q * Q * Q * Q))
    (h : list Q) (j : nat) :
  bins_ok bins rng -> length h = size3 bins ->
  nth j (fold_left (histogram_step bins rng) l h) 0 ==
  nth j h 0 + Np.sum (map snd (filter (fun sw => lands_in bins rng j (fst sw)) l)).
Proof.
  intro Hok. revert h. induction l as [|sw t IH]; intros h Hh; simpl.
  - ring.
  - unfold histogram_step at 2, lands_in at 1.
    destruct (voxel_index bins rng (fst sw)) as [i|] eqn:E.
    + rewrite IH by now rewrite add_at_length.
      rewrite nth_add_at by (rewrite Hh; eapply voxel_index_bound; eassumption).
      destruct (i =? j)%nat; simpl; ring.
    + apply IH, Hh.
Qed.

Lemma histogramdd_voxel (coord : list (Q * Q * Q)) (bins : nat * nat * nat)
    (rng : axis_range * axis_range * axis_range) (wts h : list Q) (j : nat) :
  histogramdd coord bins rng wts = Some h ->
  nth j h 0 == voxel_weight bins rng j coord wts.
Proof.
  intro H. apply histogramdd_inv in H. destruct H as (Hok & _ & ->).
  rewrite histogram_fold_voxel by (trivial; apply repeat_length).
  rewrite nth_repeat. unfold voxel_weight. ring.
Qed.

Section VoxelContent.

Variables all_sci all_ivar all_wghts : list Q.
Variable all_spatid : list Z.
Variable bins : voxedges.
Variables n m : Z.
Variable all_idx : list Z.
Variable rng : axis_range * axis_range * axis_range.
Variable grid : list (Q * Q).
Variable a : Q.

Let sz := size3 (outshape bins).
Let histograms := slit_histograms all_sci all_ivar all_wghts all_spatid bins n m all_idx rng grid a.
Let body := loop_body all_sci all_ivar all_wghts all_spatid bins n m all_idx rng grid a.
Let sums := slit_voxel_sums all_sci all_ivar all_wghts all_spatid all_idx bins n m rng grid a.

Lemma slit_histograms_inv (it : nat * frame * nat * Z) (hf hv hn : list Q) :
  histograms it = Some (hf, hv, hn) ->
  exists this_sl coord wf wv wn,
    slit_subpixels all_spatid all_idx grid it = Some (this_sl, coord) /\
    slit_weights all_sci (all_var all_ivar) (all_wght_subpix all_wghts a)
                 this_sl (num_subpixels n m) = Some (wf, wv, wn) /\
    histogramdd coord (outshape bins) rng wf = Some hf /\
    histogramdd coord (outshape bins) rng wv = Some hv /\
    histogramdd coord (outshape bins) rng wn = Some hn.
Proof.
  destruct it as [[[fr this] sl] spatid].
  unfold histograms, slit_histograms, slit_subpixels.
  destruct (select_slit all_spatid all_idx spatid fr) as [this_sl|]; [|discriminate].
  destruct (vox_coord this sl this_sl grid) as [coord|]; [|discriminate].
  destruct (slit_weights _ _ _ _ _) as [[[wf wv] wn]|] eqn:Ew; [|discriminate].
  destruct (histogramdd coord (outshape bins) rng wf) as [hf'|] eqn:Ef; [|discriminate].
  destruct (histogramdd coord (outshape bins) rng wv) as [hv'|] eqn:Ev; [|discriminate].
  destruct (histogramdd coord (outshape bins) rng wn) as [hn'|] eqn:En; [|discriminate].
  intro H. inversion H. subst. exists this_sl, coord, wf, wv, wn. auto.
Qed.

Lemma slit_histograms_voxel (it : nat * frame * nat * Z) (hf hv hn : list Q) (j : nat) :
  histograms it = Some (hf, hv, hn) ->
  length hf = sz /\ length hv = sz /\ length hn = sz /\
  nth j hf 0 == fst (fst (sums j it)) /\
  nth j hv 0 == snd (fst (sums j it)) /\
  nth j hn 0 == snd (sums j it).
Proof.
  intro H. apply slit_histograms_inv in H.
  destruct H as (this_sl & coord & wf & wv & wn & Hs & Hw & Hf & Hv & Hn).
  unfold sums, slit_voxel_sums, slit_contributions. rewrite Hs, Hw. cbn [fst snd].
  pose proof (histogramdd_sum _ _ _ _ _ Hf) as (Lf & _).
  pose proof (histogramdd_sum _ _ _ _ _ Hv) as (Lv & _).
  pose proof (histogramdd_sum _ _ _ _ _ Hn) as (Ln & _).
  repeat split; trivial; now apply histogramdd_voxel.
Qed.

Lemma loop_voxel (order : list (nat * frame * nat * Z)) (st acc : accumulators) (j : nat) :
  length (fst (fst st)) = sz -> length (snd (fst st)) = sz -> length (snd st) = sz ->
  fold_left body order (Some st) = Some acc ->
  nth j (fst (fst acc)) 0 ==
    nth j (fst (fst st)) 0 + Np.sum (map (fun it => fst (fst (sums j it))) order) /\
  nth j (snd (fst acc)) 0 ==
    nth j (snd (fst st)) 0 + Np.sum (map (fun it => snd (fst (sums j it))) order) /\
  nth j (snd acc) 0 ==
    nth j (snd st) 0 + Np.sum (map (fun it => snd (sums j it)) order).
Proof.
  revert st. induction order as [|it t IH]; intros [[F V] N] LF LV LN H.
  - simpl in *. inversion H. subst acc. simpl. repeat split; ring.
  - change (fold_left body t (body (Some (F, V, N)) it) = Some acc) in H.
    cbn [fst snd] in LF, LV, LN.
    assert (Eb : body (Some (F, V, N)) it =
                 match histograms it with
                 | Some (hf, hv, hn) => Some (add F hf, add V hv, add N hn)
                 | None => None
                 end) by reflexivity.
    rewrite Eb in H. clear Eb.
    destruct (histograms it) as [[[hf hv] hn]|] eqn:Eh.
    2:{ exfalso. clear - H. induction t; simpl in H; [discriminate|auto]. }
    destruct (slit_histograms_voxel it hf hv hn j Eh) as (Lf & Lv & Ln & Sf & Sv & Sn).
    apply IH in H; cbn [fst snd]; try (rewrite add_length; lia).
    destruct H as (A1 & A2 & A3). cbn [fst snd] in A1, A2, A3.
    cbn [fst snd map Np.sum].
    rewrite A1, A2, A3, !nth_add by lia. rewrite Sf, Sv, Sn.
    repeat split; ring.
Qed.

End VoxelContent.

(** X6: when the accumulation of [subpixellate] completes, voxel [j] of
    the flux (variance, normalisation) cube holds the sum, over the loop
    iterations, of the flux (variance, normalisation) weights of exactly those
    sub-pixels whose coordinate is counted in voxel [j]. *)
Theorem accumulated_voxel_content (all_sci all_ivar all_wghts : list Q)
    (all_spatid : list Z) (bins : voxedges) (n m : Z) (args : collaborators)
    (all_idx : option (list Z)) (F V N : list Q) :
  accumulate all_sci all_ivar all_wghts all_spatid bins n m args all_idx = Some (F, V, N) ->
  exists frames idx rng grid a,
    frame_setup all_sci args all_idx = Some (frames, idx) /\
    binrng bins = Some rng /\ subgrid n m = Some grid /\ area n m = Some a /\
    forall j,
      let sums := slit_voxel_sums all_sci all_ivar all_wghts all_spatid idx bins n m
                                  rng grid a j in
      nth j F 0 == Np.sum (map (fun it => fst (fst (sums it))) (frame_slit_pairs frames)) /\
      nth j V 0 == Np.sum (map (fun it => snd (fst (sums it))) (frame_slit_pairs frames)) /\
      nth j N 0 == Np.sum (map (fun it => snd (sums it)) (frame_slit_pairs frames)).
Proof.
  intro H. apply accumulate_inv in H. destruct H as (frames & idx & Hset & H).
  apply accumulate_in_inv in H. destruct H as (rng & grid & a & Hr & Hg & Ha & H).
  exists frames, idx, rng, grid, a. repeat split; trivial;
    apply (loop_voxel all_sci all_ivar all_wghts all_spatid bins n m idx rng grid a
             _ _ _ j) in H; cbn [fst snd] in *; try apply repeat_length;
    destruct H as (A1 & A2 & A3); rewrite nth_repeat in *.
  - rewrite A1. ring.
  - rewrite A2. ring.
  - rewrite A3. ring.
Qed.

Lemma accumulated_voxel_content_witness :
  exists N,
    option_map snd
      (accumulate [10; 20] [4; 1] [3; 1] [7%Z; 7%Z]
                  (bin_edges 1, bin_edges 1, bin_edges 2) 2 1 (Single ramp_frame) None)
    = Some N /\ nth 1 N 0 == 1.
Proof.
  destruct (accumulate [10; 20] [4; 1] [3; 1] [7%Z; 7%Z]
              (bin_edges 1, bin_edges 1, bin_edges 2) 2 1 (Single ramp_frame) None)
    as [[[F V] N]|] eqn:E; [|vm_compute in E; discriminate].
  exists N. split; [reflexivity|].
  destruct (accumulated_voxel_content _ _ _ _ _ _ _ _ _ F V N E)
    as (frames & idx & rng & grid & a & Hset & Hr & Hg & Ha & Hj).
  inversion Hset. subst frames idx. clear Hset.
  vm_compute in Hr, Hg, Ha. inversion Hr. inversion Hg. inversion Ha. subst rng grid a.
  destruct (Hj 1%nat) as (_ & _ & HN). rewrite HN. vm_compute. reflexivity.
Defined.

(** ** Sign and range of a voxel's content *)

Lemma sum_nonneg (l : list Q) : Forall (fun x => 0 <= x) l -> 0 <= Np.sum l.
Proof.
  induction 1 as [|x t Hx _ IH]; simpl; [apply Qle_refl|]. lra.
Qed.

Lemma sum_positive (l : list Q) (x : Q) :
  Forall (fun y => 0 <= y) l -> In x l -> 0 < x -> 0 < Np.sum l.
Proof.
  induction 1 as [|y t Hy Ht IH]; intros Hin Hx; simpl in *; [contradiction|].
  pose proof (sum_nonneg t Ht). destruct Hin as [->|Hin]; [lra|].
  specialize (IH Hin Hx). lra.
Qed.

Lemma sum_all_zero (l : list Q) : Forall (fun x => x == 0) l -> Np.sum l == 0.
Proof.
  induction 1 as [|x t Hx _ IH]; simpl; [reflexivity|]. rewrite Hx, IH. ring.
Qed.

Lemma sum_nonzero (l : list Q) : ~ Np.sum l == 0 -> exists x, In x l /\ ~ x == 0.
Proof.
  induction l as [|x t IH]; simpl; intro H; [exfalso; apply H; reflexivity|].
  destruct (Qeq_dec x 0) as [E|E].
  - destruct IH as (y & Hy & Hn); [intro E'; apply H; rewrite E, E'; ring|].
    exists y. auto.
  - exists x. auto.
Qed.

Lemma sum_between (lo hi : Q) (f w : list Q) :
  Forall2 (fun x y => lo * y <= x <= hi * y) f w ->
  lo * Np.sum w <= Np.sum f <= hi * Np.sum w.
Proof.
  induction 1 as [|x y f' w' Hxy _ IH]; simpl; [lra|]. lra.
Qed.

Lemma np_repeat_Forall (P : Q -> Prop) (a : list Q) (k : nat) :
  Forall P a -> Forall P (np_repeat a k).
Proof.
  unfold np_repeat. induction 1 as [|x t Hx _ IH]; simpl; [constructor|].
  apply Forall_app. split; [|exact IH].
  apply Forall_forall. intros y Hy. apply repeat_spec in Hy. now subst.
Qed.

Lemma np_repeat_Forall2 (R : Q -> Q -> Prop) (a b : list Q) (k : nat) :
  Forall2 R a b -> Forall2 R (np_repeat a k) (np_repeat b k).
Proof.
  unfold np_repeat. induction 1 as [|x y a' b' Hxy _ IH]; simpl; [constructor|].
  apply Forall2_app; [|exact IH].
  clear - Hxy. induction k; simpl; constructor; trivial.
Qed.

Lemma voxel_weight_nonneg (bins : nat * nat * nat)
    (rng : axis_range * axis_range * axis_range) (j : nat)
    (coord : list (Q * Q * Q)) (wts : list Q) :
  Forall (fun w => 0 <= w) wts -> 0 <= voxel_weight bins rng j coord wts.
Proof.
  intro H. unfold voxel_weight. apply sum_nonneg.
  apply Forall_forall. intros w Hw. apply in_map_iff in Hw.
  destruct Hw as ([p w'] & <- & Hin). apply filter_In in Hin. destruct Hin as [Hin _].
  apply in_combine_r in Hin. rewrite Forall_forall in H. now apply H.
Qed.

Lemma voxel_weight_hit (bins : nat * nat * nat)
    (rng : axis_range * axis_range * axis_range) (j : nat)
    (coord : list (Q * Q * Q)) (wts : list Q) (p : Q * Q * Q) :
  Forall (fun w => 0 < w) wts -> length coord = length wts ->
  In p coord -> lands_in bins rng j p = true ->
  0 < voxel_weight bins rng j coord wts.
Proof.
  revert wts. induction coord as [|c t IH]; intros [|w u] Hpos Hlen Hin Hl;
    try discriminate; simpl in Hin; [contradiction|].
  inversion Hpos as [|? ? Hw Hu]; subst. injection Hlen as Hlen.
  assert (Hn : 0 <= voxel_weight bins rng j t u).
  { apply voxel_weight_nonneg. eapply Forall_impl; [|exact Hu].
    intros; now apply Qlt_le_weak. }
  unfold voxel_weight in *. cbn [combine filter fst].
  destruct Hin as [->|Hin].
  - rewrite Hl. cbn [map snd Np.sum]. lra.
  - specialize (IH u Hu Hlen Hin Hl).
    destruct (lands_in bins rng j c); cbn [map snd Np.sum]; lra.
Qed.

Lemma voxel_weight_miss (bins : nat * nat * nat)
    (rng : axis_range * axis_range * axis_range) (j : nat)
    (coord : list (Q * Q * Q)) (wts : list Q) :
  (forall p, In p coord -> lands_in bins rng j p = false) ->
  voxel_weight bins rng j coord wts == 0.
Proof.
  revert wts. induction coord as [|c t IH]; intros [|w u] H; try reflexivity.
  unfold voxel_weight in *. cbn [combine filter fst].
  rewrite (H c) by now left. apply IH. intros p Hp. apply H. now right.
Qed.

Lemma voxel_weight_nonzero (bins : nat * nat * nat)
    (rng : axis_range * axis_range * axis_range) (j : nat)
    (coord : list (Q * Q * Q)) (wts : list Q) :
  ~ voxel_weight bins rng j coord wts == 0 ->
  exists p, In p coord /\ lands_in bins rng j p = true.
Proof.
  unfold voxel_weight. intro H.
  destruct (filter (fun sw => lands_in bins rng j (fst sw)) (combine coord wts))
    as [|[p w] t] eqn:E; [exfalso; apply H; reflexivity|].
  assert (Hin : In (p, w) (filter (fun sw => lands_in bins rng j (fst sw))
                                  (combine coord wts))) by (rewrite E; now left).
  apply filter_In in Hin. destruct Hin as [Hin Hl].
  exists p. split; [eapply in_combine_l; eassumption|exact Hl].
Qed.

Lemma voxel_weight_between (bins : nat * nat * nat)
    (rng : axis_range * axis_range * axis_range) (j : nat)
    (coord : list (Q * Q * Q)) (lo hi : Q) (wf wn : list Q) :
  Forall2 (fun x y => lo * y <= x <= hi * y) wf wn ->
  lo * voxel_weight bins rng j coord wn <= voxel_weight bins rng j coord wf
    <= hi * voxel_weight bins rng j coord wn.
Proof.
  intro H. revert coord. unfold voxel_weight.
  induction H as [|x y f' w' Hxy _ IH]; intros [|c t]; cbn [combine filter map Np.sum];
    try lra.
  cbn [fst]. specialize (IH t).
  destruct (lands_in bins rng j c); cbn [map snd Np.sum]; lra.
Qed.

Lemma inverse_nonneg (a : Q) : 0 <= a -> 0 <= inverse a.
Proof.
  intro H. unfold inverse. destruct (Qeq_bool a 0) eqn:E; [apply Qle_refl|].
  apply Qeq_bool_false in E.
  assert (0 < a) by (destruct (Qlt_le_dec 0 a) as [|L]; trivial;
                     exfalso; apply E; lra).
  unfold Qdiv. rewrite Qmult_1_l. apply Qlt_le_weak, Qinv_lt_0_compat. assumption.
Qed.

Lemma inverse_positive (a : Q) : 0 < a -> inverse a == / a /\ 0 < inverse a.
Proof.
  intro H. unfold inverse. destruct (Qeq_bool a 0) eqn:E.
  - apply Qeq_bool_iff in E. lra.
  - unfold Qdiv. rewrite Qmult_1_l. split; [reflexivity|].
    now apply Qinv_lt_0_compat.
Qed.

Lemma square_nonneg (x : Q) : 0 <= x ^ 2.
Proof. simpl. nra. Qed.

Section VoxelSign.

Variables all_sci all_ivar all_wghts : list Q.
Variable all_spatid : list Z.
Variable bins : voxedges.
Variables n m : Z.
Variable all_idx : list Z.
Variable rng : axis_range * axis_range * axis_range.
Variable grid : list (Q * Q).
Variable a : Q.

Hypothesis area_ok : area n m = Some a.

Let sz := size3 (outshape bins).
Let histograms := slit_histograms all_sci all_ivar all_wghts all_spatid bins n m all_idx rng grid a.
Let body := loop_body all_sci all_ivar all_wghts all_spatid bins n m all_idx rng grid a.
Let contributions := slit_contributions all_sci all_ivar all_wghts all_spatid all_idx n m grid a.
Let sums := slit_voxel_sums all_sci all_ivar all_wghts all_spatid all_idx bins n m rng grid a.

(** The weight arrays of an iteration, pixel by pixel. *)
Lemma contributions_inv (it : nat * frame * nat * Z) (coord : list (Q * Q * Q))
    (wf wv wn : list Q) :
  contributions it = Some (coord, (wf, wv, wn)) ->
  exists this_sl,
    slit_subpixels all_spatid all_idx grid it = Some (this_sl, coord) /\
    0 < a /\
    let reps := Z.to_nat (num_subpixels n m) in
    let w := map (fun i => nth i all_wghts 0 * a) this_sl in
    Forall (fun i => (i < length all_wghts)%nat) this_sl /\
    Forall (fun i => (i < length all_sci)%nat) this_sl /\
    wf = np_repeat (mul (map (fun i => nth i all_sci 0) this_sl) w) reps /\
    wv = np_repeat (mul (map (fun i => inverse (nth i all_ivar 0)) this_sl)
                        (map (fun x => x ^ 2) w)) reps /\
    wn = np_repeat w reps.
Proof.
  unfold contributions, slit_contributions.
  destruct (slit_subpixels all_spatid all_idx grid it) as [[this_sl coord']|]; [|discriminate].
  cbn. destruct (slit_weights _ _ _ _ _) as [[[wf' wv'] wn']|] eqn:Ew; [|discriminate].
  intro H. inversion H. subst. clear H.
  apply slit_weights_inv in Ew.
  destruct Ew as (s & v & w & Hs & Hv & Hw & Hnum & -> & -> & ->).
  apply (take_id _ _ _ 0) in Hs. destruct Hs as [-> Hins].
  unfold all_var in Hv. apply (take_map _ _ _ _ 0) in Hv. destruct Hv as [-> _].
  unfold all_wght_subpix in Hw. apply (take_map _ _ _ _ 0) in Hw.
  destruct Hw as [-> Hin].
  exists this_sl. split; [reflexivity|].
  destruct (area_value _ _ _ area_ok) as [Hnz ->].
  split; [|cbv zeta; auto].
  unfold num_subpixels in Hnum. unfold Qdiv. rewrite Qmult_1_l.
  apply Qinv_lt_0_compat. change 0 with (inject_Z 0). rewrite <- Zlt_Qlt. lia.
Qed.

Lemma contributions_of_histograms (it : nat * frame * nat * Z) (h : accumulators) :
  histograms it = Some h ->
  exists coord wf wv wn,
    contributions it = Some (coord, (wf, wv, wn)) /\ length coord = length wn.
Proof.
  destruct h as [[hf hv] hn]. intro H. apply slit_histograms_inv in H.
  destruct H as (this_sl & coord & wf & wv & wn & Hs & Hw & _ & _ & Hn).
  exists coord, wf, wv, wn. unfold contributions, slit_contributions.
  rewrite Hs. cbn. rewrite Hw. split; [reflexivity|].
  now apply histogramdd_inv in Hn.
Qed.

Lemma loop_all_some (order : list (nat * frame * nat * Z)) (st acc : accumulators) :
  fold_left body order (Some st) = Some acc ->
  forall it, In it order -> exists h, histograms it = Some h.
Proof.
  revert st. induction order as [|x t IH]; intros [[F V] N] H it Hin; [contradiction|].
  change (fold_left body t (body (Some (F, V, N)) x) = Some acc) in H.
  assert (Eb : body (Some (F, V, N)) x =
               match histograms x with
               | Some (hf, hv, hn) => Some (add F hf, add V hv, add N hn)
               | None => None
               end) by reflexivity.
  rewrite Eb in H. clear Eb.
  destruct (histograms x) as [[[hf hv] hn]|] eqn:Eh.
  2:{ exfalso. clear - H. induction t; simpl in H; [discriminate|auto]. }
  destruct Hin as [<-|Hin]; [eauto|]. eapply IH; eassumption.
Qed.

(** Normalisation: never negative for non-negative weights. *)
Lemma norm_sum_nonneg (j : nat) (it : nat * frame * nat * Z) :
  Forall (fun w => 0 <= w) all_wghts -> 0 <= snd (sums j it).
Proof.
  intro Hw. unfold sums, slit_voxel_sums.
  fold contributions.
  destruct (contributions it) as [[coord [[wf wv] wn]]|] eqn:E; cbn [fst snd]; [|lra].
  apply contributions_inv in E.
  destruct E as (this_sl & _ & Ha & Hin & _ & _ & _ & ->).
  apply voxel_weight_nonneg, np_repeat_Forall.
  apply Forall_forall. intros w Hi. apply in_map_iff in Hi.
  destruct Hi as (i & <- & Hi). rewrite Forall_forall in Hin. specialize (Hin i Hi).
  rewrite Forall_forall in Hw. specialize (Hw _ (nth_In all_wghts 0 Hin)). nra.
Qed.

(** Flux: between [lo] and [hi] times the normalisation. *)
Lemma flux_sum_between (lo hi : Q) (j : nat) (it : nat * frame * nat * Z) :
  Forall (fun w => 0 <= w) all_wghts ->
  Forall (fun s => lo <= s <= hi) all_sci ->
  lo * snd (sums j it) <= fst (fst (sums j it)) <= hi * snd (sums j it).
Proof.
  intros Hw Hs. unfold sums, slit_voxel_sums.
  fold contributions.
  destruct (contributions it) as [[coord [[wf wv] wn]]|] eqn:E; cbn [fst snd]; [|lra].
  apply contributions_inv in E.
  destruct E as (this_sl & _ & Ha & Hin & Hins & -> & _ & ->).
  apply voxel_weight_between, np_repeat_Forall2.
  clear - Hw Hs Ha Hin Hins. unfold mul.
  induction this_sl as [|i t IH]; cbn [map combine]; constructor.
  - inversion Hin as [|? ? Hi _]; subst. inversion Hins as [|? ? Hi' _]; subst.
    cbn [fst snd].
    rewrite Forall_forall in Hw, Hs.
    specialize (Hw _ (nth_In all_wghts 0 Hi)).
    specialize (Hs _ (nth_In all_sci 0 Hi')).
    assert (0 <= nth i all_wghts 0 * a) by (apply Qmult_le_0_compat; lra).
    split; apply Qmult_le_compat_r; lra.
  - apply IH; [now inversion Hin|now inversion Hins].
Qed.

(** Variance: never negative for non-negative inverse variances. *)
Lemma var_sum_nonneg (j : nat) (it : nat * frame * nat * Z) :
  Forall (fun v => 0 <= v) all_ivar -> 0 <= snd (fst (sums j it)).
Proof.
  intro Hv. unfold sums, slit_voxel_sums.
  fold contributions.
  destruct (contributions it) as [[coord [[wf wv] wn]]|] eqn:E; cbn [fst snd]; [|lra].
  apply contributions_inv in E.
  destruct E as (this_sl & _ & Ha & Hin & _ & _ & -> & _).
  apply voxel_weight_nonneg, np_repeat_Forall.
  clear - Hv. unfold mul.
  induction this_sl as [|i t IH]; cbn [map combine]; constructor; [|exact IH].
  cbn [fst snd].
  assert (0 <= inverse (nth i all_ivar 0)).
  { apply inverse_nonneg. destruct (Nat.lt_ge_cases i (length all_ivar)) as [L|L].
    - rewrite Forall_forall in Hv. apply Hv, nth_In, L.
    - rewrite nth_overflow by lia. apply Qle_refl. }
  pose proof (square_nonneg (nth i all_wghts 0 * a)). nra.
Qed.

(** A voxel's normalisation is positive exactly when a sub-pixel lands in it. *)
Lemma norm_sum_hit (j : nat) (it : nat * frame * nat * Z)
    (this_sl : list nat) (coord : list (Q * Q * Q)) (p : Q * Q * Q) (h : accumulators) :
  Forall (fun w => 0 < w) all_wghts ->
  histograms it = Some h ->
  slit_subpixels all_spatid all_idx grid it = Some (this_sl, coord) ->
  In p coord -> lands_in (outshape bins) rng j p = true ->
  0 < snd (sums j it).
Proof.
  intros Hw Hh Hs Hp Hl. apply contributions_of_histograms in Hh.
  destruct Hh as (coord' & wf & wv & wn & E & Hlen).
  unfold sums, slit_voxel_sums. fold contributions. rewrite E. cbn [fst snd].
  apply contributions_inv in E.
  destruct E as (this_sl' & Hs' & Ha & Hin & _ & _ & _ & Hn).
  rewrite Hs in Hs'. inversion Hs'. subst this_sl' coord'. clear Hs'.
  apply (voxel_weight_hit _ _ _ _ _ p); trivial.
  rewrite Hn. apply np_repeat_Forall.
  apply Forall_forall. intros w Hi. apply in_map_iff in Hi.
  destruct Hi as (i & <- & Hi). rewrite Forall_forall in Hin. specialize (Hin i Hi).
  rewrite Forall_forall in Hw. specialize (Hw _ (nth_In all_wghts 0 Hin)). nra.
Qed.

Lemma norm_sum_nonzero (j : nat) (it : nat * frame * nat * Z) :
  ~ snd (sums j it) == 0 ->
  exists this_sl coord p,
    slit_subpixels all_spatid all_idx grid it = Some (this_sl, coord) /\
    In p coord /\ lands_in (outshape bins) rng j p = true.
Proof.
  unfold sums, slit_voxel_sums, slit_contributions.
  destruct (slit_subpixels all_spatid all_idx grid it) as [[this_sl coord]|] eqn:Es;
    cbn; [|intro H; exfalso; apply H; reflexivity].
  destruct (slit_weights _ _ _ _ _) as [[[wf wv] wn]|]; cbn [fst snd];
    [|intro H; exfalso; apply H; reflexivity].
  intro H. apply voxel_weight_nonzero in H. destruct H as (p & Hp & Hl).
  exists this_sl, coord, p. auto.
Qed.

Lemma norm_sum_miss (j : nat) (it : nat * frame * nat * Z) :
  (forall this_sl coord p,
     slit_subpixels all_spatid all_idx grid it = Some (this_sl, coord) ->
     In p coord -> lands_in (outshape bins) rng j p = false) ->
  snd (sums j it) == 0.
Proof.
  intro H. unfold sums, slit_voxel_sums, slit_contributions.
  destruct (slit_subpixels all_spatid all_idx grid it) as [[this_sl coord]|] eqn:Es;
    cbn; [|reflexivity].
  destruct (slit_weights _ _ _ _ _) as [[[wf wv] wn]|]; cbn [fst snd]; [|reflexivity].
  apply voxel_weight_miss. intros p Hp. eapply H; eauto.
Qed.

End VoxelSign.

(** The cubes [subpixellate] returns, voxel by voxel, in terms of the
    accumulated sums. *)
Lemma subpixellate_inv (all_sci all_ivar all_wghts : list Q) (all_spatid : list Z)
    (bins : voxedges) (n m : Z) (args : collaborators) (all_idx : option (list Z))
    (flx var : list Q) (bpm : list Z) :
  subpixellate all_sci all_ivar all_wghts all_spatid bins n m args all_idx
    = Some (flx, var, bpm) ->
  exists frames idx rng grid a F V N,
    frame_setup all_sci args all_idx = Some (frames, idx) /\
    binrng bins = Some rng /\ subgrid n m = Some grid /\ area n m = Some a /\
    fold_left (loop_body all_sci all_ivar all_wghts all_spatid bins n m idx rng grid a)
              (frame_slit_pairs frames)
              (Some (repeat 0 (size3 (outshape bins)), repeat 0 (size3 (outshape bins)),
                     repeat 0 (size3 (outshape bins)))) = Some (F, V, N) /\
    length flx = size3 (outshape bins) /\ length var = size3 (outshape bins) /\
    length bpm = size3 (outshape bins) /\
    forall j, (j < size3 (outshape bins))%nat ->
      let sums := slit_voxel_sums all_sci all_ivar all_wghts all_spatid idx bins n m
                                  rng grid a j in
      nth j F 0 == Np.sum (map (fun it => fst (fst (sums it))) (frame_slit_pairs frames)) /\
      nth j V 0 == Np.sum (map (fun it => snd (fst (sums it))) (frame_slit_pairs frames)) /\
      nth j N 0 == Np.sum (map (fun it => snd (sums it)) (frame_slit_pairs frames)) /\
      nth j flx 0 == nth j F 0 * inverse (nth j N 0) /\
      nth j var 0 == nth j V 0 * inverse (nth j N 0) ^ 2 /\
      nth j bpm 0%Z = (if Qeq_bool (nth j N 0) 0 then 1%Z else 0%Z).
Proof.
  unfold subpixellate. intro H.
  destruct (accumulate _ _ _ _ _ _ _ _ _) as [[[F V] N]|] eqn:E; [|discriminate].
  assert (H' : finalize (F, V, N) = (flx, var, bpm))
    by (cbn [option_map] in H; congruence).
  clear H. rename H' into H.
  apply accumulate_inv in E. destruct E as (frames & idx & Hset & E).
  pose proof (accumulate_in_shape _ _ _ _ _ _ _ _ _ _ _ _ E) as (LF & LV & LN).
  apply accumulate_in_inv in E. destruct E as (rng & grid & a & Hr & Hg & Ha & E).
  pose proof (finalize_entries F V N) as Hfin.
  rewrite H in Hfin. destruct Hfin as (L1 & L2 & L3 & Hent); try congruence.
  exists frames, idx, rng, grid, a, F, V, N.
  repeat match goal with |- _ /\ _ => split end; trivial; try congruence.
  intros j Hj. cbv zeta.
  pose proof E as E'.
  apply (loop_voxel all_sci all_ivar all_wghts all_spatid bins n m idx rng grid a
           _ _ _ j) in E'; cbn [fst snd] in *; try apply repeat_length.
  destruct E' as (A1 & A2 & A3). rewrite nth_repeat in A1, A2, A3.
  destruct (Hent j) as (B1 & B2 & B3); [lia|].
  repeat match goal with |- _ /\ _ => split end; trivial.
  - rewrite A1. ring.
  - rewrite A2. ring.
  - rewrite A3. ring.
Qed.

(** X7: with positive weights, the bad-pixel mask of [subpixellate] is 0 at
    exactly the voxels that some sub-pixel of some slit of some exposure is
    counted in, and 1 at exactly the voxels that receive no sub-pixel. *)
Theorem bad_pixel_mask_marks_empty_voxels (all_sci all_ivar all_wghts : list Q)
    (all_spatid : list Z) (bins : voxedges) (n m : Z) (args : collaborators)
    (all_idx : option (list Z)) (flx var : list Q) (bpm : list Z) :
  Forall (fun w => 0 < w) all_wghts ->
  subpixellate all_sci all_ivar all_wghts all_spatid bins n m args all_idx
    = Some (flx, var, bpm) ->
  exists frames idx rng grid,
    frame_setup all_sci args all_idx = Some (frames, idx) /\
    binrng bins = Some rng /\ subgrid n m = Some grid /\
    length bpm = size3 (outshape bins) /\
    forall j, (j < size3 (outshape bins))%nat ->
      (nth j bpm 0%Z = 0%Z <->
         voxel_hit all_spatid idx bins rng grid (frame_slit_pairs frames) j) /\
      (nth j bpm 0%Z = 1%Z <->
         ~ voxel_hit all_spatid idx bins rng grid (frame_slit_pairs frames) j).
Proof.
  intros Hw H. apply subpixellate_inv in H.
  destruct H as (frames & idx & rng & grid & a & F & V & N & Hset & Hr & Hg & Ha & Hloop
                 & _ & _ & Lb & Hent).
  exists frames, idx, rng, grid. split; [exact Hset|]. split; [exact Hr|].
  split; [exact Hg|]. split; [exact Lb|]. intros j Hj.
  destruct (Hent j Hj) as (_ & _ & HN & _ & _ & Hb). cbv zeta in HN.
  set (order := frame_slit_pairs frames) in *.
  set (sums := slit_voxel_sums all_sci all_ivar all_wghts all_spatid idx bins n m
                               rng grid a j) in *.
  assert (Hnn : Forall (fun x => 0 <= x) (map (fun it => snd (sums it)) order)).
  { apply Forall_forall. intros x Hx. apply in_map_iff in Hx.
    destruct Hx as (it & <- & _).
    apply (norm_sum_nonneg all_sci all_ivar all_wghts all_spatid bins n m idx rng
             grid a Ha).
    eapply Forall_impl; [|exact Hw]. intros; now apply Qlt_le_weak. }
  assert (Hhit : voxel_hit all_spatid idx bins rng grid order j -> 0 < nth j N 0).
  { intros (it & this_sl & coord & p & Hin & Hs & Hp & Hl).
    rewrite HN.
    destruct (loop_all_some _ _ _ _ _ _ _ _ _ _ _ _ _ _ Hloop it Hin) as [h Hh].
    apply (sum_positive _ (snd (sums it))); trivial.
    - apply in_map_iff. exists it. auto.
    - eapply (norm_sum_hit all_sci all_ivar all_wghts all_spatid bins n m idx rng grid a Ha);
        eassumption. }
  assert (Hnz : ~ nth j N 0 == 0 -> voxel_hit all_spatid idx bins rng grid order j).
  { intro Hne. rewrite HN in Hne. apply sum_nonzero in Hne.
    destruct Hne as (x & Hx & Hne). apply in_map_iff in Hx.
    destruct Hx as (it & <- & Hin).
    apply norm_sum_nonzero in Hne. destruct Hne as (this_sl & coord & p & Hs & Hp & Hl).
    exists it, this_sl, coord, p. auto. }
  rewrite Hb. destruct (Qeq_bool (nth j N 0) 0) eqn:E.
  - apply Qeq_bool_iff in E. split; split; try discriminate; trivial.
    + intro Hh. apply Hhit in Hh. lra.
    + intros _ Hh. apply Hhit in Hh. lra.
  - apply Qeq_bool_false in E. split; split; try discriminate; auto.
    intro Hno. exfalso. apply Hno, Hnz, E.
Qed.

Ltac forall_Q :=
  repeat first [apply Forall_nil | apply Forall_cons];
  try split; unfold Qle, Qlt; cbn; lia.

Lemma bad_pixel_mask_marks_empty_voxels_witness :
  exists frames idx rng grid,
    frame_setup [10; 20] (Single ramp_frame) None = Some (frames, idx) /\
    binrng (bin_edges 1, bin_edges 1, bin_edges 3) = Some rng /\
    subgrid 2 1 = Some grid /\
    ~ voxel_hit [7%Z; 7%Z] idx (bin_edges 1, bin_edges 1, bin_edges 3) rng grid
        (frame_slit_pairs frames) 2.
Proof.
  destruct (subpixellate [10; 20] [4; 1] [3; 1] [7%Z; 7%Z]
              (bin_edges 1, bin_edges 1, bin_edges 3) 2 1 (Single ramp_frame) None)
    as [[[flx var] bpm]|] eqn:E; [|vm_compute in E; discriminate].
  destruct (bad_pixel_mask_marks_empty_voxels _ _ [3; 1] _ _ _ _ _ _ flx var bpm
              ltac:(forall_Q) E)
    as (frames & idx & rng & grid & Hset & Hr & Hg & _ & Hj).
  exists frames, idx, rng, grid. split; [exact Hset|]. split; [exact Hr|].
  split; [exact Hg|].
  destruct (Hj 2%nat) as [_ [Hm _]]; [vm_compute; lia|].
  apply Hm. vm_compute in E. inversion E. reflexivity.
Defined.

(** X8: with non-negative weights, every voxel of the flux cube that the
    bad-pixel mask leaves unmasked holds a weighted mean of input fluxes: it
    lies between any two bounds that enclose all the values of [all_sci]. *)
Theorem flux_cube_within_input_range (all_sci all_ivar all_wghts : list Q)
    (all_spatid : list Z) (bins : voxedges) (n m : Z) (args : collaborators)
    (all_idx : option (list Z)) (flx var : list Q) (bpm : list Z) (lo hi : Q) (j : nat) :
  Forall (fun w => 0 <= w) all_wghts ->
  Forall (fun s => lo <= s <= hi) all_sci ->
  subpixellate all_sci all_ivar all_wghts all_spatid bins n m args all_idx
    = Some (flx, var, bpm) ->
  (j < size3 (outshape bins))%nat -> nth j bpm 0%Z = 0%Z ->
  lo <= nth j flx 0 <= hi.
Proof.
  intros Hw Hs H Hj Hb. apply subpixellate_inv in H.
  destruct H as (frames & idx & rng & grid & a & F & V & N & Hset & Hr & Hg & Ha & Hloop
                 & _ & _ & Lb & Hent).
  destruct (Hent j Hj) as (HF & _ & HN & Hflx & _ & Hbpm). cbv zeta in HF, HN.
  set (order := frame_slit_pairs frames) in *.
  set (sums := slit_voxel_sums all_sci all_ivar all_wghts all_spatid idx bins n m
                               rng grid a j) in *.
  assert (Hnn : 0 <= nth j N 0).
  { rewrite HN. apply sum_nonneg, Forall_forall. intros x Hx. apply in_map_iff in Hx.
    destruct Hx as (it & <- & _).
    now apply (norm_sum_nonneg all_sci all_ivar all_wghts all_spatid bins n m idx rng
                 grid a Ha). }
  assert (Hbt : lo * nth j N 0 <= nth j F 0 <= hi * nth j N 0).
  { rewrite HN, HF. apply sum_between.
    clear - Hw Hs Ha. induction order as [|it t IH]; cbn [map]; constructor; trivial.
    now apply (flux_sum_between all_sci all_ivar all_wghts all_spatid bins n m idx rng
                 grid a Ha). }
  rewrite Hbpm in Hb. destruct (Qeq_bool (nth j N 0) 0) eqn:E; [discriminate|].
  apply Qeq_bool_false in E.
  assert (Hpos : 0 < nth j N 0)
    by (destruct (Qlt_le_dec 0 (nth j N 0)) as [|L]; trivial; exfalso; apply E; lra).
  destruct (inverse_positive _ Hpos) as [Einv Hinv].
  rewrite Hflx.
  assert (Hone : nth j N 0 * inverse (nth j N 0) == 1)
    by (rewrite Einv; apply Qmult_inv_r; lra).
  set (Fj := nth j F 0) in *. set (Nj := nth j N 0) in *. set (r := inverse Nj) in *.
  split.
  - setoid_replace lo with (lo * Nj * r) by (rewrite <- Qmult_assoc, Hone; ring).
    apply Qmult_le_compat_r; lra.
  - setoid_replace hi with (hi * Nj * r) by (rewrite <- Qmult_assoc, Hone; ring).
    apply Qmult_le_compat_r; lra.
Qed.

Lemma flux_cube_within_input_range_witness :
  exists flx,
    option_map (fun r => fst (fst r))
      (subpixellate [10; 20] [4; 1] [3; 1] [7%Z; 7%Z]
                    (bin_edges 1, bin_edges 1, bin_edges 3) 2 1 (Single ramp_frame) None)
    = Some flx /\ 10 <= nth 1 flx 0 <= 20.
Proof.
  destruct (subpixellate [10; 20] [4; 1] [3; 1] [7%Z; 7%Z]
              (bin_edges 1, bin_edges 1, bin_edges 3) 2 1 (Single ramp_frame) None)
    as [[[flx var] bpm]|] eqn:E; [|vm_compute in E; discriminate].
  exists flx. split; [reflexivity|].
  apply (flux_cube_within_input_range [10; 20] _ [3; 1] _ _ _ _ _ _ flx var bpm 10 20 1%nat
           ltac:(forall_Q) ltac:(forall_Q) E).
  - vm_compute. lia.
  - vm_compute in E. inversion E. reflexivity.
Defined.

(** X9: when no inverse variance is negative, no voxel of the variance cube
    [subpixellate] returns is negative, whatever the signs of the weights. *)
Theorem variance_cube_nonnegative (all_sci all_ivar all_wghts : list Q)
    (all_spatid : list Z) (bins : voxedges) (n m : Z) (args : collaborators)
    (all_idx : option (list Z)) (flx var : list Q) (bpm : list Z) :
  Forall (fun v => 0 <= v) all_ivar ->
  subpixellate all_sci all_ivar all_wghts all_spatid bins n m args all_idx
    = Some (flx, var, bpm) ->
  Forall (fun v => 0 <= v) var.
Proof.
  intros Hv H. apply subpixellate_inv in H.
  destruct H as (frames & idx & rng & grid & a & F & V & N & Hset & Hr & Hg & Ha & Hloop
                 & _ & Lv & _ & Hent).
  apply Forall_forall. intros v Hin. apply (In_nth _ _ 0) in Hin.
  destruct Hin as (j & Hj & <-). rewrite Lv in Hj.
  destruct (Hent j Hj) as (_ & HV & _ & _ & Hvar & _). cbv zeta in HV.
  rewrite Hvar.
  assert (0 <= nth j V 0).
  { rewrite HV. apply sum_nonneg, Forall_forall. intros x Hx. apply in_map_iff in Hx.
    destruct Hx as (it & <- & _).
    now apply (var_sum_nonneg all_sci all_ivar all_wghts all_spatid bins n m idx rng
                 grid a Ha). }
  apply Qmult_le_0_compat; [assumption|apply square_nonneg].
Qed.

Lemma variance_cube_nonnegative_witness :
  exists var,
    option_map (fun r => snd (fst r))
      (subpixellate [10; 20] [4; 1] [3; - (1)] [7%Z; 7%Z]
                    (bin_edges 1, bin_edges 1, bin_edges 3) 2 1 (Single ramp_frame) None)
    = Some var /\ Forall (fun v => 0 <= v) var.
Proof.
  destruct (subpixellate [10; 20] [4; 1] [3; - (1)] [7%Z; 7%Z]
              (bin_edges 1, bin_edges 1, bin_edges 3) 2 1 (Single ramp_frame) None)
    as [[[flx var] bpm]|] eqn:E; [|vm_compute in E; discriminate].
  exists var. split; [reflexivity|].
  exact (variance_cube_nonnegative _ [4; 1] _ _ _ _ _ _ _ flx var bpm
           ltac:(forall_Q) E).
Defined.

(** ** When [subpixellate] raises and when it returns *)

Lemma divide_by_zero (a : Q) : Np.divide a (inject_Z 0) = None.
Proof. reflexivity. Qed.

Lemma subgrid_zero (n m : Z) : n = 0%Z \/ m = 0%Z -> subgrid n m = None.
Proof.
  unfold subgrid, subpixel_offsets. intros [-> | ->].
  - reflexivity.
  - destruct (Np.divide (1 # 2) (inject_Z n)); [|reflexivity].
    destruct (Np.divide 1 (inject_Z n)); reflexivity.
Qed.

Lemma binrng_empty (bins : voxedges) :
  fst (fst bins) = [] \/ snd (fst bins) = [] \/ snd bins = [] -> binrng bins = None.
Proof.
  destruct bins as [[b0 b1] b2]. cbn [fst snd]. unfold binrng.
  intros [-> | [-> | ->]]; [reflexivity| |].
  - destruct (edge_range b0); reflexivity.
  - destruct (edge_range b0); [|reflexivity]. destruct (edge_range b1); reflexivity.
Qed.

Lemma edge_range_some (b : list Q) : b <> [] -> exists r, edge_range b = Some r.
Proof.
  intro H. unfold edge_range. destruct b as [|x t]; [contradiction|]. cbn [hd_error].
  destruct (rev (x :: t)) as [|y u] eqn:E.
  - apply (f_equal (@length Q)) in E. rewrite length_rev in E. discriminate.
  - cbn. eauto.
Qed.

Lemma subpixel_offsets_some (n : Z) : n <> 0%Z -> exists o, subpixel_offsets n = Some o.
Proof.
  intro H. unfold subpixel_offsets, Np.divide.
  destruct (Qeq_bool (inject_Z n) 0) eqn:E.
  - apply Qeq_bool_iff in E. exfalso. revert E. now apply inject_Z_nonzero.
  - cbn. eauto.
Qed.

Lemma frame_slit_pairs_empty (frames : list frame) :
  Forall (fun f => spat_id f = []) frames -> frame_slit_pairs frames = [].
Proof.
  intro H. unfold frame_slit_pairs.
  assert (G : forall l : list (nat * frame),
             (forall ff, In ff l -> spat_id (snd ff) = []) ->
             flat_map (fun ff =>
                         map (fun ss => (fst ff, snd ff, fst ss, snd ss))
                             (combine (seq 0 (length (spat_id (snd ff))))
                                      (spat_id (snd ff)))) l = []).
  { induction l as [|x t IH]; intro Hl; [reflexivity|].
    cbn [flat_map]. rewrite (Hl x) by now left. cbn. apply IH.
    intros ff Hff. apply Hl. now right. }
  apply G. intros [k f] Hin. apply in_combine_r in Hin.
  rewrite Forall_forall in H. now apply H.
Qed.

(** X10: [subpixellate] raises when a sub-pixel count is zero, when one of
    the three bin-edge arrays is empty, and when the per-exposure arguments
    are lists of a length other than one while [all_idx] is not given. *)
Theorem subpixellate_rejects (all_sci all_ivar all_wghts : list Q)
    (all_spatid : list Z) (bins : voxedges) (n m : Z) (args : collaborators)
    (all_idx : option (list Z)) :
  n = 0%Z \/ m = 0%Z \/
  fst (fst bins) = [] \/ snd (fst bins) = [] \/ snd bins = [] \/
  (exists fs, args = Several fs /\ all_idx = None /\ length fs <> 1%nat) ->
  subpixellate all_sci all_ivar all_wghts all_spatid bins n m args all_idx = None.
Proof.
  intro H. unfold subpixellate, accumulate.
  destruct (frame_setup all_sci args all_idx) as [[frames idx]|] eqn:Es; [|reflexivity].
  cbn. unfold accumulate_in.
  assert (Hcase : binrng bins = None \/ subgrid n m = None).
  { destruct H as [H | [H | [H | [H | [H | H]]]]].
    - right. apply subgrid_zero. auto.
    - right. apply subgrid_zero. auto.
    - left. apply binrng_empty. auto.
    - left. apply binrng_empty. auto.
    - left. apply binrng_empty. auto.
    - exfalso. destruct H as (fs & -> & -> & Hl). cbn in Es.
      apply Nat.eqb_neq in Hl. rewrite Hl in Es. discriminate. }
  destruct Hcase as [-> | Hg]; [reflexivity|].
  destruct (binrng bins); [|reflexivity]. cbn. rewrite Hg. reflexivity.
Qed.

Lemma subpixellate_rejects_witness :
  subpixellate [10; 20] [4; 1] [3; 1] [7%Z; 7%Z]
               (bin_edges 1, bin_edges 1, bin_edges 3) 2 0 (Single ramp_frame) None = None.
Proof.
  apply subpixellate_rejects. right. left. reflexivity.
Defined.

(** X11: [subpixellate] returns three cubes of the output shape whenever the
    per-exposure arguments are accepted, every axis has at least one bin and
    increasing edges, both sub-pixel counts are at least one, the pixel
    arrays all have the length of [all_sci], and the coordinate chain of every
    slit yields one voxel coordinate per sub-pixel. *)
Theorem subpixellate_completes (all_sci all_ivar all_wghts : list Q)
    (all_spatid : list Z) (bins : voxedges) (n m : Z) (args : collaborators)
    (all_idx : option (list Z)) (frames : list frame) (idx : list Z)
    (rng : axis_range * axis_range * axis_range) :
  frame_setup all_sci args all_idx = Some (frames, idx) ->
  binrng bins = Some rng -> bins_ok (outshape bins) rng ->
  (1 <= n)%Z -> (1 <= m)%Z ->
  length all_ivar = length all_sci -> length all_wghts = length all_sci ->
  length all_spatid = length all_sci -> length idx = length all_sci ->
  (forall fr this sl spatid this_sl grid,
     In (fr, this, sl, spatid) (frame_slit_pairs frames) ->
     select_slit all_spatid idx spatid fr = Some this_sl ->
     subgrid n m = Some grid ->
     exists coord, vox_coord this sl this_sl grid = Some coord /\
                   length coord = (length this_sl * Z.to_nat (n * m))%nat) ->
  exists flx var bpm,
    subpixellate all_sci all_ivar all_wghts all_spatid bins n m args all_idx
      = Some (flx, var, bpm) /\
    length flx = size3 (outshape bins) /\ length var = size3 (outshape bins) /\
    length bpm = size3 (outshape bins).
Proof.
  intros Hset Hr Hok Hn Hm L1 L2 L3 L4 Hc.
  destruct (accumulate_in_total all_sci all_ivar all_wghts all_spatid bins n m
              (frame_slit_pairs frames) idx rng Hr Hok Hn Hm L1 L2 L3 L4 Hc)
    as [[[F V] N] Hacc].
  pose proof (accumulate_in_shape _ _ _ _ _ _ _ _ _ _ _ _ Hacc) as (LF & LV & LN).
  pose proof (finalize_entries F V N) as Hfin.
  destruct (finalize (F, V, N)) as [[flx var] bpm] eqn:Ef.
  destruct Hfin as (A1 & A2 & A3 & _); try congruence.
  exists flx, var, bpm. split; [|repeat split; congruence].
  unfold subpixellate, accumulate. rewrite Hset. cbn. rewrite Hacc. cbn [option_map].
  now rewrite Ef.
Qed.

Lemma ramp_frame_coord (sl : nat) (this_sl : list nat) (grid : list (Q * Q)) :
  exists coord, vox_coord ramp_frame sl this_sl grid = Some coord /\
                length coord = (length this_sl * length grid)%nat.
Proof.
  cbn. eexists. split; [reflexivity|].
  induction this_sl as [|i t IH]; [reflexivity|].
  cbn [flat_map length]. rewrite length_app, length_map, IH. lia.
Qed.

Lemma subpixellate_completes_witness :
  exists flx var bpm,
    subpixellate [10; 20] [4; 1] [3; 1] [7%Z; 7%Z]
                 (bin_edges 1, bin_edges 1, bin_edges 3) 2 1 (Single ramp_frame) None
      = Some (flx, var, bpm) /\
    length flx = 3%nat /\ length var = 3%nat /\ length bpm = 3%nat.
Proof.
  apply (subpixellate_completes [10; 20] [4; 1] [3; 1] [7%Z; 7%Z]
           (bin_edges 1, bin_edges 1, bin_edges 3) 2 1 (Single ramp_frame) None
           [ramp_frame] [0%Z; 0%Z]
           (- (1 # 2), 1 # 2, (- (1 # 2), 1 # 2), (- (1 # 2), 5 # 2)));
    try reflexivity; try lia.
  - vm_compute. repeat split; try lia; reflexivity.
  - intros fr this sl spatid this_sl grid Hin _ Hg.
    destruct Hin as [Hin|[]]. inversion Hin. subst.
    vm_compute in Hg. inversion Hg. subst grid.
    apply (ramp_frame_coord 0 this_sl).
Defined.

(** X12: when no exposure has a slit, [subpixellate] does not raise (given
    non-zero sub-pixel counts and non-empty bin-edge arrays): it returns flux
    and variance cubes of zeros and a bad-pixel mask of ones. *)
Theorem subpixellate_without_slits (all_sci all_ivar all_wghts : list Q)
    (all_spatid : list Z) (bins : voxedges) (n m : Z) (args : collaborators)
    (all_idx : option (list Z)) (frames : list frame) (idx : list Z) :
  frame_setup all_sci args all_idx = Some (frames, idx) ->
  Forall (fun f => spat_id f = []) frames ->
  n <> 0%Z -> m <> 0%Z ->
  fst (fst bins) <> [] -> snd (fst bins) <> [] -> snd bins <> [] ->
  exists flx var,
    subpixellate all_sci all_ivar all_wghts all_spatid bins n m args all_idx
      = Some (flx, var, repeat 1%Z (size3 (outshape bins))) /\
    length flx = size3 (outshape bins) /\ length var = size3 (outshape bins) /\
    Forall (fun v => v == 0) flx /\ Forall (fun v => v == 0) var.
Proof.
  intros Hset Hno Hn Hm H0 H1 H2.
  destruct bins as [[b0 b1] b2] eqn:Eb. cbn [fst snd] in H0, H1, H2.
  destruct (edge_range_some _ H0) as [r0 E0], (edge_range_some _ H1) as [r1 E1],
           (edge_range_some _ H2) as [r2 E2].
  destruct (subpixel_offsets_some _ Hn) as [o1 Eo1], (subpixel_offsets_some _ Hm) as [o2 Eo2].
  assert (Ha : exists a, area n m = Some a).
  { unfold area, Np.divide, num_subpixels.
    destruct (Qeq_bool (inject_Z (n * m)) 0) eqn:E; [|eauto].
    apply Qeq_bool_iff in E. exfalso. revert E. apply inject_Z_nonzero. lia. }
  destruct Ha as [a Ha].
  set (sz := size3 (outshape (b0, b1, b2))).
  exists (mul (repeat 0 sz) (map inverse (repeat 0 sz))),
         (mul (repeat 0 sz) (map (fun v => v ^ 2) (map inverse (repeat 0 sz)))).
  split; [|split; [|split; [|split]]].
  - unfold subpixellate, accumulate. rewrite Hset. cbn.
    rewrite (frame_slit_pairs_empty _ Hno). unfold accumulate_in, binrng, subgrid.
    rewrite E0, E1, E2, Eo1, Eo2, Ha. cbn [fold_left option_map].
    change (size3 (outshape (b0, b1, b2))) with sz. unfold finalize.
    rewrite (map_repeat _ _ (fun v => if Qeq_bool v 0 then 1%Z else 0%Z)). reflexivity.
  - rewrite mul_length; rewrite ?length_map, ?repeat_length; apply Nat.min_id.
  - rewrite mul_length; rewrite ?length_map, ?repeat_length; apply Nat.min_id.
  - clear. induction sz; cbn; constructor; [reflexivity|exact IHsz].
  - clear. induction sz; cbn; constructor; [reflexivity|exact IHsz].
Qed.

Lemma subpixellate_without_slits_witness :
  exists flx var,
    subpixellate [10; 20] [4; 1] [3; 1] [7%Z; 7%Z]
                 (bin_edges 1, bin_edges 1, bin_edges 3) 2 1
                 (Several [{| spat_id := []; vox_coord := fun _ _ _ => None |}]) None
      = Some (flx, var, repeat 1%Z 3) /\
    length flx = 3%nat /\ length var = 3%nat /\
    Forall (fun v => v == 0) flx /\ Forall (fun v => v == 0) var.
Proof.
  apply (subpixellate_without_slits [10; 20] [4; 1] [3; 1] [7%Z; 7%Z]
           (bin_edges 1, bin_edges 1, bin_edges 3) 2 1
           (Several [{| spat_id := []; vox_coord := fun _ _ _ => None |}]) None
           [{| spat_id := []; vox_coord := fun _ _ _ => None |}] [0%Z; 0%Z]);
    try reflexivity; try lia; try discriminate.
  repeat constructor.
Defined.

(** ** The bins of [create_wcs] under the histogram of [subpixellate] *)

Lemma int_proper (p q : Q) : p == q -> Np.int p = Np.int q.
Proof.
  intro H. unfold Np.int.
  assert (E : Qle_bool 0 p = Qle_bool 0 q).
  { destruct (Qle_bool 0 p) eqn:A, (Qle_bool 0 q) eqn:B; trivial.
    - apply Qle_bool_iff in A. rewrite H in A. apply Qle_bool_iff in A. congruence.
    - apply Qle_bool_iff in B. rewrite <- H in B. apply Qle_bool_iff in B. congruence. }
  rewrite E. destruct (Qle_bool 0 q); [now apply Qfloor_comp|now apply Qceiling_comp].
Qed.

Lemma bin_edges_range (num : Z) :
  (1 <= num)%Z ->
  edge_range (bin_edges num) = Some (inject_Z 0 - (1 # 2), inject_Z num - (1 # 2)).
Proof.
  intro H. unfold edge_range, bin_edges, Np.arange.
  replace (Z.to_nat (1 + num)) with (S (Z.to_nat num)) by lia.
  rewrite seq_S, !map_app, !rev_app_distr. cbn [map rev app hd_error].
  replace (Z.of_nat (0 + Z.to_nat num)) with num by lia.
  destruct (Z.to_nat num) eqn:E; [lia|reflexivity].
Qed.

(** A coordinate lies in the cell of width one centred on the integer [k]. *)
Lemma bin_index_regular (num : Z) (x : Q) (k : nat) :
  (1 <= num)%Z ->
  bin_index (inject_Z 0 - (1 # 2)) (inject_Z num - (1 # 2)) (Z.to_nat num) x = Some k <->
  (k < Z.to_nat num)%nat /\
  inject_Z (Z.of_nat k) - (1 # 2) <= x < inject_Z (Z.of_nat k) + (1 # 2).
Proof.
  intro Hn. unfold bin_index.
  assert (Hnum : 1 <= inject_Z num) by (change 1 with (inject_Z 1); now rewrite <- Zle_Qle).
  assert (Eq : (x - (inject_Z 0 - (1 # 2))) *
               (1 / (inject_Z num - (1 # 2) - (inject_Z 0 - (1 # 2)))) *
               inject_Z (Z.of_nat (Z.to_nat num)) == x + (1 # 2)).
  { rewrite Z2Nat.id by lia. change (inject_Z 0) with 0. field. lra. }
  rewrite (int_proper _ _ Eq).
  change (inject_Z 0) with 0.
  destruct (Qle_bool (0 - (1 # 2)) x && Np.Qltb x (inject_Z num - (1 # 2))) eqn:G.
  - apply andb_true_iff in G. destruct G as [G1 G2].
    apply Qle_bool_iff in G1. apply Qltb_lt in G2.
    rewrite int_nonneg by lra.
    pose proof (Qfloor_le (x + (1 # 2))) as F1.
    pose proof (Qlt_floor (x + (1 # 2))) as F2.
    assert (F0 : (0 <= Qfloor (x + (1 # 2)))%Z) by (apply Qfloor_nonneg; lra).
    split.
    + intro E. assert (E' : Z.to_nat (Qfloor (x + (1 # 2))) = k) by congruence.
      clear E. subst k. rewrite Z2Nat.id by exact F0.
      rewrite inject_Z_plus in F2. change (inject_Z 1) with 1 in F2.
      split.
      * apply Z2Nat.inj_lt; try lia. rewrite Zlt_Qlt.
        set (f := inject_Z (Qfloor (x + (1 # 2)))) in *.
        set (q := inject_Z num) in *. lra.
      * set (f := inject_Z (Qfloor (x + (1 # 2)))) in *. split; lra.
    + intros [Hk [B1 B2]]. f_equal.
      rewrite (Qfloor_unique _ (Z.of_nat k)); [lia|lra|].
      rewrite inject_Z_plus. change (inject_Z 1) with 1. lra.
  - split; [discriminate|]. intros [Hk [B1 B2]]. exfalso.
    apply andb_false_iff in G.
    assert (K0 : 0 <= inject_Z (Z.of_nat k))
      by (change 0 with (inject_Z 0); rewrite <- Zle_Qle; lia).
    assert (K1 : inject_Z (Z.of_nat k) + 1 <= inject_Z num).
    { change 1 with (inject_Z 1). rewrite <- inject_Z_plus, <- Zle_Qle. lia. }
    destruct G as [G|G].
    + assert (~ 0 - (1 # 2) <= x) by (rewrite <- Qle_bool_iff; congruence). lra.
    + apply Qltb_ge in G. lra.
Qed.

(** X13: on bin edges [np.arange(1 + num) - 0.5] with at least one bin per
    axis, as [create_wcs] makes them, the histogram of [subpixellate] has
    shape [(nx, ny, nz)] and counts a voxel coordinate [(x, y, z)] in voxel
    [(i, j, k)] exactly when each component lies within half a voxel below
    (inclusive) and above (exclusive) of the voxel's integer index. *)
Theorem regular_bins_nearest_voxel (nx ny nz : Z) :
  (1 <= nx)%Z -> (1 <= ny)%Z -> (1 <= nz)%Z ->
  outshape (bin_edges nx, bin_edges ny, bin_edges nz)
    = (Z.to_nat nx, Z.to_nat ny, Z.to_nat nz) /\
  exists rng,
    binrng (bin_edges nx, bin_edges ny, bin_edges nz) = Some rng /\
    bins_ok (Z.to_nat nx, Z.to_nat ny, Z.to_nat nz) rng /\
    forall (x y z : Q) (v : nat),
      voxel_index (Z.to_nat nx, Z.to_nat ny, Z.to_nat nz) rng (x, y, z) = Some v <->
      exists i j k,
        v = ((i * Z.to_nat ny + j) * Z.to_nat nz + k)%nat /\
        (i < Z.to_nat nx)%nat /\ (j < Z.to_nat ny)%nat /\ (k < Z.to_nat nz)%nat /\
        inject_Z (Z.of_nat i) - (1 # 2) <= x < inject_Z (Z.of_nat i) + (1 # 2) /\
        inject_Z (Z.of_nat j) - (1 # 2) <= y < inject_Z (Z.of_nat j) + (1 # 2) /\
        inject_Z (Z.of_nat k) - (1 # 2) <= z < inject_Z (Z.of_nat k) + (1 # 2).
Proof.
  intros Hx Hy Hz. split.
  - unfold outshape. rewrite !bin_edges_length. f_equal; [f_equal|]; lia.
  - unfold binrng. rewrite !bin_edges_range by lia. cbn.
    eexists. split; [reflexivity|]. split.
    + cbn [bins_ok fst snd]. change (inject_Z 0) with 0.
      pose proof (inject_Z_pos _ Hx). pose proof (inject_Z_pos _ Hy).
      pose proof (inject_Z_pos _ Hz).
      repeat split; try lia; lra.
    + intros x y z v. unfold voxel_index. cbn [fst snd].
      pose proof (fun i => bin_index_regular nx x i Hx) as Bx.
      pose proof (fun i => bin_index_regular ny y i Hy) as By.
      pose proof (fun i => bin_index_regular nz z i Hz) as Bz.
      destruct (bin_index _ _ (Z.to_nat nx) x) as [i|].
      2:{ cbn. split; [discriminate|]. intros (i & _ & _ & _ & Hi & _ & _ & Ci & _).
          specialize (Bx i). destruct Bx as [_ Bx]. discriminate Bx. auto. }
      destruct (bin_index _ _ (Z.to_nat ny) y) as [j|].
      2:{ cbn. split; [discriminate|]. intros (_ & j & _ & _ & _ & Hj & _ & _ & Cj & _).
          specialize (By j). destruct By as [_ By]. discriminate By. auto. }
      destruct (bin_index _ _ (Z.to_nat nz) z) as [k|].
      2:{ cbn. split; [discriminate|]. intros (_ & _ & k & _ & _ & _ & Hk & _ & _ & Ck).
          specialize (Bz k). destruct Bz as [_ Bz]. discriminate Bz. auto. }
      cbn. split.
      * intro E. injection E as <-. exists i, j, k.
        destruct (proj1 (Bx i) eq_refl), (proj1 (By j) eq_refl), (proj1 (Bz k) eq_refl).
        auto 10.
      * intros (i' & j' & k' & -> & Hi & Hj & Hk & Ci & Cj & Ck).
        pose proof (proj2 (Bx i') (conj Hi Ci)) as E1.
        pose proof (proj2 (By j') (conj Hj Cj)) as E2.
        pose proof (proj2 (Bz k') (conj Hk Ck)) as E3.
        congruence.
Qed.

Lemma regular_bins_nearest_voxel_witness :
  outshape (bin_edges 2, bin_edges 1, bin_edges 3) = (2, 1, 3)%nat /\
  exists rng,
    binrng (bin_edges 2, bin_edges 1, bin_edges 3) = Some rng /\
    voxel_index (2, 1, 3)%nat rng (4 # 5, 1 # 3, 3 # 2) = Some 5%nat.
Proof.
  destruct (regular_bins_nearest_voxel 2 1 3 ltac:(lia) ltac:(lia) ltac:(lia))
    as [Hs (rng & Hr & _ & Hv)].
  split; [exact Hs|]. exists rng. split; [exact Hr|].
  apply Hv. exists 1%nat, 0%nat, 2%nat.
  repeat match goal with |- _ /\ _ => split end; try reflexivity; try lia;
    unfold Qle, Qlt; cbn; lia.
Defined.

(** ** [wcs_bounds] and the failures of [create_wcs] *)

Lemma or_else_some (given dflt : option Q) :
  (exists v, or_else given dflt = Some v) <-> given <> None \/ dflt <> None.
Proof.
  destruct given as [g|], dflt as [d|]; cbn; split; intro H; eauto;
    try (left; discriminate); try (right; discriminate).
  - destruct H as [v H]. discriminate.
  - destruct H as [H|H]; contradiction.
Qed.

Lemma min_defined (l : list Q) : Np.min l <> None <-> l <> [].
Proof.
  split.
  - intros H ->. now apply H.
  - intro H. destruct (min_some l H) as [m ->]. discriminate.
Qed.

Lemma max_defined (l : list Q) : Np.max l <> None <-> l <> [].
Proof.
  split.
  - intros H ->. now apply H.
  - intro H. destruct (max_some l H) as [m ->]. discriminate.
Qed.

Lemma or_else_min (given : option Q) (l : list Q) (v : Q) :
  or_else given (Np.min l) = Some v ->
  given = Some v \/
  (given = None /\ In v l /\ forall x, In x l -> v <= x).
Proof.
  destruct given as [g|]; cbn; intro H; [now left|].
  right. split; [reflexivity|]. now apply min_lower.
Qed.

Lemma or_else_max (given : option Q) (l : list Q) (v : Q) :
  or_else given (Np.max l) = Some v ->
  given = Some v \/
  (given = None /\ In v l /\ forall x, In x l -> x <= v).
Proof.
  destruct given as [g|]; cbn; intro H; [now left|].
  right. split; [reflexivity|]. now apply max_upper.
Qed.

Lemma wcs_bounds_inv (all_ra all_dec all_wave : list Q)
    (ra_min ra_max dec_min dec_max wave_min wave_max : option Q)
    (r0 r1 d0 d1 w0 w1 : Q) :
  wcs_bounds all_ra all_dec all_wave ra_min ra_max dec_min dec_max wave_min wave_max
    = Some (r0, r1, d0, d1, w0, w1) <->
  or_else ra_min (Np.min all_ra) = Some r0 /\ or_else ra_max (Np.max all_ra) = Some r1 /\
  or_else dec_min (Np.min all_dec) = Some d0 /\ or_else dec_max (Np.max all_dec) = Some d1 /\
  or_else wave_min (Np.min all_wave) = Some w0 /\
  or_else wave_max (Np.max all_wave) = Some w1.
Proof.
  unfold wcs_bounds.
  destruct (or_else ra_min _) as [a|]; cbn; [|split; [discriminate|intros (H & _); discriminate]].
  destruct (or_else ra_max _) as [b|]; cbn;
    [|split; [discriminate|intros (_ & H & _); discriminate]].
  destruct (or_else dec_min _) as [c|]; cbn;
    [|split; [discriminate|intros (_ & _ & H & _); discriminate]].
  destruct (or_else dec_max _) as [d|]; cbn;
    [|split; [discriminate|intros (_ & _ & _ & H & _); discriminate]].
  destruct (or_else wave_min _) as [e|]; cbn;
    [|split; [discriminate|intros (_ & _ & _ & _ & H & _); discriminate]].
  destruct (or_else wave_max _) as [f|]; cbn;
    [|split; [discriminate|intros (_ & _ & _ & _ & _ & H); discriminate]].
  split.
  - intro H. inversion H. auto 10.
  - intros (A & B & C & D & E & F). congruence.
Qed.

(** X14: each bound [wcs_bounds] returns is the caller's value where one is
    given; where none is given it is an element of the corresponding
    coordinate array that no element of the array is below (for a minimum) or
    above (for a maximum). *)
Theorem wcs_bounds_values (all_ra all_dec all_wave : list Q)
    (ra_min ra_max dec_min dec_max wave_min wave_max : option Q)
    (r0 r1 d0 d1 w0 w1 : Q) :
  wcs_bounds all_ra all_dec all_wave ra_min ra_max dec_min dec_max wave_min wave_max
    = Some (r0, r1, d0, d1, w0, w1) ->
  (ra_min = Some r0 \/
   ra_min = None /\ In r0 all_ra /\ forall x, In x all_ra -> r0 <= x) /\
  (ra_max = Some r1 \/
   ra_max = None /\ In r1 all_ra /\ forall x, In x all_ra -> x <= r1) /\
  (dec_min = Some d0 \/
   dec_min = None /\ In d0 all_dec /\ forall x, In x all_dec -> d0 <= x) /\
  (dec_max = Some d1 \/
   dec_max = None /\ In d1 all_dec /\ forall x, In x all_dec -> x <= d1) /\
  (wave_min = Some w0 \/
   wave_min = None /\ In w0 all_wave /\ forall x, In x all_wave -> w0 <= x) /\
  (wave_max = Some w1 \/
   wave_max = None /\ In w1 all_wave /\ forall x, In x all_wave -> x <= w1).
Proof.
  intro H. apply wcs_bounds_inv in H. destruct H as (A & B & C & D & E & F).
  repeat split; first [now apply or_else_min | now apply or_else_max].
Qed.

Lemma wcs_bounds_values_witness :
  (Some 1 = Some 1 \/
   Some 1 = None /\ In 1 [3; 2] /\ forall x, In x [3; 2] -> 1 <= x) /\
  (@None Q = Some 3 \/
   @None Q = None /\ In 3 [3; 2] /\ forall x, In x [3; 2] -> x <= 3).
Proof.
  destruct (wcs_bounds_values [3; 2] [5] [7; 9] (Some 1) None None None None None
              1 3 5 5 7 9 eq_refl) as (A & B & _).
  split; [exact A|exact B].
Defined.

(** X15: [wcs_bounds] returns exactly when every bound that the caller does
    not give can be taken from a non-empty coordinate array; otherwise the
    reduction over the empty array raises. *)
Theorem wcs_bounds_defined (all_ra all_dec all_wave : list Q)
    (ra_min ra_max dec_min dec_max wave_min wave_max : option Q) :
  (exists b,
     wcs_bounds all_ra all_dec all_wave ra_min ra_max dec_min dec_max wave_min wave_max
       = Some b) <->
  (ra_min <> None \/ all_ra <> []) /\ (ra_max <> None \/ all_ra <> []) /\
  (dec_min <> None \/ all_dec <> []) /\ (dec_max <> None \/ all_dec <> []) /\
  (wave_min <> None \/ all_wave <> []) /\ (wave_max <> None \/ all_wave <> []).
Proof.
  assert (Gmin : forall g l, (exists v, or_else g (Np.min l) = Some v) <->
                             g <> None \/ l <> []).
  { intros g l. rewrite or_else_some, min_defined. reflexivity. }
  assert (Gmax : forall g l, (exists v, or_else g (Np.max l) = Some v) <->
                             g <> None \/ l <> []).
  { intros g l. rewrite or_else_some, max_defined. reflexivity. }
  split.
  - intros [[[[[[r0 r1] d0] d1] w0] w1] H]. apply wcs_bounds_inv in H.
    destruct H as (A & B & C & D & E & F).
    split; [apply Gmin; eauto|]. split; [apply Gmax; eauto|].
    split; [apply Gmin; eauto|]. split; [apply Gmax; eauto|].
    split; [apply Gmin; eauto|apply Gmax; eauto].
  - intros (A & B & C & D & E & F).
    apply Gmin in A, C, E. apply Gmax in B, D, F.
    destruct A as [r0 A], B as [r1 B], C as [d0 C], D as [d1 D], E as [w0 E], F as [w1 F].
    exists (r0, r1, d0, d1, w0, w1). apply wcs_bounds_inv. auto 10.
Qed.




(** ** The wavelength cut of [make_whitelight_fromcube] *)

Lemma where_cons {A} (p : A -> bool) (x : A) (l : list A) (s : nat) :
  map fst (filter (fun ix => p (snd ix)) (combine (seq s (length (x :: l))) (x :: l))) =
  (if p x then [s] else []) ++
  map fst (filter (fun ix => p (snd ix)) (combine (seq (S s) (length l)) l)).
Proof. cbn. destruct (p x); reflexivity. Qed.

(** The indices [np.where] returns are increasing: the first is the least
    and the last the greatest. *)
Lemma where_extremes {A} (p : A -> bool) (l : list A) (s a b : nat) :
  let L := map fst (filter (fun ix => p (snd ix)) (combine (seq s (length l)) l)) in
  hd_error L = Some a -> hd_error (rev L) = Some b ->
  In a L /\ In b L /\ forall i, In i L -> (a <= i <= b)%nat.
Proof.
  cbv zeta. revert s a b. induction l as [|x t IH]; intros s a b; [discriminate|].
  rewrite where_cons.
  set (L' := map fst (filter (fun ix => p (snd ix)) (combine (seq (S s) (length t)) t))).
  assert (Hge : forall i, In i L' -> (S s <= i)%nat).
  { intros i Hi. apply where_from in Hi. destruct Hi as (y & Hi & _). exact Hi. }
  specialize (IH (S s)). fold L' in IH.
  destruct (p x); cbn [app].
  - cbn [hd_error rev]. intros Ha Hb. injection Ha as <-.
    destruct L' as [|c u] eqn:EL.
    + cbn in Hb. injection Hb as <-. split; [now left|]. split; [now left|].
      intros i [<-|[]]; lia.
    + assert (Hb' : hd_error (rev (c :: u)) = Some b).
      { destruct (rev (c :: u)) as [|y v] eqn:Er.
        - apply (f_equal (@length nat)) in Er. rewrite length_rev in Er. discriminate.
        - cbn in Hb. exact Hb. }
      destruct (IH c b eq_refl Hb') as (_ & Hbin & Hall).
      split; [now left|]. split; [now right|].
      intros i [<-|Hi].
      * specialize (Hge b Hbin). lia.
      * specialize (Hall i Hi). specialize (Hge i Hi). lia.
  - intros Ha Hb. apply IH; assumption.
Qed.

Lemma where_all {A} (p : A -> bool) (l : list A) :
  (forall x, In x l -> p x = true) -> Np.where_ p l = seq 0 (length l).
Proof.
  unfold Np.where_. generalize 0%nat.
  induction l as [|x t IH]; intros s H; [reflexivity|].
  rewrite where_cons, (H x) by now left. cbn [app length seq]. f_equal.
  apply IH. intros y Hy. apply H. now right.
Qed.

Lemma where_nonempty {A} (p : A -> bool) (l : list A) :
  Np.where_ p l <> [] <-> exists x, In x l /\ p x = true.
Proof.
  split.
  - intro H. destruct (Np.where_ p l) as [|i t] eqn:E; [now elim H|].
    assert (Hin : In i (Np.where_ p l)) by (rewrite E; now left).
    apply where_spec in Hin. destruct Hin as (x & Hx & Hp).
    exists x. split; [eapply nth_error_In; eassumption|exact Hp].
  - intros (x & Hx & Hp) E. apply In_nth_error in Hx. destruct Hx as [i Hi].
    assert (Hin : In i (Np.where_ p l)) by (apply where_spec; eauto).
    rewrite E in Hin. contradiction.
Qed.

Lemma hd_rev_some {A} (l : list A) : l <> [] -> exists x, hd_error (rev l) = Some x.
Proof.
  intro H. destruct (rev l) as [|y v] eqn:E; [|cbn; eauto].
  apply (f_equal (@length A)) in E. rewrite length_rev in E.
  destruct l; [contradiction|discriminate].
Qed.

Lemma in_range_spec (lo hi x : Q) :
  Qle_bool lo x && Qle_bool x hi = true <-> lo <= x <= hi.
Proof. rewrite andb_true_iff, !Qle_bool_iff. reflexivity. Qed.

(** The cut that is made when one is requested. *)
Lemma wavelength_cut_inv (c : cube) (wave : option (list Q)) (wavemin wavemax : option Q)
    (cut : option (nat * nat)) :
  wavemin <> None \/ wavemax <> None ->
  (wavelength_cut c wave wavemin wavemax = Some cut <->
   exists w lo hi wmin wlast,
     wave = Some w /\ length w = nz c /\
     or_else wavemin (Np.min w) = Some lo /\ or_else wavemax (Np.max w) = Some hi /\
     hd_error (Np.where_ (fun x => Qle_bool lo x && Qle_bool x hi) w) = Some wmin /\
     hd_error (rev (Np.where_ (fun x => Qle_bool lo x && Qle_bool x hi) w)) = Some wlast /\
     cut = Some (wmin, (wlast + 1)%nat)).
Proof.
  intro Hreq. unfold wavelength_cut.
  assert (E : forall X : option (option (nat * nat)),
             match wavemin, wavemax with
             | None, None => Some None
             | _, _ => X
             end = X).
  { intro X. destruct wavemin, wavemax; trivial. destruct Hreq as [H|H]; now elim H. }
  rewrite E. clear E.
  destruct wave as [w|]; cbn.
  2:{ split; [discriminate|]. intros (w & lo & hi & a & b & H & _). discriminate. }
  destruct (length w =? nz c)%nat eqn:El; cbn.
  2:{ apply Nat.eqb_neq in El. split; [discriminate|].
      intros (w' & lo & hi & a & b & H & Hl & _). inversion H. subst. contradiction. }
  apply Nat.eqb_eq in El.
  destruct (or_else wavemin (Np.min w)) as [lo|] eqn:E1; cbn.
  2:{ split; [discriminate|].
      intros (w' & lo & hi & a & b & H & _ & H1 & _). inversion H. subst. congruence. }
  destruct (or_else wavemax (Np.max w)) as [hi|] eqn:E2; cbn.
  2:{ split; [discriminate|].
      intros (w' & lo' & hi & a & b & H & _ & _ & H2 & _). inversion H. subst. congruence. }
  destruct (hd_error (Np.where_ _ w)) as [a|] eqn:E3; cbn.
  2:{ split; [discriminate|].
      intros (w' & lo' & hi' & a & b & H & _ & H1 & H2 & H3 & _).
      inversion H. subst w'. assert (lo' = lo) by congruence.
      assert (hi' = hi) by congruence. subst. congruence. }
  destruct (hd_error (rev (Np.where_ _ w))) as [b|] eqn:E4; cbn.
  2:{ split; [discriminate|].
      intros (w' & lo' & hi' & a' & b & H & _ & H1 & H2 & _ & H4 & _).
      inversion H. subst w'. assert (lo' = lo) by congruence.
      assert (hi' = hi) by congruence. subst. congruence. }
  split.
  - intro H. inversion H. exists w, lo, hi, a, b. auto 10.
  - intros (w' & lo' & hi' & a' & b' & H & _ & H1 & H2 & H3 & H4 & ->).
    inversion H. subst w'. assert (lo' = lo) by congruence.
    assert (hi' = hi) by congruence. subst. congruence.
Qed.

(** X17: [make_whitelight_fromcube] returns an image exactly when no cut is
    requested, or [wave] is given, has the length of the cube's spectral
    axis, and holds at least one wavelength between the requested limits (a
    limit that is not given being the least or greatest wavelength).  In
    every other case it raises. *)
Theorem whitelight_defined (c : cube) (wave : option (list Q))
    (wavemin wavemax : option Q) :
  (exists img, make_whitelight_fromcube c wave wavemin wavemax = Some img) <->
  (wavemin = None /\ wavemax = None) \/
  exists w lo hi x,
    wave = Some w /\ length w = nz c /\
    or_else wavemin (Np.min w) = Some lo /\ or_else wavemax (Np.max w) = Some hi /\
    In x w /\ lo <= x <= hi.
Proof.
  assert (Hcut : (exists img, make_whitelight_fromcube c wave wavemin wavemax = Some img) <->
                 exists cut, wavelength_cut c wave wavemin wavemax = Some cut).
  { split.
    - intros [img H]. unfold make_whitelight_fromcube in H.
      destruct (wavelength_cut c wave wavemin wavemax) as [cut|]; [eauto|discriminate].
    - intros [cut H]. destruct (whitelight_entries _ _ _ _ _ H) as (img & Hi & _). eauto. }
  rewrite Hcut. clear Hcut.
  destruct wavemin as [v1|] eqn:Emin.
  - assert (Hreq : Some v1 <> None \/ wavemax <> None) by (left; discriminate).
    split.
    + intros [cut H]. right. apply (wavelength_cut_inv _ _ _ _ _ Hreq) in H.
      destruct H as (w & lo & hi & a & b & Hw & Hl & H1 & H2 & Ha & _ & _).
      assert (Hin : In a (Np.where_ (fun x => Qle_bool lo x && Qle_bool x hi) w)).
      { destruct (Np.where_ _ w); [discriminate|]. injection Ha as ->. now left. }
      apply where_spec in Hin. destruct Hin as (x & Hx & Hp).
      apply in_range_spec in Hp. apply nth_error_In in Hx.
      exists w, lo, hi, x. auto 10.
    + intros [[H _]|(w & lo & hi & x & Hw & Hl & H1 & H2 & Hx & Hr)]; [discriminate|].
      assert (Hne : Np.where_ (fun y => Qle_bool lo y && Qle_bool y hi) w <> []).
      { apply where_nonempty. exists x. split; [exact Hx|now apply in_range_spec]. }
      destruct (hd_rev_some _ Hne) as [b Hb].
      destruct (Np.where_ (fun y => Qle_bool lo y && Qle_bool y hi) w) as [|a t] eqn:E;
        [contradiction|].
      exists (Some (a, (b + 1)%nat)). apply (wavelength_cut_inv _ _ _ _ _ Hreq).
      exists w, lo, hi, a, b. rewrite E. auto 10.
  - destruct wavemax as [v2|] eqn:Emax.
    + assert (Hreq : @None Q <> None \/ Some v2 <> None) by (right; discriminate).
      split.
      * intros [cut H]. right. apply (wavelength_cut_inv _ _ _ _ _ Hreq) in H.
        destruct H as (w & lo & hi & a & b & Hw & Hl & H1 & H2 & Ha & _ & _).
        assert (Hin : In a (Np.where_ (fun x => Qle_bool lo x && Qle_bool x hi) w)).
        { destruct (Np.where_ _ w); [discriminate|]. injection Ha as ->. now left. }
        apply where_spec in Hin. destruct Hin as (x & Hx & Hp).
        apply in_range_spec in Hp. apply nth_error_In in Hx.
        exists w, lo, hi, x. auto 10.
      * intros [[_ H]|(w & lo & hi & x & Hw & Hl & H1 & H2 & Hx & Hr)]; [discriminate|].
        assert (Hne : Np.where_ (fun y => Qle_bool lo y && Qle_bool y hi) w <> []).
        { apply where_nonempty. exists x. split; [exact Hx|now apply in_range_spec]. }
        destruct (hd_rev_some _ Hne) as [b Hb].
        destruct (Np.where_ (fun y => Qle_bool lo y && Qle_bool y hi) w) as [|a t] eqn:E;
          [contradiction|].
        exists (Some (a, (b + 1)%nat)). apply (wavelength_cut_inv _ _ _ _ _ Hreq).
        exists w, lo, hi, a, b. rewrite E. auto 10.
    + split; [auto|]. intros _. exists None. reflexivity.
Qed.

(** X18: the slice a wavelength cut takes runs from the first to the last
    wavelength inside the limits: it is not empty, stays within the spectral
    axis, starts and ends on a wavelength inside the limits, and contains
    every index whose wavelength is inside the limits. *)
Theorem whitelight_cut_bounds (c : cube) (w : list Q) (wavemin wavemax : option Q)
    (lo hi : Q) (wmin wmax : nat) :
  wavelength_cut c (Some w) wavemin wavemax = Some (Some (wmin, wmax)) ->
  or_else wavemin (Np.min w) = Some lo -> or_else wavemax (Np.max w) = Some hi ->
  (wmin < wmax <= nz c)%nat /\
  (exists x, nth_error w wmin = Some x /\ lo <= x <= hi) /\
  (exists x, nth_error w (wmax - 1) = Some x /\ lo <= x <= hi) /\
  forall i x, nth_error w i = Some x -> lo <= x <= hi -> (wmin <= i < wmax)%nat.
Proof.
  intros H Hlo Hhi.
  assert (Hreq : wavemin <> None \/ wavemax <> None).
  { destruct wavemin, wavemax; try (left; discriminate); right; discriminate. }
  apply (wavelength_cut_inv _ _ _ _ _ Hreq) in H.
  destruct H as (w' & lo' & hi' & a & b & Hw & Hl & H1 & H2 & Ha & Hb & Hc).
  inversion Hw. subst w'. clear Hw.
  assert (lo' = lo) by congruence. assert (hi' = hi) by congruence. subst lo' hi'.
  inversion Hc. subst wmin wmax. clear Hc.
  destruct (where_extremes _ w 0 a b Ha Hb) as (Ina & Inb & Hall).
  fold (Np.where_ (fun x => Qle_bool lo x && Qle_bool x hi) w) in Ina, Inb, Hall.
  pose proof Ina as Ina'. pose proof Inb as Inb'.
  apply where_spec in Ina', Inb'.
  destruct Ina' as (xa & Hxa & Hpa), Inb' as (xb & Hxb & Hpb).
  apply in_range_spec in Hpa, Hpb.
  assert (Hbl : (b < length w)%nat) by (apply nth_error_Some; congruence).
  specialize (Hall a Ina) as Hab.
  repeat split; try lia.
  - exists xa. auto.
  - exists xb. replace (b + 1 - 1)%nat with b by lia. auto.
  - assert (Hi : In i (Np.where_ (fun y => Qle_bool lo y && Qle_bool y hi) w)).
    { apply where_spec. exists x. split; [assumption|now apply in_range_spec]. }
    specialize (Hall i Hi). lia.
  - assert (Hi : In i (Np.where_ (fun y => Qle_bool lo y && Qle_bool y hi) w)).
    { apply where_spec. exists x. split; [assumption|now apply in_range_spec]. }
    specialize (Hall i Hi). lia.
Qed.

Lemma whitelight_cut_bounds_witness :
  (1 < 4 <= 4)%nat /\
  (exists x, nth_error [1; 5; 2; 9] 1 = Some x /\ 4 <= x <= 10) /\
  (exists x, nth_error [1; 5; 2; 9] (4 - 1) = Some x /\ 4 <= x <= 10) /\
  forall i x, nth_error [1; 5; 2; 9] i = Some x -> 4 <= x <= 10 -> (1 <= i < 4)%nat.
Proof.
  exact (whitelight_cut_bounds {| nx := 1; ny := 1; nz := 4; voxels := [1; 2; 3; 4] |}
           [1; 5; 2; 9] (Some 4) (Some 10) 4 10 1 4 eq_refl eq_refl eq_refl).
Defined.

Lemma mapM_ext {A B} (f g : A -> option B) (l : list A) :
  (forall a, In a l -> f a = g a) -> mapM f l = mapM g l.
Proof.
  induction l as [|x t IH]; intro H; [reflexivity|].
  cbn. rewrite (H x) by now left. rewrite IH; [reflexivity|].
  intros a Ha. apply H. now right.
Qed.

Lemma hd_rev_seq (n : nat) : hd_error (rev (seq 0 (S n))) = Some n.
Proof. rewrite seq_S, rev_app_distr. reflexivity. Qed.

Lemma slice_whole (c : cube) (i j : nat) :
  slice 0 (nz c) (spectrum c i j) = spectrum c i j.
Proof.
  unfold slice at 1. rewrite Nat.sub_0_r. cbn [skipn].
  apply firstn_all2. unfold spectrum, slice. rewrite length_firstn. lia.
Qed.

(** X19: a wavelength cut whose limits hold for every wavelength of [wave]
    changes nothing: [make_whitelight_fromcube] returns the image it returns
    without a cut. *)
Theorem whitelight_full_cut (c : cube) (w : list Q) (wavemin wavemax : option Q) :
  length w = nz c -> w <> [] ->
  (forall v x, wavemin = Some v -> In x w -> v <= x) ->
  (forall v x, wavemax = Some v -> In x w -> x <= v) ->
  make_whitelight_fromcube c (Some w) wavemin wavemax =
  make_whitelight_fromcube c None None None.
Proof.
  intros Hl Hne Hmin Hmax.
  destruct wavemin as [v1|] eqn:E1, wavemax as [v2|] eqn:E2.
  4:{ reflexivity. }
  all: assert (Hcut : wavelength_cut c (Some w) wavemin wavemax = Some (Some (0%nat, nz c))).
  all: try (subst wavemin wavemax).
  1,3,5: destruct (min_some w Hne) as [lo Hlo]; destruct (max_some w Hne) as [hi Hhi];
    destruct (min_lower _ _ Hlo) as [_ Lo]; destruct (max_upper _ _ Hhi) as [_ Hi];
    destruct (length w) as [|k] eqn:Ek; [destruct w; [contradiction|discriminate]|].
  - apply wavelength_cut_inv; [left; discriminate|].
    exists w, v1, v2, 0%nat, k. cbn [or_else].
    rewrite where_all, Ek, hd_rev_seq.
    + repeat split; trivial. f_equal. f_equal. lia.
    + intros x Hx. apply in_range_spec. split; [eapply Hmin|eapply Hmax]; eauto.
  - apply wavelength_cut_inv; [left; discriminate|].
    exists w, v1, hi, 0%nat, k. cbn [or_else].
    rewrite where_all, Ek, hd_rev_seq.
    + repeat split; trivial. f_equal. f_equal. lia.
    + intros x Hx. apply in_range_spec. split; [eapply Hmin; eauto|now apply Hi].
  - apply wavelength_cut_inv; [right; discriminate|].
    exists w, lo, v2, 0%nat, k. cbn [or_else].
    rewrite where_all, Ek, hd_rev_seq.
    + repeat split; trivial. f_equal. f_equal. lia.
    + intros x Hx. apply in_range_spec. split; [now apply Lo|eapply Hmax; eauto].
  - unfold make_whitelight_fromcube. rewrite Hcut. cbn.
    apply mapM_ext. intros i _. apply mapM_ext. intros j _.
    now rewrite slice_whole.
  - unfold make_whitelight_fromcube. rewrite Hcut. cbn.
    apply mapM_ext. intros i _. apply mapM_ext. intros j _.
    now rewrite slice_whole.
  - unfold make_whitelight_fromcube. rewrite Hcut. cbn.
    apply mapM_ext. intros i _. apply mapM_ext. intros j _.
    now rewrite slice_whole.
Qed.

Lemma whitelight_full_cut_witness :
  make_whitelight_fromcube {| nx := 1; ny := 1; nz := 3; voxels := [4; 0; 2] |}
                           (Some [1; 2; 3]) (Some 1) None =
  make_whitelight_fromcube {| nx := 1; ny := 1; nz := 3; voxels := [4; 0; 2] |}
                           None None None.
Proof.
  apply whitelight_full_cut; [reflexivity|discriminate| |discriminate].
  intros v x Hv Hx. injection Hv as <-.
  destruct Hx as [<-|[<-|[<-|[]]]]; unfold Qle; cbn; lia.
Defined.

(** ** The good-sky mask *)

Lemma insert_unique_In (x y : Z) (l : list Z) :
  In y (insert_unique x l) <-> y = x \/ In y l.
Proof.
  induction l as [|z t IH]; cbn.
  - intuition.
  - destruct (x <? z)%Z; [cbn; intuition|].
    destruct (x =? z)%Z eqn:E.
    + apply Z.eqb_eq in E. subst. cbn. intuition.
    + cbn. rewrite IH. intuition.
Qed.

Lemma unique_In (y : Z) (l : list Z) : In y (unique l) <-> In y l.
Proof.
  induction l as [|x t IH]; cbn; [reflexivity|].
  rewrite insert_unique_In, IH. intuition.
Qed.

Lemma max_index_spec (l : list nat) (m : nat) :
  max_index l = Some m -> In m l /\ forall x, In x l -> (x <= m)%nat.
Proof.
  destruct l as [|x t]; [discriminate|]. cbn. intro H. injection H as <-.
  revert x. induction t as [|y u IH]; intro x; cbn.
  - split; [now left|]. intros z [E|[]]. lia.
  - destruct (IH (Nat.max x y)) as [Hin Hall]. split.
    + destruct Hin as [E|Hin]; [|now right; right].
      rewrite <- E. destruct (Nat.max_spec x y) as [[_ ->]|[_ ->]]; auto.
    + intros z [E|[E|Hz]].
      * specialize (Hall (Nat.max x y) (or_introl eq_refl)). lia.
      * specialize (Hall (Nat.max x y) (or_introl eq_refl)). lia.
      * apply Hall. now right.
Qed.

Lemma set_at_length {A} (i : nat) (v : A) (a : list A) : length (set_at i v a) = length a.
Proof.
  revert i. induction a as [|x t IH]; intros [|i]; cbn; auto.
Qed.

Lemma set_at_nth {A} (i f : nat) (v d : A) (a : list A) :
  (f < length a)%nat ->
  nth f (set_at i v a) d = if (i =? f)%nat then v else nth f a d.
Proof.
  revert i f. induction a as [|x t IH]; intros i f H; cbn in H; [lia|].
  destruct i as [|i], f as [|f]; cbn; trivial. apply IH. lia.
Qed.

Lemma assign_length {A} (a : list A) (idx : list nat) (vals : list A) :
  length (assign a idx vals) = length a.
Proof.
  revert a vals. induction idx as [|i t IH]; intros a [|v u]; cbn; trivial.
  rewrite IH. apply set_at_length.
Qed.

(** Assigning values that are a function of the index. *)
Lemma assign_map_nth {A} (h : nat -> A) (a : list A) (idx : list nat) (f : nat) (d : A) :
  (f < length a)%nat ->
  nth f (assign a idx (map h idx)) d =
  if existsb (Nat.eqb f) idx then h f else nth f a d.
Proof.
  revert a. induction idx as [|i t IH]; intros a Hf; cbn; [reflexivity|].
  rewrite IH by now rewrite set_at_length.
  rewrite set_at_nth by assumption.
  rewrite (Nat.eqb_sym f i).
  destruct (i =? f)%nat eqn:E; cbn.
  - apply Nat.eqb_eq in E. subst. now destruct (existsb _ t).
  - reflexivity.
Qed.

Lemma existsb_In (f : nat) (l : list nat) : existsb (Nat.eqb f) l = true <-> In f l.
Proof.
  rewrite existsb_exists. split.
  - intros (x & Hx & E). apply Nat.eqb_eq in E. now subst.
  - intro H. exists f. split; [exact H|apply Nat.eqb_refl].
Qed.

(** Selecting with [np.where] on one array and indexing a parallel array
    with the result filters the common list. *)
Lemma take_where {A B C} (g : A -> B) (h : A -> C) (q : C -> bool) (l : list A) :
  Np.take (map g l) (Np.where_ q (map h l)) = Some (map g (filter (fun x => q (h x)) l)).
Proof.
  unfold Np.where_. rewrite length_map.
  assert (G : forall (pre : list A),
             Np.take (map g (pre ++ l))
               (map fst (filter (fun ix => q (snd ix))
                                (combine (seq (length pre) (length l)) (map h l)))) =
             Some (map g (filter (fun x => q (h x)) l))).
  { induction l as [|x t IH]; intro pre; [reflexivity|].
    cbn [length seq map combine filter snd].
    specialize (IH (pre ++ [x])). rewrite <- app_assoc, length_app in IH. cbn in IH.
    replace (length pre + 1)%nat with (S (length pre)) in IH by lia.
    destruct (q (h x)); cbn [map fst Np.take]; [|exact IH].
    rewrite IH. rewrite map_app, nth_error_app2 by (rewrite length_map; lia).
    rewrite length_map, Nat.sub_diag. reflexivity. }
  apply (G []).
Qed.

Lemma nth_error_combine {A B} (a : list A) (b : list B) (i : nat) (x : A) (y : B) :
  nth_error (combine a b) i = Some (x, y) <->
  nth_error a i = Some x /\ nth_error b i = Some y.
Proof.
  revert b i. induction a as [|u t IH]; intros [|v w] [|i]; cbn;
    try (split; [discriminate|intros [? ?]; discriminate]).
  - split; [intro H; inversion H; auto|intros [H1 H2]; congruence].
  - apply IH.
Qed.

Section Skymask.

Variables nspec nspat : nat.
Variable slitimg : list Z.
Variable tilts : list Q.

Hypothesis slitimg_shape : length slitimg = (nspec * nspat)%nat.
Hypothesis tilts_shape : length tilts = (nspec * nspat)%nat.

Let pixel := slit_pixel slitimg tilts.

Let ww (s : Z) : list nat :=
  Np.where_ (fun p => Z.eqb (fst p) s && negb (Qeq_bool (snd p) 0)) (combine slitimg tilts).

(** The bounds a pixel has to keep to be a good sky pixel of slit [s]. *)
Let above_first_row (s : Z) (f : nat) : Prop :=
  forall c, (c < nspat)%nat -> pixel s c -> nth c tilts 0 <= nth f tilts 0.

Let below_last_row (s : Z) (f : nat) : Prop :=
  forall g, pixel s g ->
    (forall g', pixel s g' -> (g' / nspat <= g / nspat)%nat) ->
    nth f tilts 0 <= nth ((nspec - 1) * nspat + g mod nspat) tilts 0.

Lemma ww_spec (s : Z) (f : nat) : In f (ww s) <-> pixel s f.
Proof.
  unfold ww, pixel, slit_pixel. rewrite where_spec. split.
  - intros ([s' t] & Hn & Hp). apply nth_error_combine in Hn. destruct Hn as [H1 H2].
    cbn [fst snd] in Hp. apply andb_true_iff in Hp. destruct Hp as [Hs Ht].
    apply Z.eqb_eq in Hs. subst s'. exists t. repeat split; trivial.
    intro E. apply Qeq_bool_iff in E. rewrite E in Ht. discriminate.
  - intros (t & H1 & H2 & Ht). exists (s, t). split; [now apply nth_error_combine|].
    cbn [fst snd]. rewrite Z.eqb_refl. cbn.
    destruct (Qeq_bool t 0) eqn:E; [|reflexivity].
    apply Qeq_bool_iff in E. contradiction.
Qed.

Lemma pixel_bound (s : Z) (f : nat) : pixel s f -> (f < nspec * nspat)%nat /\ (0 < nspat)%nat.
Proof.
  intros (t & H1 & _). assert (f < length slitimg)%nat by (apply nth_error_Some; congruence).
  rewrite slitimg_shape in H. split; [exact H|]. destruct nspat; lia.
Qed.

Lemma pixel_slit (s s' : Z) (f : nat) : pixel s f -> pixel s' f -> s = s'.
Proof. intros (t & H1 & _) (t' & H1' & _). congruence. Qed.

(** What one pass of the loop does to the mask. *)
Lemma skymask_slit_inv (gpm gpm' : list bool) (s : Z) :
  skymask_slit nspec nspat slitimg tilts gpm s = Some gpm' ->
  exists maxtlt mintlt,
    (exists c, (c < nspat)%nat /\ pixel s c /\ maxtlt = nth c tilts 0) /\
    (forall c, (c < nspat)%nat -> pixel s c -> nth c tilts 0 <= maxtlt) /\
    (exists g, pixel s g /\ (forall g', pixel s g' -> (g' / nspat <= g / nspat)%nat) /\
               mintlt = nth ((nspec - 1) * nspat + g mod nspat) tilts 0) /\
    (forall g, pixel s g -> (forall g', pixel s g' -> (g' / nspat <= g / nspat)%nat) ->
               mintlt <= nth ((nspec - 1) * nspat + g mod nspat) tilts 0) /\
    gpm' = assign gpm (ww s)
             (map (fun f => Qle_bool maxtlt (nth f tilts 0) &&
                            Qle_bool (nth f tilts 0) mintlt) (ww s)).
Proof.
  unfold skymask_slit. fold (ww s).
  destruct (max_index (map (fun f => (f / nspat)%nat) (ww s))) as [top|] eqn:Etop;
    [|discriminate].
  cbn. rewrite !take_where. cbn.
  set (bottom := filter (fun f => (f / nspat =? 0)%nat) (ww s)).
  set (upper := filter (fun f => (f / nspat =? top)%nat) (ww s)).
  destruct (Np.take tilts (map (fun f => (f mod nspat)%nat) bottom)) as [tb|] eqn:Etb;
    [|discriminate].
  cbn. destruct (Np.max tb) as [maxtlt|] eqn:Emax; [|discriminate].
  cbn. destruct (Np.take tilts (map _ (map (fun f => (f mod nspat)%nat) upper)))
    as [tt|] eqn:Ett; [|discriminate].
  cbn. destruct (Np.min tt) as [mintlt|] eqn:Emin; [|discriminate].
  cbn. destruct (Np.take tilts (ww s)) as [tw|] eqn:Etw; [|discriminate].
  cbn. intro H. injection H as <-.
  apply (take_id _ _ _ 0) in Etb, Ett, Etw.
  destruct Etb as [-> _], Ett as [-> _], Etw as [-> _].
  rewrite !map_map in *.
  apply max_upper in Emax. destruct Emax as [Imax Umax].
  apply min_lower in Emin. destruct Emin as [Imin Lmin].
  apply max_index_spec in Etop. destruct Etop as [Itop Utop].
  apply in_map_iff in Itop. destruct Itop as (g0 & Eg0 & Ig0).
  assert (Htop : forall g, pixel s g ->
            ((forall g', pixel s g' -> (g' / nspat <= g / nspat)%nat) <->
             (g / nspat)%nat = top)).
  { intros g Hg. split.
    - intro Hall. apply ww_spec in Ig0. specialize (Hall g0 Ig0).
      apply ww_spec in Hg.
      specialize (Utop (g / nspat)%nat (in_map (fun f => (f / nspat)%nat) _ _ Hg)). lia.
    - intros E g' Hg'. apply ww_spec in Hg'. rewrite E.
      apply Utop. now apply (in_map (fun f => (f / nspat)%nat)). }
  assert (Hbot : forall c, In c bottom <-> (c < nspat)%nat /\ pixel s c).
  { intro c. unfold bottom. rewrite filter_In, ww_spec, Nat.eqb_eq. split.
    - intros [Hp E]. split; [|exact Hp]. destruct (pixel_bound _ _ Hp) as [_ Hn].
      apply Nat.div_small_iff in E; lia.
    - intros [Hc Hp]. split; [exact Hp|]. now apply Nat.div_small. }
  assert (Hup : forall g, In g upper <-> pixel s g /\ (g / nspat)%nat = top).
  { intro g. unfold upper. rewrite filter_In, ww_spec, Nat.eqb_eq. reflexivity. }
  exists maxtlt, mintlt. repeat match goal with |- _ /\ _ => split end.
  - apply in_map_iff in Imax. destruct Imax as (c & <- & Hc). apply Hbot in Hc.
    destruct Hc as [Hc Hp]. exists c. rewrite Nat.mod_small by exact Hc. auto.
  - intros c Hc Hp. apply Umax. apply in_map_iff. exists c.
    rewrite Nat.mod_small by exact Hc. split; [reflexivity|]. apply Hbot. auto.
  - apply in_map_iff in Imin. destruct Imin as (g & <- & Hg). apply Hup in Hg.
    destruct Hg as [Hp E]. exists g. split; [exact Hp|]. split; [|reflexivity].
    now apply Htop.
  - intros g Hp Hall. apply Lmin. apply in_map_iff. exists g. split; [reflexivity|].
    apply Hup. split; [exact Hp|]. now apply Htop.
  - reflexivity.
Qed.

(** The mask after the passes for the slits [done]. *)
Let marks (done : list Z) (gpm : list bool) : Prop :=
  length gpm = (nspec * nspat)%nat /\
  forall f, nth f gpm false = true <->
    exists s, In s done /\ pixel s f /\ above_first_row s f /\ below_last_row s f.

Lemma marks_step (done : list Z) (gpm gpm' : list bool) (s : Z) :
  marks done gpm ->
  skymask_slit nspec nspat slitimg tilts gpm s = Some gpm' ->
  marks (done ++ [s]) gpm'.
Proof.
  intros [Hlen Hinv] H. apply skymask_slit_inv in H.
  destruct H as (maxtlt & mintlt & (c0 & Hc0 & Pc0 & Emax) & Umax
                 & (g0 & Pg0 & Mg0 & Emin) & Lmin & ->).
  split; [now rewrite assign_length|].
  intro f.
  assert (Hrange : pixel s f ->
            (Qle_bool maxtlt (nth f tilts 0) && Qle_bool (nth f tilts 0) mintlt = true <->
             above_first_row s f /\ below_last_row s f)).
  { intro Hp. rewrite andb_true_iff, !Qle_bool_iff. split.
    - intros [A B]. split.
      + intros c Hc Pc. specialize (Umax c Hc Pc). lra.
      + intros g Pg Mg. specialize (Lmin g Pg Mg). lra.
    - intros [A B]. split.
      + rewrite Emax. now apply A.
      + rewrite Emin. now apply B. }
  destruct (Nat.lt_ge_cases f (length gpm)) as [Hf|Hf].
  - rewrite (assign_map_nth (fun f => Qle_bool maxtlt (nth f tilts 0) &&
                                      Qle_bool (nth f tilts 0) mintlt)) by exact Hf.
    destruct (existsb (Nat.eqb f) (ww s)) eqn:E.
    + apply existsb_In, ww_spec in E. rewrite (Hrange E). split.
      * intros [A B]. exists s. rewrite in_app_iff. cbn. auto 10.
      * intros (s' & _ & Hp & A & B). rewrite (pixel_slit _ _ _ E Hp). auto.
    + assert (Hno : ~ pixel s f).
      { intro Hp. apply ww_spec, existsb_In in Hp. congruence. }
      rewrite Hinv. split.
      * intros (s' & Hin & Hp). exists s'. rewrite in_app_iff. auto.
      * intros (s' & Hin & Hp & A & B). exists s'. split; [|auto].
        apply in_app_iff in Hin. destruct Hin as [Hin|[<-|[]]]; [exact Hin|contradiction].
  - rewrite nth_overflow by (rewrite assign_length; lia). split; [discriminate|].
    intros (s' & _ & Hp & _). apply pixel_bound in Hp. lia.
Qed.

Lemma marks_loop (todo done : list Z) (gpm gpm' : list bool) :
  marks done gpm ->
  fold_left (fun acc s => g <- acc ;; skymask_slit nspec nspat slitimg tilts g s)
            todo (Some gpm) = Some gpm' ->
  marks (done ++ todo) gpm'.
Proof.
  revert done gpm. induction todo as [|s t IH]; intros done gpm Hm H.
  - cbn in H. injection H as <-. now rewrite app_nil_r.
  - cbn in H. destruct (skymask_slit nspec nspat slitimg tilts gpm s) as [g1|] eqn:E.
    + replace (done ++ s :: t) with ((done ++ [s]) ++ t) by now rewrite <- app_assoc.
      apply (IH _ g1); [|exact H]. eapply marks_step; eassumption.
    + exfalso. clear - H. induction t; cbn in H; [discriminate|auto].
Qed.

Lemma loop_fails (todo : list Z) (s : Z) (gpm : list bool) :
  In s todo ->
  (forall g, skymask_slit nspec nspat slitimg tilts g s = None) ->
  fold_left (fun acc s => g <- acc ;; skymask_slit nspec nspat slitimg tilts g s)
            todo (Some gpm) = None.
Proof.
  intros Hin Hs. revert gpm. induction todo as [|x t IH]; intro gpm; [contradiction|].
  cbn. destruct (skymask_slit nspec nspat slitimg tilts gpm x) as [g1|] eqn:E.
  - destruct Hin as [->|Hin]; [rewrite Hs in E; discriminate|]. now apply IH.
  - clear. induction t; cbn; auto.
Qed.

Lemma marks_start : marks [] (repeat false (nspec * nspat)).
Proof.
  split; [apply repeat_length|]. intro f. rewrite nth_repeat. split; [discriminate|].
  intros (s & [] & _).
Qed.

End Skymask.

(** X20: the mask [make_good_skymask] returns has the shape of the images,
    and marks a pixel good exactly when the pixel belongs to a slit with a
    positive identifier, has a non-zero tilt, its tilt is not below the tilt of
    any pixel of its slit in the first row, and not above the value of
    [tilts] in the last row of the image at any column where its slit has a
    pixel in the slit's own last row. *)
Theorem good_skymask_pixels (nspec nspat : nat) (slitimg : list Z) (tilts : list Q)
    (gpm : list bool) :
  make_good_skymask nspec nspat slitimg tilts = Some gpm ->
  length gpm = (nspec * nspat)%nat /\
  forall f, nth f gpm false = true <->
    exists s, (0 < s)%Z /\ slit_pixel slitimg tilts s f /\
      (forall c, (c < nspat)%nat -> slit_pixel slitimg tilts s c ->
                 nth c tilts 0 <= nth f tilts 0) /\
      (forall g, slit_pixel slitimg tilts s g ->
         (forall g', slit_pixel slitimg tilts s g' -> (g' / nspat <= g / nspat)%nat) ->
         nth f tilts 0 <= nth ((nspec - 1) * nspat + g mod nspat) tilts 0).
Proof.
  unfold make_good_skymask.
  destruct ((length slitimg =? nspec * nspat)%nat && (length tilts =? nspec * nspat)%nat)
    eqn:Es; [|discriminate].
  apply andb_true_iff in Es. destruct Es as [E1 E2]. apply Nat.eqb_eq in E1, E2.
  cbn [negb]. intro H.
  apply (marks_loop nspec nspat slitimg tilts E1) with (done := []) in H;
    try exact E2; try apply marks_start.
  destruct H as [Hlen Hinv]. split; [exact Hlen|]. intro f. rewrite Hinv. cbn [app].
  split.
  - intros (s & Hin & Hp & A & B). exists s. split; [|auto].
    apply unique_In, filter_In in Hin. destruct Hin as [_ Hs]. now apply Z.ltb_lt.
  - intros (s & Hs & Hp & A & B). exists s. split; [|auto].
    apply unique_In, filter_In. split; [|now apply Z.ltb_lt].
    destruct Hp as (t & Hn & _). eapply nth_error_In; eassumption.
Qed.

Lemma good_skymask_pixels_witness :
  exists gpm,
    make_good_skymask 2 2 [1%Z; 0%Z; 1%Z; 1%Z] [1 # 2; 0; 1; 3 # 2] = Some gpm /\
    length gpm = 4%nat /\ nth 1 gpm false <> true.
Proof.
  destruct (make_good_skymask 2 2 [1%Z; 0%Z; 1%Z; 1%Z] [1 # 2; 0; 1; 3 # 2])
    as [gpm|] eqn:E; [|vm_compute in E; discriminate].
  exists gpm. split; [reflexivity|].
  destruct (good_skymask_pixels _ _ _ _ _ E) as [Hlen Hinv].
  split; [exact Hlen|]. intro H. apply Hinv in H.
  destruct H as (s & _ & (t & _ & Ht & Hnz) & _).
  cbn in Ht. injection Ht as <-. apply Hnz. reflexivity.
Defined.

(** X21: [make_good_skymask] raises when some slit with a positive
    identifier has no pixel with a non-zero tilt in the first row of the
    image: the maximum over that row is then taken of an empty array. *)
Theorem good_skymask_needs_first_row (nspec nspat : nat) (slitimg : list Z)
    (tilts : list Q) (s : Z) :
  length slitimg = (nspec * nspat)%nat -> length tilts = (nspec * nspat)%nat ->
  In s slitimg -> (0 < s)%Z ->
  (forall c, (c < nspat)%nat -> ~ slit_pixel slitimg tilts s c) ->
  make_good_skymask nspec nspat slitimg tilts = None.
Proof.
  intros E1 E2 Hin Hs Hno. unfold make_good_skymask.
  rewrite E1, E2, Nat.eqb_refl. cbn [andb negb].
  apply (loop_fails nspec nspat slitimg tilts _ s).
  - apply unique_In, filter_In. split; [exact Hin|now apply Z.ltb_lt].
  - intro g. destruct (skymask_slit nspec nspat slitimg tilts g s) as [g'|] eqn:E;
      [|reflexivity].
    apply (skymask_slit_inv nspec nspat slitimg tilts E1) in E; try exact E2.
    destruct E as (maxtlt & mintlt & (c & Hc & Pc & _) & _).
    exfalso. exact (Hno c Hc Pc).
Qed.

Lemma good_skymask_needs_first_row_witness :
  make_good_skymask 2 2 [0%Z; 0%Z; 1%Z; 1%Z] [1 # 2; 1; 1; 3 # 2] = None.
Proof.
  apply (good_skymask_needs_first_row 2 2 _ _ 1%Z).
  - reflexivity.
  - reflexivity.
  - cbn. auto.
  - lia.
  - intros c Hc (t & Hn & _). destruct c as [|[|c]]; [discriminate|discriminate|lia].
Defined.

(** ** Rescaling the weights *)



Lemma scaled_map (k : Q) (f g : Q -> Q) (l : list Q) :
  (forall x, f x == k * g x) -> scaled k (map f l) (map g l).
Proof. intro H. induction l; cbn; constructor; auto. Qed.









Section Rescale.

Variables all_sci all_ivar all_wghts : list Q.
Variable all_spatid : list Z.
Variable bins : voxedges.
Variables n m : Z.
Variable all_idx : list Z.
Variable rng : axis_range * axis_range * axis_range.
Variable grid : list (Q * Q).
Variable a : Q.
Variable c : Q.




End Rescale.






(** ** Frame typing of LBT/MODS exposures *)

Import String.StringSyntax.
Local Open Scope string_scope.

Lemma nth_map_true {A} (f : A -> bool) (l : list A) (i : nat) :
  nth i (map f l) false = true <-> exists r, nth_error l i = Some r /\ f r = true.
Proof.
  revert i. induction l as [|x t IH]; intros [|i]; cbn.
  - split; [discriminate|intros (r & H & _); discriminate].
  - split; [discriminate|intros (r & H & _); discriminate].
  - split; [eauto|]. intros (r & H & Hr). now inversion H.
  - apply IH.
Qed.

Lemma nth_repeat_false (n i : nat) : nth i (repeat false n) false = false.
Proof. apply nth_repeat. Qed.

Ltac row_facts :=
  repeat match goal with
         | H : _ && _ = true |- _ => apply andb_true_iff in H; destruct H
         | H : negb _ = true |- _ => apply negb_true_iff in H
         | H : String.eqb _ _ = true |- _ => apply String.eqb_eq in H
         | H : String.eqb _ _ = false |- _ => apply String.eqb_neq in H
         end.

(** X23: no exposure is selected for two of the frame types science,
    standard, bias, trace, slitless_pixflat and arc: a row that
    [check_frame_type] flags for one of them is not flagged for another. *)
Theorem frame_types_exclusive (good_exp : table_row -> bool) (fitstbl : list table_row)
    (t1 t2 : String.string) (i : nat) :
  In t1 typed_frames -> In t2 typed_frames -> t1 <> t2 ->
  nth i (fst (check_frame_type good_exp t1 fitstbl)) false = true ->
  nth i (fst (check_frame_type good_exp t2 fitstbl)) false = false.
Proof.
  intros H1 H2 Hne Hs.
  destruct (nth i (fst (check_frame_type good_exp t2 fitstbl)) false) eqn:Hs2;
    [exfalso|reflexivity].
  unfold typed_frames in H1, H2. cbn [In] in H1, H2.
  repeat match goal with
         | H : _ \/ _ |- _ => destruct H as [H|H]
         | H : False |- _ => destruct H
         end; subst t1 t2; try (now elim Hne);
    cbn [check_frame_type one_of existsb String.eqb Ascii.eqb Bool.eqb orb andb fst] in Hs, Hs2;
    apply nth_map_true in Hs; apply nth_map_true in Hs2;
    destruct Hs as (r & Hr & Hs); destruct Hs2 as (r' & Hr' & Hs2);
    assert (r' = r) by congruence; subst r'; row_facts; congruence.
Qed.

Lemma frame_types_exclusive_witness :
  nth 0 (fst (check_frame_type (fun _ => true) "standard"
                [{| idname := "OBJECT"; ra := "12:00:00"; dispname := "G670L";
                    decker := "LS5x60x0.6" |}])) false = false.
Proof.
  apply (frame_types_exclusive (fun _ => true) _ "science" "standard" 0).
  - cbn. auto.
  - cbn. auto.
  - discriminate.
  - reflexivity.
Defined.

(** X24: the flags [check_frame_type] returns are one per row of the table;
    a flagged row always passes the exposure-time check, and a row whose
    disperser is named [Flat] is flagged for no type but bias.  The types
    illumflat and tilt are flagged exactly like trace and arc, and no row is
    ever flagged as pinhole or dark. *)
Theorem frame_type_selection (good_exp : table_row -> bool) (ftype : String.string)
    (fitstbl : list table_row) :
  length (fst (check_frame_type good_exp ftype fitstbl)) = length fitstbl /\
  (forall i, nth i (fst (check_frame_type good_exp ftype fitstbl)) false = true ->
     exists r, nth_error fitstbl i = Some r /\ good_exp r = true /\
               (dispname r = "Flat" -> ftype = "bias")) /\
  check_frame_type good_exp "illumflat" fitstbl = check_frame_type good_exp "trace" fitstbl /\
  check_frame_type good_exp "tilt" fitstbl = check_frame_type good_exp "arc" fitstbl /\
  check_frame_type good_exp "pinhole" fitstbl = (repeat false (length fitstbl), []) /\
  check_frame_type good_exp "dark" fitstbl = (repeat false (length fitstbl), []).
Proof.
  split; [|split; [|repeat split]].
  - unfold check_frame_type.
    repeat match goal with
           | |- context [if ?b then _ else _] => destruct b
           end; cbn [fst]; rewrite ?length_map, ?repeat_length; reflexivity.
  - intros i. unfold check_frame_type.
    destruct (one_of ftype ["science"]); [|destruct (one_of ftype ["standard"]);
      [|destruct (String.eqb ftype "bias") eqn:Eb;
        [|destruct (one_of ftype ["trace"; "illumflat"]);
          [|destruct (one_of ftype ["slitless_pixflat"]);
            [|destruct (one_of ftype ["pinhole"; "dark"]);
              [|destruct (one_of ftype ["arc"; "tilt"])]]]]]];
      cbn [fst]; rewrite ?nth_repeat_false; try discriminate;
      intro H; apply nth_map_true in H; destruct H as (r & Hr & H);
      exists r; (split; [exact Hr|]); row_facts;
      (split; [assumption|]); intro E;
      try (apply String.eqb_eq in Eb; exact Eb); congruence.
Qed.

Local Close Scope string_scope.

(** ** The grid of the white-light image *)




(** ** The amplifier sections of a raw LBT/MODS image *)







